(** * N-body: a shallow embedding of the physics engine of [src/N-body.py]

    The Python program keeps its bodies in mutable objects, advances them
    with one worker thread per body and per phase, and reports collisions
    and snapshots as text.  Numbers are Python floats; they are modelled
    here by the real numbers (exact arithmetic), so that a float division
    by zero is the one arithmetic operation that raises.

    Layout: a small state-and-exception monad, the [Body] class, the
    [Asystem] class together with the module globals it reads and writes
    ([planet_system], [init], [write_file]), the text formats, the legacy
    force formula, and then the theorems. *)

From Stdlib Require Import Reals Lra Lia List ZArith String Ascii Bool Arith.
From Stdlib Require Import DecimalString.
Import ListNotations.

Open Scope R_scope.

(* ------------------------------------------------------------------ *)
(** ** Exceptions and the state monad *)

(** The Python exceptions the modelled code can raise. *)
Inductive exn : Type :=
| ZeroDivisionError
| IndexError
| ValueError
| TypeError.

Inductive result (A : Type) : Type :=
| Ok (a : A)
| Raise (e : exn).
Arguments Ok {A} a.
Arguments Raise {A} e.

(** A computation over a mutable state [S]: when it raises, the mutations
    done so far stay (Python has no roll-back). *)
Definition M (S A : Type) : Type := S -> S * result A.

Definition ret {S A} (a : A) : M S A := fun s => (s, Ok a).

Definition bind {S A B} (m : M S A) (k : A -> M S B) : M S B :=
  fun s =>
    match m s with
    | (s', Ok a) => k a s'
    | (s', Raise e) => (s', Raise e)
    end.

Definition raise {S A} (e : exn) : M S A := fun s => (s, Raise e).
Definition get {S} : M S S := fun s => (s, Ok s).
Definition gets {S A} (f : S -> A) : M S A := fun s => (s, Ok (f s)).
Definition modify {S} (f : S -> S) : M S unit := fun s => (f s, Ok tt).
Definition lift {S A} (r : result A) : M S A := fun s => (s, r).

(** Sequencing of results outside of a state. *)
Definition and_then {A B} (r : result A) (k : A -> result B) : result B :=
  match r with
  | Ok a => k a
  | Raise e => Raise e
  end.

Declare Scope monad_scope.
Delimit Scope monad_scope with monad.
Notation "x <- m ;; k" := (bind m (fun x => k))
  (at level 61, m at next level, right associativity) : monad_scope.
Notation "m ;; k" := (bind m (fun _ => k))
  (at level 61, right associativity) : monad_scope.
Open Scope monad_scope.

(** [for a in l: f(a)] *)
Fixpoint for_each {S A} (l : list A) (f : A -> M S unit) : M S unit :=
  match l with
  | [] => ret tt
  | a :: l' => f a ;; for_each l' f
  end.

(** Python's [range(n)]. *)
Definition range (n : nat) : list nat := seq 0 n.

(** Float true division [a / b]: raises on a zero divisor. *)
Definition truediv (a b : R) : result R :=
  if Req_dec_T b 0 then Raise ZeroDivisionError else Ok (a / b).

(** Integer [a % b]: raises on a zero divisor; the sign follows the
    divisor, as [Z.modulo] does. *)
Definition pymod (a b : Z) : result Z :=
  if Z.eqb b 0 then Raise ZeroDivisionError else Ok (Z.modulo a b).

(** Comparison [a <= b] on floats. *)
Definition Rleb (a b : R) : bool := if Rle_dec a b then true else false.
Definition Rltb (a b : R) : bool := if Rlt_dec a b then true else false.

(** [l[i]] on a list, [IndexError] out of range (non-negative index). *)
Definition getitem {A} (l : list A) (i : nat) : result A :=
  match nth_error l i with
  | Some a => Ok a
  | None => Raise IndexError
  end.

(** [l[-i]] for [i >= 1]: the i-th element from the end. *)
Definition getitem_neg {A} (l : list A) (i : nat) : result A :=
  if (i <=? List.length l)%nat then getitem l (List.length l - i) else Raise IndexError.

(** In-place replacement of the object at index [i]. *)
Fixpoint update {A} (l : list A) (i : nat) (a : A) : list A :=
  match l, i with
  | [], _ => []
  | _ :: l', O => a :: l'
  | b :: l', S i' => b :: update l' i' a
  end.

(** A body's identity: [Body.ident] is a [str] when read from a file and
    an [int] when generated. *)
Inductive pyid : Type :=
| IdStr (s : string)
| IdInt (n : Z).

(** [str(n)] for an int. *)
Definition str_int (n : Z) : string := NilZero.string_of_int (Z.to_int n).

(** [str(ident)] *)
Definition str_id (i : pyid) : string :=
  match i with
  | IdStr s => s
  | IdInt n => str_int n
  end.

(** The module-level constants read from the configuration file. *)
Record Config : Type := mkConfig {
  GRAV_CONS : R;
  NORM_DELTA_T : R;
  FINE_DELTA_T : R;
  SEC_PER_DAY : R;
  SAVE_RATE : Z
}.

(* ------------------------------------------------------------------ *)
(** ** class Body *)

Module Body.

Record t : Type := mk {
  ident : pyid;
  time : R;
  x : R;  y : R;  z : R;
  Vx : R; Vy : R; Vz : R;
  mass : R;
  radius : R;
  color1 : R; color2 : R; color3 : R;
  texture : Z;
  coord : list (R * R * R);
  Fx : R; Fy : R; Fz : R;
  collisions : string
}.

Definition set_F (self : t) (fx fy fz : R) : t :=
  mk (ident self) (time self) (x self) (y self) (z self)
     (Vx self) (Vy self) (Vz self) (mass self) (radius self)
     (color1 self) (color2 self) (color3 self) (texture self)
     (coord self) fx fy fz (collisions self).

Definition set_V (self : t) (vx vy vz : R) : t :=
  mk (ident self) (time self) (x self) (y self) (z self)
     vx vy vz (mass self) (radius self)
     (color1 self) (color2 self) (color3 self) (texture self)
     (coord self) (Fx self) (Fy self) (Fz self) (collisions self).

Definition set_pos (self : t) (px py pz : R) : t :=
  mk (ident self) (time self) px py pz
     (Vx self) (Vy self) (Vz self) (mass self) (radius self)
     (color1 self) (color2 self) (color3 self) (texture self)
     (coord self) (Fx self) (Fy self) (Fz self) (collisions self).

Definition set_coord (self : t) (c : list (R * R * R)) : t :=
  mk (ident self) (time self) (x self) (y self) (z self)
     (Vx self) (Vy self) (Vz self) (mass self) (radius self)
     (color1 self) (color2 self) (color3 self) (texture self)
     c (Fx self) (Fy self) (Fz self) (collisions self).

Definition set_time (self : t) (tm : R) : t :=
  mk (ident self) tm (x self) (y self) (z self)
     (Vx self) (Vy self) (Vz self) (mass self) (radius self)
     (color1 self) (color2 self) (color3 self) (texture self)
     (coord self) (Fx self) (Fy self) (Fz self) (collisions self).

(** [Body(ident, time, x, ..., texture)] with every argument given:
    empty trajectory, zeroed force, empty collision text. *)
Definition init (ident : pyid) (time x y z Vx Vy Vz mass radius
                 color1 color2 color3 : R) (texture : Z) : t :=
  mk ident time x y z Vx Vy Vz mass radius color1 color2 color3 texture
     [] 0 0 0 EmptyString.

(** [zeroF] *)
Definition zeroF : M t unit :=
  modify (fun self => set_F self 0 0 0).

(** The squared sum under the root of [cal_netforce]. *)
Definition sqdist (self other : t) : R :=
  (x other - x self) ^ 2 + (y other - y self) ^ 2 + (z other - z self) ^ 2.

(** [cal_netforce]: adds the pull of [other_body] to the accumulator. *)
Definition cal_netforce (G : R) (other_body : t) : M t unit :=
  self <- get ;;
  let Dx := x other_body - x self in
  let Dy := y other_body - y self in
  let Dz := z other_body - z self in
  let distance := sqrt (Dx ^ 2 + Dy ^ 2 + Dz ^ 2) in
  con <- lift (truediv (G * mass self * mass other_body) (distance ^ 2)) ;;
  gd <- lift (truediv con distance) ;;
  modify (fun self => set_F self (Fx self + gd * Dx) (Fy self) (Fz self)) ;;
  modify (fun self => set_F self (Fx self) (Fy self + gd * Dy) (Fz self)) ;;
  modify (fun self => set_F self (Fx self) (Fy self) (Fz self + gd * Dz)).

(** [cal_velocity]; [DELTA_T] is the value of [planet_system.DELTA_T]. *)
Definition cal_velocity (DELTA_T : R) : M t unit :=
  self <- get ;;
  ax <- lift (truediv (Fx self * DELTA_T) (mass self)) ;;
  modify (fun self => set_V self (Vx self + ax) (Vy self) (Vz self)) ;;
  self <- get ;;
  ay <- lift (truediv (Fy self * DELTA_T) (mass self)) ;;
  modify (fun self => set_V self (Vx self) (Vy self + ay) (Vz self)) ;;
  self <- get ;;
  az <- lift (truediv (Fz self * DELTA_T) (mass self)) ;;
  modify (fun self => set_V self (Vx self) (Vy self) (Vz self + az)).

(** [cal_position] *)
Definition cal_position (DELTA_T : R) : M t unit :=
  modify (fun self => set_pos self (x self + Vx self * DELTA_T) (y self) (z self)) ;;
  modify (fun self => set_pos self (x self) (y self + Vy self * DELTA_T) (z self)) ;;
  modify (fun self => set_pos self (x self) (y self) (z self + Vz self * DELTA_T)) ;;
  modify (fun self => set_coord self (coord self ++ [(x self, y self, z self)])).

End Body.

(* ------------------------------------------------------------------ *)
(** ** class Definition (the global [init]) *)

Module Definition_.

(** Only the attributes the engine reads: the pause flag and the
    adjustable normal time step.  The other attributes steer the camera
    and the rendering. *)
Record t : Type := mk {
  bool_T : bool;
  NORM_DELTA_T : R
}.

(** [keyboard]: the keys that reach the engine.  Space toggles the pause,
    the brackets scale the normal time step; the other keys change
    rendering attributes only ([x] ends the program). *)
Definition keyboard (theKey : ascii) (self : t) : t :=
  if Ascii.eqb theKey " " then mk (negb (bool_T self)) (NORM_DELTA_T self)
  else if Ascii.eqb theKey "[" then mk (bool_T self) (NORM_DELTA_T self / (11 / 10))
  else if Ascii.eqb theKey "]" then mk (bool_T self) (NORM_DELTA_T self * (11 / 10))
  else self.

End Definition_.

(* ------------------------------------------------------------------ *)
(** ** class Asystem and the module globals *)

Module Asystem.

Record t : Type := mk {
  DELTA_T : R;
  collisions : string;
  system : list Body.t;
  count : Z;
  closeness : list string
}.

Definition set_DELTA_T (self : t) (dt : R) : t :=
  mk dt (collisions self) (system self) (count self) (closeness self).
Definition set_collisions (self : t) (c : string) : t :=
  mk (DELTA_T self) c (system self) (count self) (closeness self).
Definition set_system (self : t) (l : list Body.t) : t :=
  mk (DELTA_T self) (collisions self) l (count self) (closeness self).
Definition set_count (self : t) (c : Z) : t :=
  mk (DELTA_T self) (collisions self) (system self) c (closeness self).
Definition set_closeness (self : t) (c : list string) : t :=
  mk (DELTA_T self) (collisions self) (system self) (count self) c.

End Asystem.

(** The globals of the module.  [main] builds one [Asystem] and binds it
    to [planet_system]; every method call of the program is made on that
    object, so [self] and [planet_system] are the same object below.
    [write_file] is the open output file: the sequence of the
    [write_to_file] calls made on it, each recorded as the system whose
    text it wrote (the text itself is [write_to_file_data] below).
    [excepthook] collects the exceptions that ended worker threads: an
    exception raised inside a [threading.Thread] target ends that thread
    only and is reported on stderr, [join] returns normally. *)
Record World : Type := mkWorld {
  planet_system : Asystem.t;
  init : Definition_.t;
  write_file : list Asystem.t;
  excepthook : list exn
}.

Definition set_planet_system (w : World) (p : Asystem.t) : World :=
  mkWorld p (init w) (write_file w) (excepthook w).
Definition set_init (w : World) (d : Definition_.t) : World :=
  mkWorld (planet_system w) d (write_file w) (excepthook w).
Definition set_write_file (w : World) (f : list Asystem.t) : World :=
  mkWorld (planet_system w) (init w) f (excepthook w).
Definition set_excepthook (w : World) (l : list exn) : World :=
  mkWorld (planet_system w) (init w) (write_file w) l.

(** The body list of the world. *)
Definition bodies (w : World) : list Body.t := Asystem.system (planet_system w).

Definition set_bodies (w : World) (l : list Body.t) : World :=
  set_planet_system w (Asystem.set_system (planet_system w) l).

(** [self.system[i]] *)
Definition body_at (i : nat) : M World Body.t :=
  w <- get ;; lift (getitem (bodies w) i).

(** A method call on the body object stored at index [i]: the object is
    mutated in place, also when the method raises. *)
Definition on_body {A} (i : nat) (m : M Body.t A) : M World A :=
  fun w =>
    match getitem (bodies w) i with
    | Raise e => (w, Raise e)
    | Ok b => let (b', r) := m b in (set_bodies w (update (bodies w) i b'), r)
    end.

(** A loop that carries a local variable. *)
Fixpoint fold_M {S A B} (l : list A) (f : B -> A -> M S B) (b : B) : M S B :=
  match l with
  | [] => ret b
  | a :: l' => b' <- f b a ;; fold_M l' f b'
  end.

(** [threading.Thread(target=..., args=(body,))], [start] and [join]:
    the target runs; an exception it raises is reported and swallowed. *)
Definition Thread (target : M World unit) : M World unit :=
  fun w =>
    match target w with
    | (w', Ok _) => (w', Ok tt)
    | (w', Raise e) => (set_excepthook w' (excepthook w' ++ [e]), Ok tt)
    end.

Section Engine.

Variable cfg : Config.

(** [compute1]: the body is named by its index in [self.system]; the test
    [body != other_body] compares object identities, that is indices. *)
Definition compute1 (body : nat) : M World unit :=
  on_body body Body.zeroF ;;
  n <- gets (fun w => List.length (bodies w)) ;;
  for_each (range n) (fun other_body =>
    if (body =? other_body)%nat then ret tt
    else
      other <- body_at other_body ;;
      on_body body (Body.cal_netforce (GRAV_CONS cfg) other)) ;;
  dt <- gets (fun w => Asystem.DELTA_T (planet_system w)) ;;
  on_body body (Body.cal_velocity dt).

(** [compute2] *)
Definition compute2 (body : nat) : M World unit :=
  dt <- gets (fun w => Asystem.DELTA_T (planet_system w)) ;;
  on_body body (Body.cal_position dt) ;;
  dt <- gets (fun w => Asystem.DELTA_T (planet_system w)) ;;
  d <- lift (truediv dt (SEC_PER_DAY cfg)) ;;
  on_body body (modify (fun b => Body.set_time b (Body.time b + d))).

(** [write_to_file(write_file)] *)
Definition write_to_file : M World unit :=
  modify (fun w => set_write_file w (write_file w ++ [planet_system w])).

(** The text [if_collision] appends for a collided pair. *)
Definition collision_text (bi bj : Body.t) : string :=
  (str_id (Body.ident bi) ++ " and " ++ str_id (Body.ident bj) ++ ", ")%string.

(** The distance of [if_collision]; [v ** 0.5] of a sum of squares is its
    square root. *)
Definition distance (bi bj : Body.t) : R :=
  sqrt ((Body.x bi - Body.x bj) ^ 2 + (Body.y bi - Body.y bj) ^ 2
        + (Body.z bi - Body.z bj) ^ 2).

(** The body of the two loops of [if_collision] for one [(i, j)]. *)
Definition if_collision_pair (if_T : bool) (i j : nat) : M World bool :=
  if (j <? i)%nat then
    bi <- body_at i ;;
    bj <- body_at j ;;
    let distance := distance bi bj in
    let if_T :=
      if Rleb distance (30 * (Body.radius bi + Body.radius bj)) then true else if_T in
    (if Rleb distance (Body.radius bi + Body.radius bj) then
       modify (fun w => set_planet_system w
         (Asystem.set_collisions (planet_system w)
            (Asystem.collisions (planet_system w) ++ collision_text bi bj)%string))
     else ret tt) ;;
    ret if_T
  else ret if_T.

(** [if_collision]; the two [glut_print] calls only draw on the screen. *)
Definition if_collision : M World unit :=
  modify (fun w => set_planet_system w
            (Asystem.set_collisions (planet_system w) EmptyString)) ;;
  n <- gets (fun w => List.length (bodies w)) ;;
  if_T <- fold_M (range n) (fun if_T i =>
            n' <- gets (fun w => List.length (bodies w)) ;;
            fold_M (range n') (fun if_T j => if_collision_pair if_T i j) if_T)
          false ;;
  d <- gets init ;;
  if negb (Definition_.bool_T d) then
    modify (fun w => set_planet_system w (Asystem.set_DELTA_T (planet_system w) 0))
  else if if_T then
    modify (fun w => set_planet_system w
              (Asystem.set_DELTA_T (planet_system w) (FINE_DELTA_T cfg))) ;;
    write_to_file
  else
    modify (fun w => set_planet_system w
              (Asystem.set_DELTA_T (planet_system w) (Definition_.NORM_DELTA_T d))).

(** [display]: it reads [system[0]] for the light and the date line
    (an [IndexError] on an empty system), runs [if_collision], and draws.
    The calls into OpenGL, GLUT and astropy are taken to return
    normally; what they draw is not part of the state. *)
Definition display : M World unit :=
  _ <- body_at 0 ;;
  if_collision.

(** The two thread phases of [animate]. *)
Definition phase1 : M World unit :=
  n <- gets (fun w => List.length (bodies w)) ;;
  for_each (range n) (fun body => Thread (compute1 body)).

Definition phase2 : M World unit :=
  n <- gets (fun w => List.length (bodies w)) ;;
  for_each (range n) (fun body => Thread (compute2 body)).

(** [animate]: one simulation step. *)
Definition animate : M World unit :=
  modify (fun w => set_planet_system w
            (Asystem.set_closeness (planet_system w) [])) ;;
  c <- gets (fun w => Asystem.count (planet_system w)) ;;
  r <- lift (pymod c (SAVE_RATE cfg)) ;;
  (if (r =? 0)%Z then write_to_file else ret tt) ;;
  phase1 ;;
  phase2 ;;
  display ;;
  modify (fun w => set_planet_system w
            (Asystem.set_count (planet_system w)
               (Asystem.count (planet_system w) + 1)%Z)).

End Engine.

(* ------------------------------------------------------------------ *)
(** ** List and monad helpers *)

Lemma update_length {A} (l : list A) i a : List.length (update l i a) = List.length l.
Proof.
  revert i; induction l as [|b l IH]; intros [|i]; simpl; auto.
Qed.

Lemma nth_error_update_eq {A} (l : list A) i a :
  (i < List.length l)%nat -> nth_error (update l i a) i = Some a.
Proof.
  revert i; induction l as [|b l IH]; intros [|i] H; simpl in *; try lia; auto.
  apply IH; lia.
Qed.

Lemma nth_error_update_neq {A} (l : list A) i j a :
  i <> j -> nth_error (update l i a) j = nth_error l j.
Proof.
  revert i j; induction l as [|b l IH]; intros [|i] [|j] H; simpl; auto; try congruence.
Qed.

Lemma update_update {A} (l : list A) i a b : update (update l i a) i b = update l i b.
Proof.
  revert i; induction l as [|c l IH]; intros [|i]; simpl; auto.
  now rewrite IH.
Qed.

Lemma update_same {A} (l : list A) i a : nth_error l i = Some a -> update l i a = l.
Proof.
  revert i; induction l as [|c l IH]; intros [|i] H; simpl in *; try congruence.
  now rewrite IH.
Qed.

Lemma update_out {A} (l : list A) i a : (List.length l <= i)%nat -> update l i a = l.
Proof.
  revert i; induction l as [|c l IH]; intros [|i] H; simpl in *; auto; try lia.
  rewrite IH; auto; lia.
Qed.

Lemma nth_error_update {A} (l : list A) i j a :
  nth_error (update l i a) j =
  if (i =? j)%nat then (if (i <? List.length l)%nat then Some a else None)
  else nth_error l j.
Proof.
  destruct (Nat.eqb_spec i j) as [->|Hn].
  - destruct (Nat.ltb_spec j (List.length l)).
    + now apply nth_error_update_eq.
    + apply nth_error_None. now rewrite update_length.
  - now apply nth_error_update_neq.
Qed.

Lemma set_bodies_bodies w l : bodies (set_bodies w l) = l.
Proof. reflexivity. Qed.

Lemma set_bodies_twice w l l' : set_bodies (set_bodies w l) l' = set_bodies w l'.
Proof. reflexivity. Qed.

Lemma set_bodies_id w : set_bodies w (bodies w) = w.
Proof. destruct w as [[? ? ? ? ?] ? ? ?]; reflexivity. Qed.

Lemma truediv_ok a b : b <> 0 -> truediv a b = Ok (a / b).
Proof. intros H; unfold truediv; destruct (Req_dec_T b 0); [contradiction|reflexivity]. Qed.

Lemma truediv_zero a b : b = 0 -> truediv a b = Raise ZeroDivisionError.
Proof. intros H; unfold truediv; destruct (Req_dec_T b 0); [reflexivity|contradiction]. Qed.

Lemma Rleb_true a b : Rleb a b = true <-> a <= b.
Proof. unfold Rleb; destruct (Rle_dec a b); split; intros; auto; try discriminate; contradiction. Qed.

Lemma Rleb_false a b : Rleb a b = false <-> b < a.
Proof.
  unfold Rleb; destruct (Rle_dec a b); split; intros; auto; try discriminate; lra.
Qed.

Lemma Rltb_true a b : Rltb a b = true <-> a < b.
Proof. unfold Rltb; destruct (Rlt_dec a b); split; intros; auto; try discriminate; contradiction. Qed.

Lemma Rltb_false a b : Rltb a b = false <-> b <= a.
Proof.
  unfold Rltb; destruct (Rlt_dec a b); split; intros; auto; try discriminate; lra.
Qed.

Lemma run_bind {S A B} (m : M S A) (k : A -> M S B) s :
  bind m k s =
  match m s with
  | (s', Ok a) => k a s'
  | (s', Raise e) => (s', Raise e)
  end.
Proof. reflexivity. Qed.

Lemma body_at_run i w : body_at i w = (w, getitem (bodies w) i).
Proof. reflexivity. Qed.

Lemma for_each_app {S A} (l l' : list A) (f : A -> M S unit) s :
  for_each (l ++ l') f s =
  match for_each l f s with
  | (s', Ok _) => for_each l' f s'
  | (s', Raise e) => (s', Raise e)
  end.
Proof.
  revert s; induction l as [|a l IH]; intros s; simpl.
  - reflexivity.
  - unfold bind. destruct (f a s) as [s1 [[]|e]]; auto.
Qed.

(* ------------------------------------------------------------------ *)
(** ** The force law in closed form *)

(** Two bodies at the same coordinates. *)
Definition same_place (a b : Body.t) : Prop :=
  Body.x a = Body.x b /\ Body.y a = Body.y b /\ Body.z a = Body.z b.

(** The Euclidean distance of the centers, as [cal_netforce] computes it. *)
Definition dist (self other : Body.t) : R := sqrt (Body.sqdist self other).

(** The factor [gd] of [cal_netforce]. *)
Definition gd (G : R) (self other : Body.t) : R :=
  G * Body.mass self * Body.mass other / (dist self other ^ 2) / dist self other.

(** The body after one successful [cal_netforce]. *)
Definition pulled (G : R) (self other : Body.t) : Body.t :=
  Body.set_F self
    (Body.Fx self + gd G self other * (Body.x other - Body.x self))
    (Body.Fy self + gd G self other * (Body.y other - Body.y self))
    (Body.Fz self + gd G self other * (Body.z other - Body.z self)).

Lemma pow2_zero r : r ^ 2 = 0 -> r = 0.
Proof.
  intros H. destruct (Req_dec r 0) as [|Hn]; auto.
  exfalso. now apply (pow_nonzero r 2) in Hn.
Qed.

Lemma sqdist_nonneg a b : 0 <= Body.sqdist a b.
Proof.
  unfold Body.sqdist.
  pose proof (pow2_ge_0 (Body.x b - Body.x a)).
  pose proof (pow2_ge_0 (Body.y b - Body.y a)).
  pose proof (pow2_ge_0 (Body.z b - Body.z a)).
  lra.
Qed.

Lemma sqdist_zero a b : Body.sqdist a b = 0 <-> same_place a b.
Proof.
  unfold Body.sqdist, same_place. split.
  - intros H.
    pose proof (pow2_ge_0 (Body.x b - Body.x a)) as Hx.
    pose proof (pow2_ge_0 (Body.y b - Body.y a)) as Hy.
    pose proof (pow2_ge_0 (Body.z b - Body.z a)) as Hz.
    assert (Hx0 : (Body.x b - Body.x a) ^ 2 = 0) by lra.
    assert (Hy0 : (Body.y b - Body.y a) ^ 2 = 0) by lra.
    assert (Hz0 : (Body.z b - Body.z a) ^ 2 = 0) by lra.
    apply pow2_zero in Hx0, Hy0, Hz0.
    repeat split; lra.
  - intros (-> & -> & ->). ring.
Qed.

Lemma sqdist_sym a b : Body.sqdist a b = Body.sqdist b a.
Proof. unfold Body.sqdist. ring. Qed.

Lemma dist_sym a b : dist a b = dist b a.
Proof. unfold dist. now rewrite sqdist_sym. Qed.

Lemma dist_sq a b : dist a b ^ 2 = Body.sqdist a b.
Proof. unfold dist. apply pow2_sqrt, sqdist_nonneg. Qed.

Lemma dist_nonneg a b : 0 <= dist a b.
Proof. apply sqrt_pos. Qed.

Lemma dist_zero a b : dist a b = 0 <-> same_place a b.
Proof.
  rewrite <- sqdist_zero. split; intros H.
  - rewrite <- dist_sq, H. ring.
  - unfold dist. rewrite H. apply sqrt_0.
Qed.

Lemma same_place_dec a b : {same_place a b} + {~ same_place a b}.
Proof.
  unfold same_place.
  destruct (Req_dec_T (Body.x a) (Body.x b)); [|right; tauto].
  destruct (Req_dec_T (Body.y a) (Body.y b)); [|right; tauto].
  destruct (Req_dec_T (Body.z a) (Body.z b)); [left; tauto|right; tauto].
Qed.

Lemma cal_netforce_far G other self :
  ~ same_place self other ->
  Body.cal_netforce G other self = (pulled G self other, Ok tt).
Proof.
  intros H.
  assert (Hd : dist self other <> 0) by (rewrite dist_zero; exact H).
  assert (Hd2 : dist self other ^ 2 <> 0) by (apply pow_nonzero; exact Hd).
  unfold Body.cal_netforce, bind, get, lift.
  fold (Body.sqdist self other). fold (dist self other).
  rewrite truediv_ok by exact Hd2.
  rewrite truediv_ok by exact Hd.
  reflexivity.
Qed.

Lemma cal_netforce_same G other self :
  same_place self other ->
  Body.cal_netforce G other self = (self, Raise ZeroDivisionError).
Proof.
  intros H.
  assert (Hd : dist self other ^ 2 = 0).
  { apply dist_zero in H. rewrite H. ring. }
  unfold Body.cal_netforce, bind, get, lift.
  fold (Body.sqdist self other). fold (dist self other).
  rewrite truediv_zero by exact Hd.
  reflexivity.
Qed.

(** The body after a successful [cal_velocity]. *)
Definition accelerated (dt : R) (self : Body.t) : Body.t :=
  Body.set_V self
    (Body.Vx self + Body.Fx self * dt / Body.mass self)
    (Body.Vy self + Body.Fy self * dt / Body.mass self)
    (Body.Vz self + Body.Fz self * dt / Body.mass self).

Lemma cal_velocity_ok dt self :
  Body.mass self <> 0 ->
  Body.cal_velocity dt self = (accelerated dt self, Ok tt).
Proof.
  intros H. unfold Body.cal_velocity, bind, get, lift, modify; simpl.
  rewrite !truediv_ok by exact H. reflexivity.
Qed.

Lemma cal_velocity_massless dt self :
  Body.mass self = 0 ->
  Body.cal_velocity dt self = (self, Raise ZeroDivisionError).
Proof.
  intros H. unfold Body.cal_velocity, bind, get, lift.
  rewrite truediv_zero by exact H. reflexivity.
Qed.

(** The body after [cal_position]. *)
Definition moved (dt : R) (self : Body.t) : Body.t :=
  let x' := Body.x self + Body.Vx self * dt in
  let y' := Body.y self + Body.Vy self * dt in
  let z' := Body.z self + Body.Vz self * dt in
  Body.set_coord (Body.set_pos self x' y' z') (Body.coord self ++ [(x', y', z')]).

Lemma cal_position_eq dt self : Body.cal_position dt self = (moved dt self, Ok tt).
Proof. reflexivity. Qed.

(* ------------------------------------------------------------------ *)
(** ** One worker of the first phase, seen from its own body

    [compute1] writes the force and velocity of its own body only, and
    reads the other bodies through the shared list.  [compute1_body] is
    the same computation as a function of the own body, the others being
    read from a fixed list [sys]. *)

Definition forces (G : R) (body : nat) (sys : list Body.t) (js : list nat)
  : M Body.t unit :=
  for_each js (fun other_body =>
    if (body =? other_body)%nat then ret tt
    else other <- lift (getitem sys other_body) ;; Body.cal_netforce G other).

Definition compute1_body (G dt : R) (body : nat) (sys : list Body.t) : M Body.t unit :=
  Body.zeroF ;;
  forces G body sys (range (List.length sys)) ;;
  Body.cal_velocity dt.

Section EngineFacts.

Variable cfg : Config.

Lemma on_body_at {A} i (m : M Body.t A) w b :
  nth_error (bodies w) i = Some b ->
  on_body i m w = (set_bodies w (update (bodies w) i (fst (m b))), snd (m b)).
Proof.
  intros H. unfold on_body, getitem. rewrite H. now destruct (m b).
Qed.

Lemma on_body_out {A} i (m : M Body.t A) w :
  nth_error (bodies w) i = None -> on_body i m w = (w, Raise IndexError).
Proof.
  intros H. unfold on_body, getitem. now rewrite H.
Qed.

Lemma compute1_loop i sys js : forall w bcur,
  (i < List.length sys)%nat ->
  bodies w = update sys i bcur ->
  for_each js (fun other_body =>
    if (i =? other_body)%nat then ret tt
    else other <- body_at other_body ;;
         on_body i (Body.cal_netforce (GRAV_CONS cfg) other)) w
  = (set_bodies w (update sys i (fst (forces (GRAV_CONS cfg) i sys js bcur))),
     snd (forces (GRAV_CONS cfg) i sys js bcur)).
Proof.
  induction js as [|j js IH]; intros w bcur Hi Hw.
  - simpl. unfold ret. rewrite <- Hw, set_bodies_id. reflexivity.
  - unfold forces. cbn [for_each]. fold (forces (GRAV_CONS cfg) i sys js).
    rewrite (run_bind _ _ w), (run_bind _ _ bcur).
    destruct (Nat.eqb_spec i j) as [->|Hij].
    + unfold ret. cbn beta iota. apply IH; auto.
    + rewrite (run_bind _ _ w), (run_bind _ _ bcur), body_at_run.
      unfold lift.
      assert (Hj : getitem (bodies w) j = getitem sys j).
      { unfold getitem. rewrite Hw, nth_error_update_neq by exact Hij. reflexivity. }
      rewrite Hj. destruct (getitem sys j) as [other|e].
      * rewrite (on_body_at i _ w bcur)
          by (rewrite Hw; now apply nth_error_update_eq).
        rewrite Hw, update_update.
        destruct (Body.cal_netforce (GRAV_CONS cfg) other bcur) as [b' [[]|e]] eqn:E;
          cbn [fst snd].
        -- rewrite (IH (set_bodies w (update sys i b')) b' Hi eq_refl).
           reflexivity.
        -- reflexivity.
      * cbn [fst snd]. rewrite <- Hw, set_bodies_id. reflexivity.
Qed.

(** [compute1] on the body at index [i] is [compute1_body] run on that
    body, stored back at index [i]; nothing else of the world changes. *)
Lemma compute1_local i w b :
  nth_error (bodies w) i = Some b ->
  compute1 cfg i w =
  (set_bodies w (update (bodies w) i
     (fst (compute1_body (GRAV_CONS cfg) (Asystem.DELTA_T (planet_system w))
             i (bodies w) b))),
   snd (compute1_body (GRAV_CONS cfg) (Asystem.DELTA_T (planet_system w))
          i (bodies w) b)).
Proof.
  intros Hb.
  assert (Hi : (i < List.length (bodies w))%nat)
    by (apply nth_error_Some; congruence).
  unfold compute1, compute1_body.
  rewrite (run_bind _ _ w), (run_bind _ _ b), (on_body_at i _ w b Hb).
  unfold Body.zeroF, modify. cbn [fst snd].
  set (b0 := Body.set_F b 0 0 0).
  set (w0 := set_bodies w (update (bodies w) i b0)).
  rewrite (run_bind _ _ w0). unfold gets at 1.
  rewrite (run_bind _ _ w0), (run_bind _ _ b0).
  assert (Hlen : List.length (bodies w0) = List.length (bodies w))
    by (unfold w0; rewrite set_bodies_bodies; apply update_length).
  rewrite Hlen.
  rewrite (compute1_loop i (bodies w) _ w0 b0 Hi eq_refl).
  destruct (forces (GRAV_CONS cfg) i (bodies w) (range (List.length (bodies w))) b0)
    as [b1 [[]|e]] eqn:E; cbn [fst snd].
  - rewrite run_bind. unfold gets.
    rewrite (on_body_at i _ _ b1)
      by (rewrite set_bodies_bodies; now apply nth_error_update_eq).
    unfold w0. rewrite set_bodies_twice, set_bodies_bodies, update_update.
    reflexivity.
  - unfold w0. rewrite set_bodies_twice. reflexivity.
Qed.

Lemma compute1_out i w :
  nth_error (bodies w) i = None -> compute1 cfg i w = (w, Raise IndexError).
Proof.
  intros H. unfold compute1, bind. now rewrite on_body_out.
Qed.

End EngineFacts.

(* ------------------------------------------------------------------ *)
(** ** A phase: one thread per body *)

(** [imap f k l]: [f (k + i)] applied to the i-th element of [l]. *)
Fixpoint imap {A B} (f : nat -> A -> B) (k : nat) (l : list A) : list B :=
  match l with
  | [] => []
  | a :: l' => f k a :: imap f (S k) l'
  end.

Lemma imap_length {A B} (f : nat -> A -> B) l : forall k,
  List.length (imap f k l) = List.length l.
Proof. induction l; intros; simpl; auto. Qed.

Lemma nth_error_imap {A B} (f : nat -> A -> B) l : forall k i,
  nth_error (imap f k l) i = option_map (f (k + i)%nat) (nth_error l i).
Proof.
  induction l as [|a l IH]; intros k [|i]; simpl; auto.
  - now rewrite Nat.add_0_r.
  - rewrite IH. now rewrite Nat.add_succ_r.
Qed.

Lemma imap_ext {A B} (f g : nat -> A -> B) l : forall k,
  (forall i a, nth_error l i = Some a -> f (k + i)%nat a = g (k + i)%nat a) ->
  imap f k l = imap g k l.
Proof.
  induction l as [|a l IH]; intros k H; simpl; auto.
  f_equal.
  - specialize (H 0%nat a eq_refl). now rewrite Nat.add_0_r in H.
  - apply IH. intros i b Hb. specialize (H (S i) b Hb).
    now rewrite Nat.add_succ_r in H.
Qed.

Lemma update_middle {A} (pre : list A) a b rest :
  update (pre ++ a :: rest) (List.length pre) b = pre ++ b :: rest.
Proof. induction pre; simpl; auto. now rewrite IHpre. Qed.

Lemma nth_error_middle {A} (pre : list A) a rest :
  nth_error (pre ++ a :: rest) (List.length pre) = Some a.
Proof. induction pre; simpl; auto. Qed.

(** The exceptions a thread reports. *)
Definition reported (r : result unit) : list exn :=
  match r with
  | Ok _ => []
  | Raise e => [e]
  end.

Lemma Thread_run target w :
  Thread target w =
  (set_excepthook (fst (target w))
     (excepthook (fst (target w)) ++ reported (snd (target w))), Ok tt).
Proof.
  unfold Thread. destruct (target w) as [w' [[]|e]]; simpl; auto.
  rewrite app_nil_r. now destruct w'.
Qed.

(** A loop of threads in which thread [i] acts on body [i] as the
    function [f i], for as long as the invariant [Inv] holds: the loop
    maps [f] over the bodies and reports the threads' exceptions. *)
Lemma thread_loop (Inv : World -> Prop) (T : nat -> M World unit)
      (f : nat -> Body.t -> Body.t) (g : nat -> Body.t -> list exn) :
  (forall w i b, Inv w -> nth_error (bodies w) i = Some b ->
     Inv (set_excepthook (set_bodies w (update (bodies w) i (f i b)))
            (excepthook w ++ g i b))) ->
  (forall w i b, Inv w -> nth_error (bodies w) i = Some b ->
     Thread (T i) w =
     (set_excepthook (set_bodies w (update (bodies w) i (f i b)))
        (excepthook w ++ g i b), Ok tt)) ->
  forall rest pre w,
    Inv w -> bodies w = pre ++ rest ->
    for_each (seq (List.length pre) (List.length rest)) (fun i => Thread (T i)) w =
    (set_excepthook (set_bodies w (pre ++ imap f (List.length pre) rest))
       (excepthook w ++ List.concat (imap g (List.length pre) rest)), Ok tt).
Proof.
  intros HInv HT.
  induction rest as [|a rest IH]; intros pre w Hw Hb.
  - simpl. unfold ret. rewrite !app_nil_r. rewrite <- (app_nil_r pre), <- Hb.
    rewrite set_bodies_id. now destruct w.
  - cbn [List.length seq for_each imap List.concat]. rewrite run_bind.
    assert (Ha : nth_error (bodies w) (List.length pre) = Some a)
      by (rewrite Hb; apply nth_error_middle).
    rewrite (HT w _ a Hw Ha).
    specialize (HInv w _ a Hw Ha).
    set (k := List.length pre) in *.
    set (w1 := set_excepthook _ _) in *.
    assert (Hb1 : bodies w1 = (pre ++ [f k a]) ++ rest).
    { unfold w1. cbn. fold (bodies w). rewrite Hb. unfold k.
      rewrite update_middle, <- app_assoc. reflexivity. }
    assert (Hk : List.length (pre ++ [f k a]) = S k)
      by (rewrite length_app; simpl; unfold k; lia).
    specialize (IH (pre ++ [f k a]) w1 HInv Hb1). rewrite Hk in IH.
    rewrite IH. unfold w1. destruct w as [ps ini wf ex]. cbn.
    rewrite <- !app_assoc. reflexivity.
Qed.

(* ------------------------------------------------------------------ *)
(** ** What the first phase reads and what it writes *)

(** The attributes of a body that the force law reads from the others. *)
Definition geom (a b : Body.t) : Prop :=
  Body.x a = Body.x b /\ Body.y a = Body.y b /\ Body.z a = Body.z b
  /\ Body.mass a = Body.mass b.

(** [b] is [a] up to the force accumulator and the velocity. *)
Definition only_FV (a b : Body.t) : Prop :=
  b = Body.set_V (Body.set_F a (Body.Fx b) (Body.Fy b) (Body.Fz b))
        (Body.Vx b) (Body.Vy b) (Body.Vz b).

Lemma only_FV_refl a : only_FV a a.
Proof. now destruct a. Qed.

Lemma only_FV_trans a b c : only_FV a b -> only_FV b c -> only_FV a c.
Proof. unfold only_FV. intros -> ->. reflexivity. Qed.

Lemma only_FV_geom a b : only_FV a b -> geom a b.
Proof. unfold only_FV, geom. intros ->. cbn. auto. Qed.

Lemma geom_refl a : geom a a.
Proof. unfold geom; auto. Qed.

Lemma geom_sym a b : geom a b -> geom b a.
Proof. unfold geom; intuition congruence. Qed.

Lemma geom_trans a b c : geom a b -> geom b c -> geom a c.
Proof. unfold geom; intuition congruence. Qed.

Lemma only_FV_set_F a fx fy fz : only_FV a (Body.set_F a fx fy fz).
Proof. now destruct a. Qed.

Lemma only_FV_set_V a vx vy vz : only_FV a (Body.set_V a vx vy vz).
Proof. now destruct a. Qed.

Lemma cal_netforce_only_FV G other self :
  only_FV self (fst (Body.cal_netforce G other self)).
Proof.
  destruct (same_place_dec self other) as [H|H].
  - rewrite cal_netforce_same by exact H. apply only_FV_refl.
  - rewrite cal_netforce_far by exact H. apply only_FV_set_F.
Qed.

Lemma cal_velocity_only_FV dt self :
  only_FV self (fst (Body.cal_velocity dt self)).
Proof.
  destruct (Req_dec_T (Body.mass self) 0) as [H|H].
  - rewrite cal_velocity_massless by exact H. apply only_FV_refl.
  - rewrite cal_velocity_ok by exact H. apply only_FV_set_V.
Qed.

Lemma forces_only_FV G i sys js : forall b,
  only_FV b (fst (forces G i sys js b)).
Proof.
  induction js as [|j js IH]; intros b.
  - apply only_FV_refl.
  - unfold forces. cbn [for_each]. fold (forces G i sys js). rewrite run_bind.
    destruct (i =? j)%nat.
    + unfold ret. apply IH.
    + rewrite run_bind. unfold lift. destruct (getitem sys j) as [o|e].
      * pose proof (cal_netforce_only_FV G o b) as H.
        destruct (Body.cal_netforce G o b) as [b' [[]|e]]; cbn [fst] in *; auto.
        eapply only_FV_trans; [exact H|apply IH].
      * apply only_FV_refl.
Qed.

Lemma compute1_body_only_FV G dt i sys b :
  only_FV b (fst (compute1_body G dt i sys b)).
Proof.
  unfold compute1_body. rewrite run_bind. unfold Body.zeroF, modify.
  rewrite run_bind.
  pose proof (forces_only_FV G i sys (range (List.length sys)) (Body.set_F b 0 0 0)) as H.
  destruct (forces G i sys (range (List.length sys)) (Body.set_F b 0 0 0))
    as [b1 [[]|e]]; cbn [fst] in *.
  - eapply only_FV_trans; [apply only_FV_set_F|].
    eapply only_FV_trans; [exact H|apply cal_velocity_only_FV].
  - eapply only_FV_trans; [apply only_FV_set_F|exact H].
Qed.

Lemma cal_netforce_geom G o o' self :
  geom o o' -> Body.cal_netforce G o self = Body.cal_netforce G o' self.
Proof.
  intros (Hx & Hy & Hz & Hm). unfold Body.cal_netforce.
  now rewrite Hx, Hy, Hz, Hm.
Qed.

Lemma Forall2_getitem {A} (P : A -> A -> Prop) l l' i :
  Forall2 P l l' ->
  match getitem l i, getitem l' i with
  | Ok a, Ok a' => P a a'
  | Raise e, Raise e' => e = e'
  | _, _ => False
  end.
Proof.
  intros H. revert i. unfold getitem.
  induction H; intros [|i]; simpl; auto. apply IHForall2.
Qed.

Lemma forces_geom G i sys sys' js : 
  Forall2 geom sys sys' ->
  forall b, forces G i sys js b = forces G i sys' js b.
Proof.
  intros H. induction js as [|j js IH]; intros b; auto.
  unfold forces. cbn [for_each]. fold (forces G i sys js) (forces G i sys' js).
  rewrite !run_bind. destruct (i =? j)%nat.
  - unfold ret. apply IH.
  - rewrite !run_bind. unfold lift.
    pose proof (Forall2_getitem geom sys sys' j H) as Hj.
    destruct (getitem sys j) as [o|e], (getitem sys' j) as [o'|e']; try contradiction.
    + rewrite (cal_netforce_geom G o o' b Hj).
      destruct (Body.cal_netforce G o' b) as [b' [[]|e]]; auto.
    + now subst e'.
Qed.

Lemma compute1_body_geom G dt i sys sys' b :
  Forall2 geom sys sys' ->
  compute1_body G dt i sys b = compute1_body G dt i sys' b.
Proof.
  intros H. unfold compute1_body. rewrite !run_bind.
  destruct (Body.zeroF b) as [b0 [[]|e]]; auto.
  rewrite !run_bind, (Forall2_length H), (forces_geom G i sys sys' _ H).
  reflexivity.
Qed.

Lemma Forall2_update_geom l sys i b b' :
  Forall2 geom l sys -> nth_error l i = Some b -> geom b b' ->
  Forall2 geom (update l i b') sys.
Proof.
  intros H. revert i. induction H as [|a s l sys Has H IH]; intros [|i] Hb Hg;
    simpl in *; try discriminate.
  - injection Hb as ->. constructor; auto.
    eapply geom_trans; [apply geom_sym; exact Hg|exact Has].
  - constructor; auto.
Qed.

Lemma Forall2_geom_refl l : Forall2 geom l l.
Proof. induction l; constructor; auto using geom_refl. Qed.

(** The bodies after the first phase, and the exceptions its threads
    report: every body is advanced by its own [compute1_body], all of them
    reading the body list [sys] as it was when the phase began. *)
Definition phase1_bodies (G dt : R) (sys : list Body.t) : list Body.t :=
  imap (fun i b => fst (compute1_body G dt i sys b)) 0 sys.

Definition phase1_reports (G dt : R) (sys : list Body.t) : list exn :=
  List.concat (imap (fun i b => reported (snd (compute1_body G dt i sys b))) 0 sys).

Section Phase1.

Variable cfg : Config.

Lemma phase1_run w :
  phase1 cfg w =
  (set_excepthook
     (set_bodies w
        (phase1_bodies (GRAV_CONS cfg) (Asystem.DELTA_T (planet_system w)) (bodies w)))
     (excepthook w ++
      phase1_reports (GRAV_CONS cfg) (Asystem.DELTA_T (planet_system w)) (bodies w)),
   Ok tt).
Proof.
  unfold phase1. rewrite run_bind. unfold gets.
  set (sys0 := bodies w). set (dt := Asystem.DELTA_T (planet_system w)).
  pose (Inv := fun w' : World =>
    Forall2 geom (bodies w') sys0 /\ Asystem.DELTA_T (planet_system w') = dt).
  assert (HInv : forall w' i b, Inv w' -> nth_error (bodies w') i = Some b ->
     Inv (set_excepthook
            (set_bodies w' (update (bodies w') i
               (fst (compute1_body (GRAV_CONS cfg) dt i sys0 b))))
            (excepthook w' ++
             reported (snd (compute1_body (GRAV_CONS cfg) dt i sys0 b))))).
  { intros w' i b [Hg Hdt] Hb. split.
    - cbn. fold (bodies w'). eapply Forall2_update_geom; eauto.
      apply only_FV_geom, compute1_body_only_FV.
    - exact Hdt. }
  assert (HT : forall w' i b, Inv w' -> nth_error (bodies w') i = Some b ->
     Thread (compute1 cfg i) w' =
     (set_excepthook
        (set_bodies w' (update (bodies w') i
           (fst (compute1_body (GRAV_CONS cfg) dt i sys0 b))))
        (excepthook w' ++
         reported (snd (compute1_body (GRAV_CONS cfg) dt i sys0 b))), Ok tt)).
  { intros w' i b [Hg Hdt] Hb.
    rewrite Thread_run, (compute1_local cfg i w' b Hb). cbn [fst snd].
    rewrite Hdt, (compute1_body_geom _ _ _ _ sys0 _ Hg). reflexivity. }
  exact (thread_loop Inv (compute1 cfg) _ _ HInv HT sys0 [] w
           (conj (Forall2_geom_refl sys0) eq_refl) eq_refl).
Qed.

End Phase1.

(* ------------------------------------------------------------------ *)
(** ** The second phase *)

(** [compute2] seen from its own body. *)
Definition compute2_body (dt sec_per_day : R) : M Body.t unit :=
  Body.cal_position dt ;;
  d <- lift (truediv dt sec_per_day) ;;
  modify (fun b => Body.set_time b (Body.time b + d)).

Definition phase2_bodies (dt sec_per_day : R) (sys : list Body.t) : list Body.t :=
  map (fun b => fst (compute2_body dt sec_per_day b)) sys.

Definition phase2_reports (dt sec_per_day : R) (sys : list Body.t) : list exn :=
  List.concat (map (fun b => reported (snd (compute2_body dt sec_per_day b))) sys).

Lemma imap_map {A B} (f : A -> B) l : forall k, imap (fun _ a => f a) k l = map f l.
Proof. induction l; intros; simpl; auto. now rewrite IHl. Qed.

Section Phase2.

Variable cfg : Config.

Lemma compute2_local i w b :
  nth_error (bodies w) i = Some b ->
  compute2 cfg i w =
  (set_bodies w (update (bodies w) i
     (fst (compute2_body (Asystem.DELTA_T (planet_system w)) (SEC_PER_DAY cfg) b))),
   snd (compute2_body (Asystem.DELTA_T (planet_system w)) (SEC_PER_DAY cfg) b)).
Proof.
  intros Hb.
  assert (Hi : (i < List.length (bodies w))%nat)
    by (apply nth_error_Some; congruence).
  unfold compute2, compute2_body.
  rewrite (run_bind _ _ w). unfold gets at 1.
  rewrite (run_bind _ _ w), (run_bind _ _ b), (on_body_at i _ w b Hb).
  rewrite cal_position_eq. cbn [fst snd].
  set (dt := Asystem.DELTA_T (planet_system w)).
  rewrite run_bind. unfold gets. rewrite !run_bind. unfold lift. cbn [planet_system set_bodies set_planet_system Asystem.DELTA_T Asystem.set_system].
  fold dt.
  destruct (truediv dt (SEC_PER_DAY cfg)) as [d|e]; cbn [fst snd].
  - rewrite (on_body_at i _ _ (moved dt b))
      by (rewrite set_bodies_bodies; now apply nth_error_update_eq).
    unfold modify. cbn [fst snd].
    rewrite set_bodies_twice, set_bodies_bodies, update_update. reflexivity.
  - reflexivity.
Qed.

Lemma phase2_run w :
  phase2 cfg w =
  (set_excepthook
     (set_bodies w
        (phase2_bodies (Asystem.DELTA_T (planet_system w)) (SEC_PER_DAY cfg) (bodies w)))
     (excepthook w ++
      phase2_reports (Asystem.DELTA_T (planet_system w)) (SEC_PER_DAY cfg) (bodies w)),
   Ok tt).
Proof.
  unfold phase2. rewrite run_bind. unfold gets.
  set (dt := Asystem.DELTA_T (planet_system w)).
  pose (Inv := fun w' : World => Asystem.DELTA_T (planet_system w') = dt).
  assert (HInv : forall w' i b, Inv w' -> nth_error (bodies w') i = Some b ->
     Inv (set_excepthook
            (set_bodies w' (update (bodies w') i
               (fst (compute2_body dt (SEC_PER_DAY cfg) b))))
            (excepthook w' ++
             reported (snd (compute2_body dt (SEC_PER_DAY cfg) b)))))
    by (intros w' i b Hdt Hb; exact Hdt).
  assert (HT : forall w' i b, Inv w' -> nth_error (bodies w') i = Some b ->
     Thread (compute2 cfg i) w' =
     (set_excepthook
        (set_bodies w' (update (bodies w') i
           (fst (compute2_body dt (SEC_PER_DAY cfg) b))))
        (excepthook w' ++
         reported (snd (compute2_body dt (SEC_PER_DAY cfg) b))), Ok tt)).
  { intros w' i b Hdt Hb.
    rewrite Thread_run, (compute2_local i w' b Hb). cbn [fst snd].
    rewrite Hdt. reflexivity. }
  pose proof (thread_loop Inv (compute2 cfg)
                (fun _ b => fst (compute2_body dt (SEC_PER_DAY cfg) b))
                (fun _ b => reported (snd (compute2_body dt (SEC_PER_DAY cfg) b)))
                HInv HT (bodies w) [] w eq_refl eq_refl) as H.
  rewrite !imap_map in H. exact H.
Qed.

End Phase2.

(* ------------------------------------------------------------------ *)
(** ** The collision scan in closed form *)

Lemma append_nil_r (s : string) : (s ++ "")%string = s.
Proof. induction s; simpl; congruence. Qed.

Lemma append_assoc (a b c : string) : ((a ++ b) ++ c)%string = (a ++ (b ++ c))%string.
Proof. induction a; simpl; congruence. Qed.

(** Concatenation of a list of strings. *)
Definition join (l : list string) : string := fold_right String.append EmptyString l.

Lemma join_app l l' : join (l ++ l') = (join l ++ join l')%string.
Proof. induction l; simpl; auto. now rewrite IHl, append_assoc. Qed.

(** The pairs [(i, j)] with [j < i < n], in the order in which the two
    loops of [if_collision] visit them. *)
Definition row (i : nat) (js : list nat) : list (nat * nat) :=
  flat_map (fun j => if (j <? i)%nat then [(i, j)] else []) js.

Definition pairs_of (is_ js : list nat) : list (nat * nat) :=
  flat_map (fun i => row i js) is_.

Definition pairs (n : nat) : list (nat * nat) := pairs_of (range n) (range n).

Definition near_b (bi bj : Body.t) : bool :=
  Rleb (distance bi bj) (30 * (Body.radius bi + Body.radius bj)).

Definition collided_b (bi bj : Body.t) : bool :=
  Rleb (distance bi bj) (Body.radius bi + Body.radius bj).

(** A function of two bodies applied to the pair of indices [p]. *)
Definition at_pair {A} (sys : list Body.t) (f : Body.t -> Body.t -> A) (d : A)
           (p : nat * nat) : A :=
  match nth_error sys (fst p), nth_error sys (snd p) with
  | Some bi, Some bj => f bi bj
  | _, _ => d
  end.

Definition near (sys : list Body.t) : nat * nat -> bool := at_pair sys near_b false.
Definition collided (sys : list Body.t) : nat * nat -> bool := at_pair sys collided_b false.
Definition pair_text (sys : list Body.t) : nat * nat -> string :=
  at_pair sys collision_text EmptyString.

(** The collision events of a body list: the collided pairs, in scan order. *)
Definition collision_events (sys : list Body.t) : list (nat * nat) :=
  filter (collided sys) (pairs (List.length sys)).

(** The near-or-collided flag [if_T] of a body list. *)
Definition any_near (sys : list Body.t) : bool :=
  existsb (near sys) (pairs (List.length sys)).

Definition add_collisions (w : World) (s : string) : World :=
  set_planet_system w
    (Asystem.set_collisions (planet_system w)
       (Asystem.collisions (planet_system w) ++ s)%string).

Lemma add_collisions_nil w : add_collisions w EmptyString = w.
Proof.
  unfold add_collisions. rewrite append_nil_r.
  destruct w as [[? ? ? ? ?] ? ? ?]; reflexivity.
Qed.

Lemma add_collisions_twice w s s' :
  add_collisions (add_collisions w s) s' = add_collisions w (s ++ s')%string.
Proof. unfold add_collisions. cbn. now rewrite append_assoc. Qed.

Lemma at_pair_some {A} sys (f : Body.t -> Body.t -> A) d i j bi bj :
  nth_error sys i = Some bi -> nth_error sys j = Some bj ->
  at_pair sys f d (i, j) = f bi bj.
Proof. intros Hi Hj. unfold at_pair. cbn [fst snd]. now rewrite Hi, Hj. Qed.

Lemma if_collision_pair_run t i j w bi bj :
  nth_error (bodies w) i = Some bi ->
  nth_error (bodies w) j = Some bj ->
  if_collision_pair t i j w =
  (add_collisions w (join (map (pair_text (bodies w))
                             (filter (collided (bodies w)) (row i [j])))),
   Ok (t || existsb (near (bodies w)) (row i [j]))).
Proof.
  intros Hi Hj. unfold if_collision_pair, row. cbn [flat_map].
  destruct (j <? i)%nat; cbn [app filter map existsb].
  - rewrite run_bind, body_at_run. unfold getitem at 1. rewrite Hi.
    rewrite run_bind, body_at_run. unfold getitem at 1. rewrite Hj.
    rewrite run_bind.
    unfold collided, near, pair_text.
    rewrite !(at_pair_some _ _ _ i j bi bj Hi Hj).
    fold (near_b bi bj). fold (collided_b bi bj).
    destruct (collided_b bi bj); unfold modify, ret; cbn [map join fold_right].
    + rewrite (at_pair_some _ _ _ i j bi bj Hi Hj).
      rewrite append_nil_r. unfold add_collisions.
      destruct (near_b bi bj), t; reflexivity.
    + rewrite add_collisions_nil. destruct (near_b bi bj), t; reflexivity.
  - unfold ret. cbn [join fold_right]. rewrite add_collisions_nil, orb_false_r.
    reflexivity.
Qed.

Lemma bodies_add_collisions w s : bodies (add_collisions w s) = bodies w.
Proof. reflexivity. Qed.

Lemma row_cons i j js : row i (j :: js) = row i [j] ++ row i js.
Proof. unfold row. cbn [flat_map]. now rewrite app_nil_r. Qed.

Lemma scan_row i js : forall t w,
  (i < List.length (bodies w))%nat ->
  Forall (fun j => (j < List.length (bodies w))%nat) js ->
  fold_M js (fun if_T j => if_collision_pair if_T i j) t w =
  (add_collisions w (join (map (pair_text (bodies w))
                             (filter (collided (bodies w)) (row i js)))),
   Ok (t || existsb (near (bodies w)) (row i js))).
Proof.
  induction js as [|j js IH]; intros t w Hi Hjs.
  - cbn. unfold ret. now rewrite add_collisions_nil, orb_false_r.
  - inversion Hjs as [|? ? Hj Hjs']; subst.
    destruct (nth_error (bodies w) i) as [bi|] eqn:Ei;
      [|apply nth_error_None in Ei; lia].
    destruct (nth_error (bodies w) j) as [bj|] eqn:Ej;
      [|apply nth_error_None in Ej; lia].
    cbn [fold_M]. rewrite run_bind, (if_collision_pair_run t i j w bi bj Ei Ej).
    rewrite IH by (rewrite ?bodies_add_collisions; auto).
    rewrite bodies_add_collisions, add_collisions_twice.
    rewrite (row_cons i j js).
    rewrite filter_app, map_app, join_app, existsb_app, orb_assoc.
    reflexivity.
Qed.

Lemma scan_rows is_ : forall t w,
  Forall (fun i => (i < List.length (bodies w))%nat) is_ ->
  fold_M is_ (fun if_T i =>
     n' <- gets (fun w => List.length (bodies w)) ;;
     fold_M (range n') (fun if_T j => if_collision_pair if_T i j) if_T) t w =
  (add_collisions w
     (join (map (pair_text (bodies w))
              (filter (collided (bodies w))
                 (pairs_of is_ (range (List.length (bodies w))))))),
   Ok (t || existsb (near (bodies w))
               (pairs_of is_ (range (List.length (bodies w)))))).
Proof.
  induction is_ as [|i is_ IH]; intros t w His.
  - cbn. unfold ret. now rewrite add_collisions_nil, orb_false_r.
  - inversion His as [|? ? Hi His']; subst.
    cbn [fold_M]. rewrite run_bind, run_bind. unfold gets at 1.
    rewrite scan_row; auto.
    2:{ apply Forall_forall. intros j Hj. apply in_seq in Hj. lia. }
    rewrite IH by (rewrite ?bodies_add_collisions; auto).
    rewrite bodies_add_collisions, add_collisions_twice.
    change (pairs_of (i :: is_) (range (List.length (bodies w))))
      with (row i (range (List.length (bodies w)))
            ++ pairs_of is_ (range (List.length (bodies w)))).
    rewrite filter_app, map_app, join_app, existsb_app, orb_assoc.
    reflexivity.
Qed.

(** The world after the two loops: the collision text is the text of the
    collision events. *)
Definition scanned (w : World) : World :=
  set_planet_system w
    (Asystem.set_collisions (planet_system w)
       (join (map (pair_text (bodies w)) (collision_events (bodies w))))).

Definition set_dt (w : World) (dt : R) : World :=
  set_planet_system w (Asystem.set_DELTA_T (planet_system w) dt).

(** The choice of the next time step at the end of [if_collision]. *)
Definition next_step (cfg : Config) (if_T : bool) (w : World) : World :=
  if negb (Definition_.bool_T (init w)) then set_dt w 0
  else if if_T then
    set_write_file (set_dt w (FINE_DELTA_T cfg))
      (write_file w ++ [planet_system (set_dt w (FINE_DELTA_T cfg))])
  else set_dt w (Definition_.NORM_DELTA_T (init w)).

Section Scan.

Variable cfg : Config.

Lemma if_collision_run w :
  if_collision cfg w = (next_step cfg (any_near (bodies w)) (scanned w), Ok tt).
Proof.
  unfold if_collision. rewrite run_bind. unfold modify at 1.
  set (w0 := set_planet_system w _).
  rewrite run_bind. unfold gets at 1. rewrite run_bind.
  rewrite scan_rows
    by (apply Forall_forall; intros i Hi; apply in_seq in Hi; lia).
  change (bodies w0) with (bodies w). fold (pairs (List.length (bodies w))).
  fold (collision_events (bodies w)). fold (any_near (bodies w)).
  cbn [orb]. rewrite run_bind. unfold gets.
  assert (Hs : add_collisions w0
                 (join (map (pair_text (bodies w)) (collision_events (bodies w))))
               = scanned w) by reflexivity.
  rewrite Hs. unfold next_step.
  destruct (negb (Definition_.bool_T (init (scanned w)))); [reflexivity|].
  destruct (any_near (bodies w)); reflexivity.
Qed.

Lemma display_run w :
  bodies w <> [] ->
  display cfg w = (next_step cfg (any_near (bodies w)) (scanned w), Ok tt).
Proof.
  intros H. unfold display. rewrite run_bind, body_at_run.
  destruct (bodies w) as [|b l] eqn:E; [contradiction|].
  cbn [getitem nth_error]. rewrite if_collision_run, E. reflexivity.
Qed.

Lemma display_empty w :
  bodies w = [] -> display cfg w = (w, Raise IndexError).
Proof.
  intros H. unfold display. rewrite run_bind, body_at_run, H. reflexivity.
Qed.

End Scan.

(* ------------------------------------------------------------------ *)
(** ** One step, stage by stage *)

Section Step.

Variable cfg : Config.

(** Start of [animate]: the closeness list is emptied, and a snapshot is
    written when the step counter is a multiple of [SAVE_RATE]. *)
Definition stage0 (w : World) : World :=
  let w0 := set_planet_system w (Asystem.set_closeness (planet_system w) []) in
  if (Z.modulo (Asystem.count (planet_system w)) (SAVE_RATE cfg) =? 0)%Z
  then set_write_file w0 (write_file w0 ++ [planet_system w0])
  else w0.

(** After the force-and-velocity threads have been joined. *)
Definition stage1 (w : World) : World := fst (phase1 cfg (stage0 w)).

(** After the position threads have been joined. *)
Definition stage2 (w : World) : World := fst (phase2 cfg (stage1 w)).

(** After [display], that is after [if_collision]. *)
Definition stage3 (w : World) : World :=
  next_step cfg (any_near (bodies (stage2 w))) (scanned (stage2 w)).

(** End of the step: the counter is incremented. *)
Definition stage4 (w : World) : World :=
  set_planet_system (stage3 w)
    (Asystem.set_count (planet_system (stage3 w))
       (Asystem.count (planet_system (stage3 w)) + 1)%Z).

Lemma phase1_ok w : snd (phase1 cfg w) = Ok tt.
Proof. now rewrite phase1_run. Qed.

Lemma phase2_ok w : snd (phase2 cfg w) = Ok tt.
Proof. now rewrite phase2_run. Qed.

Lemma bodies_stage0 w : bodies (stage0 w) = bodies w.
Proof. unfold stage0. now destruct (_ =? _)%Z. Qed.

Lemma dt_stage0 w :
  Asystem.DELTA_T (planet_system (stage0 w)) = Asystem.DELTA_T (planet_system w).
Proof. unfold stage0. now destruct (_ =? _)%Z. Qed.

Lemma bodies_stage1 w :
  bodies (stage1 w) =
  phase1_bodies (GRAV_CONS cfg) (Asystem.DELTA_T (planet_system w)) (bodies w).
Proof.
  unfold stage1. rewrite phase1_run. cbn [fst].
  now rewrite dt_stage0, bodies_stage0.
Qed.

Lemma dt_stage1 w :
  Asystem.DELTA_T (planet_system (stage1 w)) = Asystem.DELTA_T (planet_system w).
Proof. unfold stage1. rewrite phase1_run. cbn. apply dt_stage0. Qed.

Lemma bodies_stage2 w :
  bodies (stage2 w) =
  phase2_bodies (Asystem.DELTA_T (planet_system w)) (SEC_PER_DAY cfg)
    (bodies (stage1 w)).
Proof.
  unfold stage2. rewrite phase2_run. cbn [fst].
  now rewrite dt_stage1.
Qed.

Lemma bodies_scanned w : bodies (scanned w) = bodies w.
Proof. reflexivity. Qed.

Lemma bodies_next_step b w : bodies (next_step cfg b w) = bodies w.
Proof.
  unfold next_step.
  destruct (negb _); [reflexivity|]. destruct b; reflexivity.
Qed.

Lemma bodies_stage3 w : bodies (stage3 w) = bodies (stage2 w).
Proof. unfold stage3. now rewrite bodies_next_step. Qed.

Lemma bodies_stage4 w : bodies (stage4 w) = bodies (stage2 w).
Proof. unfold stage4. cbn. apply bodies_stage3. Qed.

Lemma length_phase1_bodies G dt sys :
  List.length (phase1_bodies G dt sys) = List.length sys.
Proof. apply imap_length. Qed.

Lemma length_phase2_bodies dt s sys :
  List.length (phase2_bodies dt s sys) = List.length sys.
Proof. apply length_map. Qed.

Lemma length_stage2 w : List.length (bodies (stage2 w)) = List.length (bodies w).
Proof.
  now rewrite bodies_stage2, length_phase2_bodies, bodies_stage1, length_phase1_bodies.
Qed.

Lemma animate_prelude w :
  SAVE_RATE cfg <> 0%Z ->
  animate cfg w =
  match display cfg (stage2 w) with
  | (w3, Ok _) =>
      (set_planet_system w3
         (Asystem.set_count (planet_system w3)
            (Asystem.count (planet_system w3) + 1)%Z), Ok tt)
  | (w3, Raise e) => (w3, Raise e)
  end.
Proof.
  intros Hs. unfold animate.
  rewrite run_bind. unfold modify at 1.
  rewrite run_bind. unfold gets at 1.
  rewrite run_bind. unfold lift, pymod.
  destruct (Z.eqb_spec (SAVE_RATE cfg) 0) as [E|_]; [contradiction|].
  rewrite run_bind.
  set (w0 := set_planet_system w _).
  change (Asystem.count (planet_system w0)) with (Asystem.count (planet_system w)).
  assert (H0 : (if (Asystem.count (planet_system w) mod SAVE_RATE cfg =? 0)%Z
                then write_to_file else ret tt) w0 = (stage0 w, Ok tt)).
  { unfold stage0. fold w0. destruct (_ =? _)%Z; reflexivity. }
  rewrite H0. rewrite run_bind.
  pose proof (phase1_ok (stage0 w)) as H1.
  destruct (phase1 cfg (stage0 w)) as [w1 r1] eqn:E1. cbn [snd] in H1. subst r1.
  assert (Hw1 : w1 = stage1 w) by (unfold stage1; now rewrite E1). subst w1.
  rewrite run_bind.
  pose proof (phase2_ok (stage1 w)) as H2.
  destruct (phase2 cfg (stage1 w)) as [w2 r2] eqn:E2. cbn [snd] in H2. subst r2.
  assert (Hw2 : w2 = stage2 w) by (unfold stage2; now rewrite E2). subst w2.
  rewrite run_bind. destruct (display cfg (stage2 w)) as [w3 [[]|e]]; reflexivity.
Qed.

(** A step on a non-empty system with a non-zero [SAVE_RATE] runs through
    all stages and returns normally. *)
Lemma animate_run w :
  SAVE_RATE cfg <> 0%Z -> bodies w <> [] ->
  animate cfg w = (stage4 w, Ok tt).
Proof.
  intros Hs Hb. rewrite animate_prelude by exact Hs.
  rewrite display_run.
  - reflexivity.
  - intros Hn. apply (f_equal (@List.length _)) in Hn.
    rewrite length_stage2 in Hn. destruct (bodies w); [contradiction|discriminate].
Qed.

(** With [SAVE_RATE = 0] the test [count % SAVE_RATE] raises before any
    body is touched. *)
Lemma animate_save_rate_zero w :
  SAVE_RATE cfg = 0%Z ->
  animate cfg w =
  (set_planet_system w (Asystem.set_closeness (planet_system w) []),
   Raise ZeroDivisionError).
Proof.
  intros Hs. unfold animate.
  rewrite run_bind. unfold modify at 1.
  rewrite run_bind. unfold gets at 1.
  rewrite run_bind. unfold lift, pymod. rewrite Hs. reflexivity.
Qed.

(** On an empty system [display] raises when it reads [system[0]]. *)
Lemma animate_empty w :
  SAVE_RATE cfg <> 0%Z -> bodies w = [] ->
  animate cfg w = (stage2 w, Raise IndexError).
Proof.
  intros Hs Hb. rewrite animate_prelude by exact Hs.
  rewrite display_empty.
  - reflexivity.
  - apply length_zero_iff_nil. rewrite length_stage2, Hb. reflexivity.
Qed.

End Step.

(* ------------------------------------------------------------------ *)
(** ** The net force in closed form *)

(** Sum of [f] over a list. *)
Fixpoint Rsum {A} (l : list A) (f : A -> R) : R :=
  match l with
  | [] => 0
  | a :: l' => f a + Rsum l' f
  end.

Lemma Rsum_ext {A} (l : list A) f g :
  (forall a, In a l -> f a = g a) -> Rsum l f = Rsum l g.
Proof.
  induction l as [|a l IH]; intros H; simpl; auto.
  rewrite (H a) by (now left). rewrite IH; auto. intros; apply H; now right.
Qed.

Lemma Rsum_plus {A} (l : list A) f g :
  Rsum l (fun a => f a + g a) = Rsum l f + Rsum l g.
Proof. induction l; simpl; [lra|]. rewrite IHl. lra. Qed.

Lemma Rsum_scal {A} (l : list A) f c :
  Rsum l (fun a => c * f a) = c * Rsum l f.
Proof. induction l; simpl; [lra|]. rewrite IHl. lra. Qed.

Lemma Rsum_opp {A} (l : list A) f :
  Rsum l (fun a => - f a) = - Rsum l f.
Proof. induction l; simpl; [lra|]. rewrite IHl. lra. Qed.

Lemma Rsum_zero {A} (l : list A) : Rsum l (fun _ => 0) = 0.
Proof. induction l; simpl; lra. Qed.

Lemma Rsum_app {A} (l l' : list A) f : Rsum (l ++ l') f = Rsum l f + Rsum l' f.
Proof. induction l; simpl; [lra|]. rewrite IHl. lra. Qed.

Lemma Rsum_map {A B} (h : A -> B) (l : list A) f :
  Rsum (map h l) f = Rsum l (fun a => f (h a)).
Proof. induction l; simpl; auto. now rewrite IHl. Qed.

(** A double sum of an antisymmetric term vanishes. *)
Lemma Rsum_antisym {A} (l : list A) (t : A -> A -> R) :
  (forall a b, t a b = - t b a) ->
  Rsum l (fun a => Rsum l (fun b => t a b)) = 0.
Proof.
  intros H. induction l as [|c l IH]; simpl; auto.
  assert (Hc : t c c = 0) by (pose proof (H c c); lra).
  rewrite Rsum_plus, IH, Hc.
  rewrite (Rsum_ext l (fun a => t a c) (fun a => - t c a)) by (intros; apply H).
  rewrite Rsum_opp. change (fun b : A => t c b) with (t c). lra.
Qed.

(** The three components of the pull of [other] on [self]: the factor
    [gd] times the displacement from [self] to [other]. *)
Definition pull_x (G : R) (self other : Body.t) : R :=
  gd G self other * (Body.x other - Body.x self).
Definition pull_y (G : R) (self other : Body.t) : R :=
  gd G self other * (Body.y other - Body.y self).
Definition pull_z (G : R) (self other : Body.t) : R :=
  gd G self other * (Body.z other - Body.z self).

(** The term that the body at index [j] of [sys] adds to the accumulator
    of the body [self] at index [i]: nothing when [j] is [i] itself. *)
Definition term (p : Body.t -> Body.t -> R) (sys : list Body.t)
           (i : nat) (self : Body.t) (j : nat) : R :=
  if (i =? j)%nat then 0
  else match nth_error sys j with
       | Some other => p self other
       | None => 0
       end.

(** No body other than the one at index [i] is at the place of [self]. *)
Definition alone (sys : list Body.t) (i : nat) (self : Body.t) : Prop :=
  forall j other, j <> i -> nth_error sys j = Some other -> ~ same_place self other.

Lemma set_F_twice b fx fy fz fx' fy' fz' :
  Body.set_F (Body.set_F b fx fy fz) fx' fy' fz' = Body.set_F b fx' fy' fz'.
Proof. reflexivity. Qed.

Lemma gd_set_F G b fx fy fz other :
  gd G (Body.set_F b fx fy fz) other = gd G b other.
Proof. reflexivity. Qed.

(** The other bodies with an index in [js] are away from [self]. *)
Definition apart_on (sys : list Body.t) (i : nat) (self : Body.t) (js : list nat) : Prop :=
  Forall (fun j => (j < List.length sys)%nat /\
                   forall other, j <> i -> nth_error sys j = Some other ->
                                 ~ same_place self other) js.

Lemma forces_far_on G i sys b js : forall fx fy fz,
  apart_on sys i b js ->
  forces G i sys js (Body.set_F b fx fy fz) =
  (Body.set_F b (fx + Rsum js (term (pull_x G) sys i b))
                (fy + Rsum js (term (pull_y G) sys i b))
                (fz + Rsum js (term (pull_z G) sys i b)), Ok tt).
Proof.
  induction js as [|j js IH]; intros fx fy fz Hjs.
  - cbn. unfold ret. now rewrite !Rplus_0_r.
  - inversion Hjs as [|? ? [Hj Ha] Hjs']; subst.
    unfold forces. cbn [for_each]. fold (forces G i sys js). rewrite run_bind.
    cbn [Rsum]. unfold term at 1 3 5.
    destruct (Nat.eqb_spec i j) as [->|Hij].
    + unfold ret. rewrite IH by auto. now rewrite !Rplus_0_l.
    + rewrite run_bind. unfold lift, getitem.
      destruct (nth_error sys j) as [other|] eqn:Ej;
        [|apply nth_error_None in Ej; lia].
      rewrite cal_netforce_far
        by (intros Hs; apply (Ha other); auto; exact Hs).
      unfold pulled. rewrite set_F_twice, !gd_set_F.
      cbn [Body.set_F Body.Fx Body.Fy Body.Fz Body.x Body.y Body.z].
      fold (pull_x G b other) (pull_y G b other) (pull_z G b other).
      rewrite IH by auto. now rewrite !Rplus_assoc.
Qed.

Lemma alone_apart_on sys i b js :
  alone sys i b -> Forall (fun j => (j < List.length sys)%nat) js ->
  apart_on sys i b js.
Proof.
  intros Ha Hjs. unfold apart_on. eapply Forall_impl; [|exact Hjs].
  intros j Hj. split; auto. intros other Hn Ho. exact (Ha j other Hn Ho).
Qed.

Lemma forces_far G i sys b js fx fy fz :
  alone sys i b ->
  Forall (fun j => (j < List.length sys)%nat) js ->
  forces G i sys js (Body.set_F b fx fy fz) =
  (Body.set_F b (fx + Rsum js (term (pull_x G) sys i b))
                (fy + Rsum js (term (pull_y G) sys i b))
                (fz + Rsum js (term (pull_z G) sys i b)), Ok tt).
Proof. intros Ha Hjs. apply forces_far_on. now apply alone_apart_on. Qed.

(** The net force on the body [self] at index [i] of [sys]. *)
Definition net_x (G : R) (sys : list Body.t) (i : nat) (self : Body.t) : R :=
  Rsum (range (List.length sys)) (term (pull_x G) sys i self).
Definition net_y (G : R) (sys : list Body.t) (i : nat) (self : Body.t) : R :=
  Rsum (range (List.length sys)) (term (pull_y G) sys i self).
Definition net_z (G : R) (sys : list Body.t) (i : nat) (self : Body.t) : R :=
  Rsum (range (List.length sys)) (term (pull_z G) sys i self).

Lemma range_in_range n : Forall (fun j => (j < n)%nat) (range n).
Proof. apply Forall_forall. intros j Hj. apply in_seq in Hj. lia. Qed.

(** With nobody else at its place and a non-zero mass, a body leaves
    [compute1] with the net force in its accumulator and the velocity
    advanced by it. *)
Lemma compute1_body_far G dt i sys b :
  alone sys i b -> Body.mass b <> 0 ->
  compute1_body G dt i sys b =
  (accelerated dt (Body.set_F b (net_x G sys i b) (net_y G sys i b) (net_z G sys i b)),
   Ok tt).
Proof.
  intros Ha Hm. unfold compute1_body.
  rewrite run_bind. unfold Body.zeroF, modify. rewrite run_bind.
  rewrite forces_far by (auto using range_in_range).
  rewrite !Rplus_0_l. apply cal_velocity_ok. exact Hm.
Qed.

(* ------------------------------------------------------------------ *)
(** ** The legacy program [N-body.py] at the top of the repository

    Its [Body] has fewer attributes and its [force_cal] decomposes the
    force through the angles [asin(dz/d)] and [atan(dy/dx)]. *)

Module Legacy.

Record t : Type := mk {
  ident : pyid;
  x : R;  y : R;  z : R;
  Vx : R; Vy : R; Vz : R;
  Vx_new : R; Vy_new : R; Vz_new : R;
  mass : R
}.

(** [Body(ident, x, y, z, Vx, Vy, Vz, mass)] *)
Definition init (ident : pyid) (x y z Vx Vy Vz mass : R) : t :=
  mk ident x y z Vx Vy Vz 0 0 0 mass.

(** [math.asin]: a [ValueError] outside of [-1, 1]. *)
Definition math_asin (v : R) : result R :=
  if Rleb (-1) v && Rleb v 1 then Ok (asin v) else Raise ValueError.

(** [force_cal] *)
Definition force_cal (self other_body : t) (grav_cons : R) : result (R * R * R) :=
  let dx := x other_body - x self in
  let dy := y other_body - y self in
  let dz := z other_body - z self in
  let distance := sqrt (dx ^ 2 + dy ^ 2 + dz ^ 2) in
  and_then (truediv (grav_cons * mass self * mass other_body) (distance ^ 2)) (fun force =>
  and_then (truediv dz distance) (fun q =>
  and_then (math_asin q) (fun angleBAM =>
  and_then (truediv dy dx) (fun q' =>
  let angleMAN := atan q' in
  let AM := force * cos angleBAM in
  let Fx := AM * cos angleMAN in
  let Fy := AM * sin angleMAN in
  let Fz := force * sin angleBAM in
  Ok (Fx, Fy, Fz))))).

(** [velocity_cal] *)
Definition velocity_cal (self : t) (fx fy fz time_int : R) : result (R * R * R) :=
  and_then (truediv (fx * time_int) (mass self)) (fun ax =>
  and_then (truediv (fy * time_int) (mass self)) (fun ay =>
  and_then (truediv (fz * time_int) (mass self)) (fun az =>
  Ok (Vx self + ax, Vy self + ay, Vz self + az)))).

End Legacy.

(** A body of the current program with the attributes the legacy class has. *)
Definition legacy_view (b : Body.t) : Legacy.t :=
  Legacy.init (Body.ident b) (Body.x b) (Body.y b) (Body.z b)
    (Body.Vx b) (Body.Vy b) (Body.Vz b) (Body.mass b).

(* ------------------------------------------------------------------ *)
(** ** Newton's law as the specification words it *)

Definition vec : Type := (R * R * R)%type.

Definition vadd (u v : vec) : vec :=
  let '(a, b, c) := u in let '(a', b', c') := v in (a + a', b + b', c + c').

Definition vsum (l : list vec) : vec := fold_right vadd (0, 0, 0) l.

Definition norm (u : vec) : R :=
  let '(a, b, c) := u in sqrt (a ^ 2 + b ^ 2 + c ^ 2).

(** The Euclidean distance of the centers. *)
Definition euclid (a b : Body.t) : R :=
  sqrt ((Body.x b - Body.x a) ^ 2 + (Body.y b - Body.y a) ^ 2
        + (Body.z b - Body.z a) ^ 2).

(** The unit vector from [a] to [b]. *)
Definition unit_to (a b : Body.t) : vec :=
  ((Body.x b - Body.x a) / euclid a b,
   (Body.y b - Body.y a) / euclid a b,
   (Body.z b - Body.z a) / euclid a b).

(** [G * m_i * m_j / d^2] along the unit vector from [i] to [j]. *)
Definition newton (G : R) (a b : Body.t) : vec :=
  let k := G * Body.mass a * Body.mass b / euclid a b ^ 2 in
  let '(ux, uy, uz) := unit_to a b in
  (k * ux, k * uy, k * uz).

(** The force accumulator of a body. *)
Definition force_of (b : Body.t) : vec := (Body.Fx b, Body.Fy b, Body.Fz b).

(** The bodies of [sys] other than the one at index [i], in list order. *)
Definition others_from (k : nat) (i : nat) (l : list Body.t) : list Body.t :=
  map snd (filter (fun jb => negb (i =? fst jb)%nat) (combine (seq k (List.length l)) l)).

Definition others (i : nat) (sys : list Body.t) : list Body.t := others_from 0 i sys.

Lemma euclid_dist a b : euclid a b = dist a b.
Proof. reflexivity. Qed.

Lemma dist_pos a b : ~ same_place a b -> 0 < dist a b.
Proof.
  intros H. pose proof (dist_nonneg a b) as Hn.
  destruct (Req_dec (dist a b) 0) as [E|E]; [|lra].
  apply dist_zero in E. contradiction.
Qed.

Lemma unit_to_unit a b :
  ~ same_place a b -> norm (unit_to a b) = 1.
Proof.
  intros H. pose proof (dist_pos a b H) as Hd. pose proof (dist_sq a b) as Hs.
  unfold norm, unit_to. rewrite euclid_dist.
  replace (((Body.x b - Body.x a) / dist a b) ^ 2 + ((Body.y b - Body.y a) / dist a b) ^ 2
           + ((Body.z b - Body.z a) / dist a b) ^ 2)
    with (Body.sqdist a b / dist a b ^ 2)
    by (unfold Body.sqdist; field; lra).
  rewrite Hs. unfold Rdiv. rewrite Rinv_r.
  - apply sqrt_1.
  - rewrite <- Hs. apply pow_nonzero. lra.
Qed.

Lemma newton_pull G a b :
  ~ same_place a b ->
  newton G a b = (pull_x G a b, pull_y G a b, pull_z G a b).
Proof.
  intros H. pose proof (dist_pos a b H) as Hd.
  unfold newton, unit_to, pull_x, pull_y, pull_z, gd. rewrite euclid_dist.
  f_equal; [f_equal|]; field; lra.
Qed.

Lemma norm_scale k u : 0 <= k ->
  norm (let '(a, b, c) := u in (k * a, k * b, k * c)) = k * norm u.
Proof.
  intros Hk. destruct u as [[a b] c]. unfold norm.
  replace ((k * a) ^ 2 + (k * b) ^ 2 + (k * c) ^ 2)
    with (k ^ 2 * (a ^ 2 + b ^ 2 + c ^ 2)) by ring.
  rewrite sqrt_mult_alt by (apply pow2_ge_0).
  rewrite sqrt_pow2 by exact Hk. reflexivity.
Qed.

Lemma newton_norm G a b :
  ~ same_place a b -> 0 <= G * Body.mass a * Body.mass b ->
  norm (newton G a b) = G * Body.mass a * Body.mass b / euclid a b ^ 2.
Proof.
  intros H Hk. pose proof (dist_pos a b H) as Hd.
  pose proof (unit_to_unit a b H) as Hu.
  unfold newton.
  assert (Hk' : 0 <= G * Body.mass a * Body.mass b / euclid a b ^ 2).
  { rewrite euclid_dist. apply Rmult_le_pos; [exact Hk|].
    apply Rlt_le, Rinv_0_lt_compat, pow_lt, Hd. }
  pose proof (norm_scale _ (unit_to a b) Hk') as Hn.
  destruct (unit_to a b) as [[ux uy] uz]. rewrite Hn, Hu. ring.
Qed.

Lemma vsum_components {A} (l : list A) (f g h : A -> R) :
  vsum (map (fun a => (f a, g a, h a)) l) = (Rsum l f, Rsum l g, Rsum l h).
Proof.
  induction l as [|a l IH]; auto.
  cbn [map]. change (vsum ((f a, g a, h a) :: map (fun a => (f a, g a, h a)) l))
    with (vadd (f a, g a, h a) (vsum (map (fun a => (f a, g a, h a)) l))).
  rewrite IH. reflexivity.
Qed.

Lemma others_from_sum p pre i b : forall l,
  Rsum (seq (List.length pre) (List.length l)) (term p (pre ++ l) i b) =
  Rsum (others_from (List.length pre) i l) (p b).
Proof.
  intros l. revert pre. induction l as [|a l IH]; intros pre; auto.
  unfold others_from. cbn [List.length seq combine filter fst Rsum].
  unfold term at 1. rewrite nth_error_middle.
  replace (pre ++ a :: l) with ((pre ++ [a]) ++ l) by (now rewrite <- app_assoc).
  specialize (IH (pre ++ [a])).
  replace (List.length (pre ++ [a])) with (S (List.length pre)) in IH
    by (rewrite length_app; simpl; lia).
  rewrite IH. unfold others_from.
  destruct (i =? List.length pre)%nat; cbn [negb map snd Rsum]; lra.
Qed.

Lemma others_sum p sys i b :
  Rsum (range (List.length sys)) (term p sys i b) = Rsum (others i sys) (p b).
Proof. exact (others_from_sum p [] i b sys). Qed.

Lemma in_others_from o i : forall l k,
  In o (others_from k i l) ->
  exists j, (k <= j)%nat /\ j <> i /\ nth_error l (j - k) = Some o.
Proof.
  induction l as [|a l IH]; intros k H.
  - contradiction.
  - unfold others_from in H. cbn [List.length seq combine filter fst] in H.
    destruct (Nat.eqb_spec i k) as [E|E]; cbn [negb map snd] in H.
    + apply (IH (S k)) in H. destruct H as (j & Hk & Hj & Hn).
      exists j. repeat split; auto; try lia.
      replace (j - k)%nat with (S (j - S k)) by lia. exact Hn.
    + destruct H as [<-|H].
      * exists k. repeat split; auto. now rewrite Nat.sub_diag.
      * apply (IH (S k)) in H. destruct H as (j & Hk & Hj & Hn).
        exists j. repeat split; auto; try lia.
        replace (j - k)%nat with (S (j - S k)) by lia. exact Hn.
Qed.

Lemma in_others o i sys :
  In o (others i sys) -> exists j, j <> i /\ nth_error sys j = Some o.
Proof.
  intros H. apply in_others_from in H. destruct H as (j & _ & Hj & Hn).
  exists j. now rewrite Nat.sub_0_r in Hn.
Qed.

Lemma cal_velocity_force dt b :
  force_of (fst (Body.cal_velocity dt b)) = force_of b.
Proof.
  destruct (Req_dec_T (Body.mass b) 0) as [H|H].
  - now rewrite cal_velocity_massless.
  - now rewrite cal_velocity_ok.
Qed.

(** The net force of [compute1] is the sum of Newton's pulls of the
    other bodies. *)
Lemma compute1_body_net G dt i sys b :
  alone sys i b ->
  force_of (fst (compute1_body G dt i sys b)) = vsum (map (newton G b) (others i sys)).
Proof.
  intros Ha. unfold compute1_body.
  rewrite run_bind. unfold Body.zeroF, modify. rewrite run_bind.
  rewrite forces_far by (auto using range_in_range).
  rewrite cal_velocity_force. unfold force_of. cbn [Body.set_F Body.Fx Body.Fy Body.Fz].
  rewrite !Rplus_0_l, !others_sum.
  rewrite (map_ext_in (newton G b)
             (fun o => (pull_x G b o, pull_y G b o, pull_z G b o))).
  - now rewrite vsum_components.
  - intros o Ho. apply in_others in Ho. destruct Ho as (j & Hj & Hn).
    apply newton_pull. exact (Ha j o Hj Hn).
Qed.

(** The legacy angle formula divides by [dx]: it raises on a pair with
    equal [x] coordinates. *)
Lemma legacy_axis_singular G a b :
  ~ same_place a b -> Body.x b = Body.x a ->
  Legacy.force_cal (legacy_view a) (legacy_view b) G = Raise ZeroDivisionError.
Proof.
  intros H Hx. pose proof (dist_pos a b H) as Hd. pose proof (dist_sq a b) as Hs.
  unfold Legacy.force_cal, legacy_view, Legacy.init.
  cbn [Legacy.x Legacy.y Legacy.z Legacy.mass].
  fold (Body.sqdist a b). fold (dist a b).
  rewrite truediv_ok by (apply pow_nonzero; lra). cbn [and_then].
  rewrite truediv_ok by lra. cbn [and_then].
  assert (Hq : -1 <= (Body.z b - Body.z a) / dist a b <= 1).
  { assert (Hz : (Body.z b - Body.z a) ^ 2 <= dist a b ^ 2).
    { rewrite Hs. unfold Body.sqdist.
      pose proof (pow2_ge_0 (Body.x b - Body.x a)).
      pose proof (pow2_ge_0 (Body.y b - Body.y a)). lra. }
    split.
    - apply Rmult_le_reg_r with (dist a b); [exact Hd|].
      unfold Rdiv. rewrite Rmult_assoc, Rinv_l by lra. nra.
    - apply Rmult_le_reg_r with (dist a b); [exact Hd|].
      unfold Rdiv. rewrite Rmult_assoc, Rinv_l by lra. nra. }
  unfold Legacy.math_asin.
  destruct Hq as [Hq1 Hq2]. apply Rleb_true in Hq1, Hq2. rewrite Hq1, Hq2.
  cbn [andb and_then].
  rewrite truediv_zero by lra. reflexivity.
Qed.

(* ------------------------------------------------------------------ *)
(** ** Text: closeness events, snapshots, body records

    [str] of a float and the parsers [float] and [int] are Python
    built-ins; they are parameters here.  A parser answers [None] where
    Python raises [ValueError]. *)

Definition LF : ascii := "010"%char.
Definition CR : ascii := "013"%char.
Definition nl : string := String LF EmptyString.

(** [s[:-2]] *)
Definition drop_last2 (s : string) : string :=
  substring 0 (String.length s - 2) s.

(** [s.split(c)] for a one-character separator. *)
Fixpoint split (c : ascii) (s : string) : list string :=
  match s with
  | EmptyString => [EmptyString]
  | String a s' =>
      if Ascii.eqb a c then EmptyString :: split c s'
      else match split c s' with
           | h :: t => String a h :: t
           | [] => [String a EmptyString]
           end
  end.

(** Reading a text file translates ["\r\n"] and ["\r"] to ["\n"]. *)
Fixpoint universal_newlines (s : string) : string :=
  match s with
  | EmptyString => EmptyString
  | String a s' =>
      if Ascii.eqb a CR then
        match s' with
        | String b s'' =>
            if Ascii.eqb b LF then String LF (universal_newlines s'')
            else String LF (universal_newlines s')
        | EmptyString => String LF EmptyString
        end
      else String a (universal_newlines s')
  end.

(** The lines of a text, each with its line end. *)
Fixpoint readlines (s : string) : list string :=
  match s with
  | EmptyString => []
  | String a s' =>
      if Ascii.eqb a LF then String a EmptyString :: readlines s'
      else match readlines s' with
           | h :: t => String a h :: t
           | [] => [String a EmptyString]
           end
  end.

(** [for line in open(file_name)] over a file with the given content. *)
Definition open_lines (content : string) : list string :=
  readlines (universal_newlines content).

(** An operand of [str + str]: an [int] raises [TypeError]. *)
Definition as_str (i : pyid) : result string :=
  match i with
  | IdStr s => Ok s
  | IdInt _ => Raise TypeError
  end.

Section Text.

Variable str_float : R -> string.
Variable float_of_string : string -> option R.
Variable int_of_string : string -> option Z.

(** [body1.ident + " and " + body2.ident + "; " + str(d)] *)
Definition closeness_text (body1 body2 : Body.t) (d : R) : result string :=
  and_then (as_str (Body.ident body1)) (fun s1 =>
  and_then (as_str (Body.ident body2)) (fun s2 =>
  Ok (s1 ++ " and " ++ s2 ++ "; " ++ str_float d)%string)).

(** The distance of the i-th samples from the end of two trajectories. *)
Definition sample_distance (body1 body2 : Body.t) (i : nat) : result R :=
  and_then (getitem_neg (Body.coord body1) i) (fun c1 =>
  and_then (getitem_neg (Body.coord body2) i) (fun c2 =>
  let '(x1, y1, z1) := c1 in
  let '(x2, y2, z2) := c2 in
  Ok (sqrt ((x1 - x2) ^ 2 + (y1 - y2) ^ 2 + (z1 - z2) ^ 2)))).

(** [close_calc]; the result is the value of the global [bool]. *)
Definition close_calc (body1 body2 : Body.t) : M World bool :=
  if (2 <? List.length (Body.coord body1))%nat then
    distances <- fold_M [0; 1; 2; 3]%nat (fun distances i =>
        if (i =? 0)%nat then ret distances
        else d <- lift (sample_distance body1 body2 i) ;;
             ret (distances ++ [d])) [] ;;
    d0 <- lift (getitem distances 0) ;;
    d1 <- lift (getitem distances 1) ;;
    if Rltb d1 d0 then
      d1' <- lift (getitem distances 1) ;;
      d2 <- lift (getitem distances 2) ;;
      if Rltb d1' d2 then
        d1'' <- lift (getitem distances 1) ;;
        s <- lift (closeness_text body1 body2 d1'') ;;
        modify (fun w => set_planet_system w
                  (Asystem.set_closeness (planet_system w)
                     (Asystem.closeness (planet_system w) ++ [s]))) ;;
        ret true
      else ret false
    else ret false
  else ret false.

(** The line [write_to_file] builds for one body. *)
Definition body_data (body : Body.t) : string :=
  (str_id (Body.ident body) ++ ", "
   ++ str_float (Body.time body) ++ ", "
   ++ str_float (Body.x body) ++ ", "
   ++ str_float (Body.y body) ++ ", "
   ++ str_float (Body.z body) ++ ", "
   ++ str_float (Body.Vx body) ++ ", "
   ++ str_float (Body.Vy body) ++ ", "
   ++ str_float (Body.Vz body) ++ ", "
   ++ str_float (Body.mass body) ++ ", "
   ++ str_float (Body.radius body) ++ ", "
   ++ str_float (Body.color1 body) ++ ", "
   ++ str_float (Body.color2 body) ++ ", "
   ++ str_float (Body.color3 body) ++ ", "
   ++ str_int (Body.texture body) ++ nl)%string.

(** The text [data] that [write_to_file] writes for the system [self].
    The test [close_list != []] compares a string with a list and always
    holds, so the last two characters are always cut. *)
Definition write_to_file_data (self : Asystem.t) : string :=
  let data := join (map body_data (Asystem.system self)) in
  let data := (data ++ "Collisions: " ++ Asystem.collisions self ++ nl)%string in
  let close_list := join (map (fun i => (i ++ ", ")%string) (Asystem.closeness self)) in
  let close_list := drop_last2 close_list in
  (data ++ "Closeness: " ++ close_list ++ nl ++ nl)%string.

(** The content of the output file after the writes recorded in it. *)
Definition file_content (header : string) (f : list Asystem.t) : string :=
  (header ++ join (map write_to_file_data f))%string.

(** [float(fields[k])] and [int(fields[k])] *)
Definition float_field (fields : list string) (k : nat) : result R :=
  and_then (getitem fields k) (fun s =>
    match float_of_string s with
    | Some r => Ok r
    | None => Raise ValueError
    end).

Definition int_field (fields : list string) (k : nat) : result Z :=
  and_then (getitem fields k) (fun s =>
    match int_of_string s with
    | Some n => Ok n
    | None => Raise ValueError
    end).

(** One turn of the loop of [read_from_file]: nothing for a header line,
    a body for a record. *)
Definition read_line (line : string) : result (option Body.t) :=
  let fields := split ","%char line in
  and_then (getitem fields 0) (fun f0 =>
  if String.eqb f0 "ident" then Ok None
  else
    and_then (float_field fields 1) (fun time =>
    and_then (float_field fields 2) (fun x =>
    and_then (float_field fields 3) (fun y =>
    and_then (float_field fields 4) (fun z =>
    and_then (float_field fields 5) (fun Vx =>
    and_then (float_field fields 6) (fun Vy =>
    and_then (float_field fields 7) (fun Vz =>
    and_then (float_field fields 8) (fun mass =>
    and_then (float_field fields 9) (fun radius =>
    and_then (float_field fields 10) (fun color1 =>
    and_then (float_field fields 11) (fun color2 =>
    and_then (float_field fields 12) (fun color3 =>
    and_then (int_field fields 13) (fun texture =>
    Ok (Some (Body.init (IdStr f0) time x y z Vx Vy Vz mass radius
                color1 color2 color3 texture)))))))))))))))).

Fixpoint read_lines (lines : list string) (bodies : list Body.t)
  : result (list Body.t) :=
  match lines with
  | [] => Ok bodies
  | line :: lines' =>
      and_then (read_line line) (fun r =>
        match r with
        | None => read_lines lines' bodies
        | Some body => read_lines lines' (bodies ++ [body])
        end)
  end.

(** [read_from_file] on a file with the given content. *)
Definition read_from_file (content : string) : result (list Body.t) :=
  read_lines (open_lines content) [].

End Text.

(* ------------------------------------------------------------------ *)
(** ** Construction and the event loop *)

(** [Asystem.__init__] once [self.system] is known. *)
Definition Asystem_init (cfg : Config) (sys : list Body.t) : Asystem.t :=
  Asystem.mk (NORM_DELTA_T cfg) EmptyString sys 0 [].

(** [Definition.__init__] *)
Definition Definition_init (cfg : Config) : Definition_.t :=
  Definition_.mk true (NORM_DELTA_T cfg).

(** The globals after [main] has built the system and [init]. *)
Definition boot (cfg : Config) (sys : list Body.t) : World :=
  mkWorld (Asystem_init cfg sys) (Definition_init cfg) [] [].

(** A body as its constructor leaves it. *)
Definition fresh (b : Body.t) : Prop :=
  Body.coord b = [] /\ force_of b = (0, 0, 0).

(** What GLUT can call once the main loop runs: the idle callback
    [animate], the display callback [display], a key. *)
Inductive event : Type :=
| Animate
| Display
| Key (theKey : ascii).

Definition exec (cfg : Config) (e : event) (w : World) : World :=
  match e with
  | Animate => fst (animate cfg w)
  | Display => fst (display cfg w)
  | Key k => set_init w (Definition_.keyboard k (init w))
  end.

Definition run (cfg : Config) (es : list event) (w : World) : World :=
  fold_left (fun w e => exec cfg e w) es w.

(** The states the program can be in. *)
Definition reachable (cfg : Config) (w : World) : Prop :=
  exists sys es, Forall fresh sys /\ w = run cfg es (boot cfg sys).

(* ------------------------------------------------------------------ *)
(** ** A body through the two phases of a step *)

Lemma compute2_body_ok dt sec b :
  sec <> 0 ->
  compute2_body dt sec b =
  (Body.set_time (moved dt b) (Body.time b + dt / sec), Ok tt).
Proof.
  intros H. unfold compute2_body. rewrite run_bind, cal_position_eq.
  rewrite run_bind. unfold lift. rewrite truediv_ok by exact H. reflexivity.
Qed.

Lemma compute2_body_zero dt sec b :
  sec = 0 ->
  compute2_body dt sec b = (moved dt b, Raise ZeroDivisionError).
Proof.
  intros H. unfold compute2_body. rewrite run_bind, cal_position_eq.
  rewrite run_bind. unfold lift. rewrite truediv_zero by exact H. reflexivity.
Qed.

(** Whatever [SEC_PER_DAY] is, [compute2] moves the body and appends the
    new position; it changes neither mass nor velocity nor force. *)
Lemma compute2_body_moved dt sec b :
  exists tm, fst (compute2_body dt sec b) = Body.set_time (moved dt b) tm.
Proof.
  destruct (Req_dec_T sec 0) as [H|H].
  - rewrite compute2_body_zero by exact H. exists (Body.time b). now destruct b.
  - rewrite compute2_body_ok by exact H. eexists. reflexivity.
Qed.

Section Stages.

Variable cfg : Config.

Lemma stage1_at w i b :
  nth_error (bodies w) i = Some b ->
  nth_error (bodies (stage1 cfg w)) i =
  Some (fst (compute1_body (GRAV_CONS cfg) (Asystem.DELTA_T (planet_system w))
               i (bodies w) b)).
Proof.
  intros H. rewrite bodies_stage1. unfold phase1_bodies.
  rewrite nth_error_imap, H. reflexivity.
Qed.

Lemma stage2_at w i b :
  nth_error (bodies w) i = Some b ->
  nth_error (bodies (stage2 cfg w)) i =
  Some (fst (compute2_body (Asystem.DELTA_T (planet_system w)) (SEC_PER_DAY cfg)
          (fst (compute1_body (GRAV_CONS cfg) (Asystem.DELTA_T (planet_system w))
                  i (bodies w) b)))).
Proof.
  intros H. rewrite bodies_stage2. unfold phase2_bodies.
  rewrite nth_error_map, (stage1_at w i b H). reflexivity.
Qed.

Lemma nonempty_at w i (b : Body.t) : nth_error (bodies w) i = Some b -> bodies w <> [].
Proof. intros H E. rewrite E in H. now destruct i. Qed.

End Stages.

(* ------------------------------------------------------------------ *)
(** ** The pairs of the collision scan *)

Lemma in_row a b i js :
  In (a, b) (row i js) <-> a = i /\ In b js /\ (b < i)%nat.
Proof.
  unfold row. rewrite in_flat_map. split.
  - intros (j & Hj & Hin). destruct (Nat.ltb_spec j i); [|contradiction].
    destruct Hin as [E|[]]. injection E as <- <-. auto.
  - intros (-> & Hin & Hlt). exists b. split; auto.
    apply Nat.ltb_lt in Hlt. rewrite Hlt. now left.
Qed.

Lemma NoDup_row i js : NoDup js -> NoDup (row i js).
Proof.
  induction 1 as [|j js Hnin Hnd IH]; [constructor|].
  rewrite row_cons. unfold row at 1. cbn [flat_map]. rewrite app_nil_r.
  destruct (j <? i)%nat; cbn [app]; auto.
  constructor; auto. intros Hin. apply in_row in Hin. tauto.
Qed.

Lemma in_pairs_of a b is_ js :
  In (a, b) (pairs_of is_ js) <-> In a is_ /\ In b js /\ (b < a)%nat.
Proof.
  unfold pairs_of. rewrite in_flat_map. split.
  - intros (i & Hi & Hin). apply in_row in Hin. destruct Hin as (-> & ? & ?). auto.
  - intros (Ha & Hb & Hlt). exists a. split; auto. apply in_row. auto.
Qed.

Lemma NoDup_pairs_of is_ js : NoDup is_ -> NoDup js -> NoDup (pairs_of is_ js).
Proof.
  intros His Hjs. induction His as [|i is_ Hnin Hnd IH]; [constructor|].
  unfold pairs_of. cbn [flat_map]. fold (pairs_of is_ js).
  apply NoDup_app; [now apply NoDup_row|exact IH|].
  intros [a b] Hr Hp. apply in_row in Hr. apply in_pairs_of in Hp.
  destruct Hr as (-> & _). tauto.
Qed.

Lemma in_pairs i j n : In (i, j) (pairs n) <-> (j < i < n)%nat.
Proof.
  unfold pairs, range. rewrite in_pairs_of, !in_seq. lia.
Qed.

Lemma NoDup_pairs n : NoDup (pairs n).
Proof. apply NoDup_pairs_of; apply seq_NoDup. Qed.

Lemma collided_iff sys i j :
  collided sys (i, j) = true <->
  exists bi bj, nth_error sys i = Some bi /\ nth_error sys j = Some bj
                /\ distance bi bj <= Body.radius bi + Body.radius bj.
Proof.
  unfold collided, at_pair. cbn [fst snd]. split.
  - destruct (nth_error sys i) as [bi|]; [|discriminate].
    destruct (nth_error sys j) as [bj|]; [|discriminate].
    intros H. apply Rleb_true in H. eauto.
  - intros (bi & bj & -> & -> & H). now apply Rleb_true.
Qed.

Lemma near_iff sys i j :
  near sys (i, j) = true <->
  exists bi bj, nth_error sys i = Some bi /\ nth_error sys j = Some bj
                /\ distance bi bj <= 30 * (Body.radius bi + Body.radius bj).
Proof.
  unfold near, at_pair. cbn [fst snd]. split.
  - destruct (nth_error sys i) as [bi|]; [|discriminate].
    destruct (nth_error sys j) as [bj|]; [|discriminate].
    intros H. apply Rleb_true in H. eauto.
  - intros (bi & bj & -> & -> & H). now apply Rleb_true.
Qed.

Lemma in_collision_events sys i j :
  In (i, j) (collision_events sys) <->
  (j < i)%nat /\
  exists bi bj, nth_error sys i = Some bi /\ nth_error sys j = Some bj
                /\ distance bi bj <= Body.radius bi + Body.radius bj.
Proof.
  unfold collision_events. rewrite filter_In, in_pairs, collided_iff. split.
  - intros [[H1 H2] H]. auto.
  - intros [H1 (bi & bj & Hi & Hj & H)]. split; eauto 6.
    split; auto. apply nth_error_Some. congruence.
Qed.

Lemma any_near_iff sys :
  any_near sys = true <->
  exists i j bi bj, (j < i)%nat
    /\ nth_error sys i = Some bi /\ nth_error sys j = Some bj
    /\ distance bi bj <= 30 * (Body.radius bi + Body.radius bj).
Proof.
  unfold any_near. rewrite existsb_exists. split.
  - intros ([i j] & Hin & H). apply in_pairs in Hin. apply near_iff in H.
    destruct H as (bi & bj & ?). exists i, j, bi, bj. tauto.
  - intros (i & j & bi & bj & Hlt & Hi & Hj & H). exists (i, j). split.
    + apply in_pairs. split; auto. apply nth_error_Some. congruence.
    + apply near_iff. eauto.
Qed.

(* ------------------------------------------------------------------ *)
(** ** A worker that meets a body at its own place *)

(** [b] is [a] up to the force accumulator. *)
Definition only_F (a b : Body.t) : Prop :=
  b = Body.set_F a (Body.Fx b) (Body.Fy b) (Body.Fz b).

Lemma only_F_refl a : only_F a a.
Proof. now destruct a. Qed.

Lemma only_F_trans a b c : only_F a b -> only_F b c -> only_F a c.
Proof. unfold only_F. intros -> ->. reflexivity. Qed.

Lemma only_F_same_place a b o : only_F a b -> same_place a o -> same_place b o.
Proof. unfold only_F, same_place. intros ->. cbn. auto. Qed.

Lemma cal_netforce_only_F G other self :
  only_F self (fst (Body.cal_netforce G other self)).
Proof.
  destruct (same_place_dec self other) as [H|H].
  - rewrite cal_netforce_same by exact H. apply only_F_refl.
  - rewrite cal_netforce_far by exact H. now destruct self.
Qed.

Lemma forces_only_F G i sys js : forall b,
  only_F b (fst (forces G i sys js b)).
Proof.
  induction js as [|j js IH]; intros b.
  - apply only_F_refl.
  - unfold forces. cbn [for_each]. fold (forces G i sys js). rewrite run_bind.
    destruct (i =? j)%nat.
    + unfold ret. apply IH.
    + rewrite run_bind. unfold lift. destruct (getitem sys j) as [o|e].
      * pose proof (cal_netforce_only_F G o b) as H.
        destruct (Body.cal_netforce G o b) as [b' [[]|e]]; cbn [fst] in *; auto.
        eapply only_F_trans; [exact H|apply IH].
      * apply only_F_refl.
Qed.

(** Within the range of the list, the loop of [compute1] ends normally or
    with a division by zero. *)
Lemma forces_result G i sys js : forall b,
  Forall (fun j => (j < List.length sys)%nat) js ->
  snd (forces G i sys js b) = Ok tt
  \/ snd (forces G i sys js b) = Raise ZeroDivisionError.
Proof.
  induction js as [|j js IH]; intros b Hjs.
  - now left.
  - inversion Hjs as [|? ? Hj Hjs']; subst.
    unfold forces. cbn [for_each]. fold (forces G i sys js). rewrite run_bind.
    destruct (i =? j)%nat.
    + unfold ret. now apply IH.
    + rewrite run_bind. unfold lift, getitem.
      destruct (nth_error sys j) as [o|] eqn:E; [|apply nth_error_None in E; lia].
      destruct (same_place_dec b o) as [H|H].
      * rewrite cal_netforce_same by exact H. now right.
      * rewrite cal_netforce_far by exact H. now apply IH.
Qed.

(** It ends with a division by zero when a body at the own place is
    among the others. *)
Lemma forces_coincident G i sys j o js : forall b,
  Forall (fun j => (j < List.length sys)%nat) js ->
  In j js -> j <> i -> nth_error sys j = Some o -> same_place b o ->
  snd (forces G i sys js b) = Raise ZeroDivisionError.
Proof.
  induction js as [|k js IH]; intros b Hjs Hin Hji Ho Hsame.
  - contradiction.
  - inversion Hjs as [|? ? Hk Hjs']; subst.
    unfold forces. cbn [for_each]. fold (forces G i sys js). rewrite run_bind.
    destruct (Nat.eqb_spec i k) as [->|Hik].
    + unfold ret. destruct Hin as [->|Hin]; [congruence|]. now apply IH.
    + rewrite run_bind. unfold lift, getitem.
      destruct (nth_error sys k) as [ok|] eqn:E; [|apply nth_error_None in E; lia].
      destruct (same_place_dec b ok) as [H|H].
      * rewrite cal_netforce_same by exact H. reflexivity.
      * destruct Hin as [->|Hin]; [congruence|].
        rewrite cal_netforce_far by exact H. apply IH; auto.
Qed.

(** The worker of a body that shares its place with another body: it
    ends with [ZeroDivisionError] before [cal_velocity], so that only the
    force accumulator has changed. *)
Lemma compute1_body_coincident G dt i sys j b o :
  j <> i -> nth_error sys j = Some o -> same_place b o ->
  snd (compute1_body G dt i sys b) = Raise ZeroDivisionError
  /\ only_F b (fst (compute1_body G dt i sys b)).
Proof.
  intros Hji Ho Hsame.
  assert (Hj : (j < List.length sys)%nat) by (apply nth_error_Some; congruence).
  unfold compute1_body. rewrite run_bind. unfold Body.zeroF, modify.
  rewrite run_bind.
  assert (Hr : snd (forces G i sys (range (List.length sys)) (Body.set_F b 0 0 0))
               = Raise ZeroDivisionError).
  { apply (forces_coincident G i sys j o); auto using range_in_range.
    apply in_seq. lia. }
  pose proof (forces_only_F G i sys (range (List.length sys)) (Body.set_F b 0 0 0)) as Hf.
  destruct (forces G i sys (range (List.length sys)) (Body.set_F b 0 0 0)) as [b1 r].
  cbn [fst snd] in *. subst r.
  split; [reflexivity|]. eapply only_F_trans; [|exact Hf]. now destruct b.
Qed.

Lemma forces_app G i sys js js' b :
  forces G i sys (js ++ js') b =
  match forces G i sys js b with
  | (b', Ok _) => forces G i sys js' b'
  | (b', Raise e) => (b', Raise e)
  end.
Proof. apply for_each_app. Qed.

Lemma term_firstn p sys i b j k :
  (k < j)%nat -> term p (firstn j sys) i b k = term p sys i b k.
Proof.
  intros H. unfold term. now rewrite nth_error_firstn, (proj2 (Nat.ltb_lt k j) H).
Qed.

(** The bodies before index [j] are away from [self]. *)
Definition first_at (sys : list Body.t) (i : nat) (self : Body.t) (j : nat) : Prop :=
  forall k other, (k < j)%nat -> k <> i -> nth_error sys k = Some other ->
                  ~ same_place self other.

(** When the first body at the own place has index [j], the accumulator
    is left with the pulls of the others before [j]. *)
Lemma compute1_body_until G dt i sys b j o :
  first_at sys i b j ->
  j <> i -> nth_error sys j = Some o -> same_place b o ->
  force_of (fst (compute1_body G dt i sys b))
  = vsum (map (newton G b) (others i (firstn j sys))).
Proof.
  intros Hfirst Hji Ho Hsame.
  assert (Hj : (j < List.length sys)%nat) by (apply nth_error_Some; congruence).
  unfold compute1_body. rewrite run_bind. unfold Body.zeroF, modify.
  rewrite run_bind.
  assert (Hr : range (List.length sys)
               = range j ++ j :: seq (S j) (List.length sys - S j)).
  { unfold range. replace (List.length sys) with (j + S (List.length sys - S j))%nat at 1 by lia.
    rewrite seq_app. reflexivity. }
  rewrite Hr, forces_app.
  rewrite forces_far_on.
  2:{ apply Forall_forall. intros k Hk. apply in_seq in Hk. split; [lia|].
      intros other Hki Hother. apply (Hfirst k other); auto. lia. }
  unfold forces at 1. cbn [for_each]. rewrite run_bind.
  destruct (Nat.eqb_spec i j) as [E|_]; [congruence|].
  rewrite run_bind. unfold lift, getitem. rewrite Ho.
  rewrite cal_netforce_same by exact Hsame.
  unfold force_of. cbn [fst Body.set_F Body.Fx Body.Fy Body.Fz].
  rewrite !Rplus_0_l.
  assert (Hlen : List.length (firstn j sys) = j) by (rewrite length_firstn; lia).
  assert (Hsum : forall p, Rsum (range j) (term p sys i b)
                           = Rsum (others i (firstn j sys)) (p b)).
  { intros p. rewrite <- others_sum, Hlen. apply Rsum_ext.
    intros k Hk. apply in_seq in Hk. symmetry. apply term_firstn. lia. }
  rewrite !Hsum.
  rewrite (map_ext_in (newton G b)
             (fun o => (pull_x G b o, pull_y G b o, pull_z G b o))).
  - now rewrite vsum_components.
  - intros o' Ho'. apply in_others in Ho'. destruct Ho' as (k & Hk & Hn).
    apply newton_pull.
    assert (Hkj : (k < j)%nat).
    { assert (k < List.length (firstn j sys))%nat by (apply nth_error_Some; congruence).
      lia. }
    rewrite nth_error_firstn, (proj2 (Nat.ltb_lt k j) Hkj) in Hn.
    exact (Hfirst k o' Hkj Hk Hn).
Qed.

Lemma in_concat_imap {A B} (g : nat -> A -> list B) e : forall l k i a,
  nth_error l i = Some a -> In e (g (k + i)%nat a) ->
  In e (List.concat (imap g k l)).
Proof.
  induction l as [|c l IH]; intros k [|i] a Hn Hin; simpl in *; try discriminate.
  - injection Hn as ->. rewrite Nat.add_0_r in Hin. apply in_or_app. now left.
  - apply in_or_app. right. apply (IH (S k) i a Hn).
    now rewrite Nat.add_succ_r in Hin.
Qed.

Section StepReports.

Variable cfg : Config.

Lemma excepthook_next_step b w : excepthook (next_step cfg b w) = excepthook w.
Proof.
  unfold next_step. destruct (negb _); [reflexivity|]. destruct b; reflexivity.
Qed.

Lemma excepthook_stage0 w : excepthook (stage0 cfg w) = excepthook w.
Proof. unfold stage0. now destruct (_ =? _)%Z. Qed.

Lemma excepthook_stage4 w :
  excepthook (stage4 cfg w) =
  (excepthook w
   ++ phase1_reports (GRAV_CONS cfg) (Asystem.DELTA_T (planet_system w)) (bodies w))
  ++ phase2_reports (Asystem.DELTA_T (planet_system w)) (SEC_PER_DAY cfg)
       (bodies (stage1 cfg w)).
Proof.
  unfold stage4. cbn [excepthook set_planet_system].
  unfold stage3. rewrite excepthook_next_step. cbn [scanned excepthook set_planet_system].
  unfold stage2. rewrite phase2_run. cbn [fst excepthook set_excepthook].
  rewrite dt_stage1. f_equal.
  unfold stage1. rewrite phase1_run. cbn [fst excepthook set_excepthook].
  now rewrite excepthook_stage0, dt_stage0, bodies_stage0.
Qed.

End StepReports.

(* ------------------------------------------------------------------ *)
(** ** Momentum *)

(** The total momentum: the component-wise sum of [mass * V]. *)
Definition momentum (sys : list Body.t) : vec :=
  (Rsum sys (fun b => Body.mass b * Body.Vx b),
   Rsum sys (fun b => Body.mass b * Body.Vy b),
   Rsum sys (fun b => Body.mass b * Body.Vz b)).

(** No two bodies of the system are at the same place. *)
Definition pairwise_apart (sys : list Body.t) : Prop :=
  forall i j bi bj, i <> j ->
    nth_error sys i = Some bi -> nth_error sys j = Some bj -> ~ same_place bi bj.

(** Every mass is positive. *)
Definition massive (sys : list Body.t) : Prop :=
  Forall (fun b => 0 < Body.mass b) sys.

Lemma pairwise_apart_alone sys i b :
  pairwise_apart sys -> nth_error sys i = Some b -> alone sys i b.
Proof. intros H Hb j other Hj Ho. exact (H i j b other (not_eq_sym Hj) Hb Ho). Qed.

Lemma gd_sym G a b : gd G a b = gd G b a.
Proof. unfold gd. rewrite (dist_sym a b). f_equal. f_equal. ring. Qed.

Lemma pull_x_antisym G a b : pull_x G a b = - pull_x G b a.
Proof. unfold pull_x. rewrite (gd_sym G a b). ring. Qed.

Lemma pull_y_antisym G a b : pull_y G a b = - pull_y G b a.
Proof. unfold pull_y. rewrite (gd_sym G a b). ring. Qed.

Lemma pull_z_antisym G a b : pull_z G a b = - pull_z G b a.
Proof. unfold pull_z. rewrite (gd_sym G a b). ring. Qed.

(** A sum over the elements of a list as a sum over its indices. *)
Lemma Rsum_imap_index {A B} (f : nat -> A -> B) (h : B -> R) : forall l pre,
  Rsum (imap f (List.length pre) l) h =
  Rsum (seq (List.length pre) (List.length l))
       (fun i => match nth_error (pre ++ l) i with
                 | Some a => h (f i a)
                 | None => 0
                 end).
Proof.
  induction l as [|a l IH]; intros pre; auto.
  cbn [imap List.length seq Rsum]. rewrite nth_error_middle. f_equal.
  specialize (IH (pre ++ [a])).
  replace (List.length (pre ++ [a])) with (S (List.length pre)) in IH
    by (rewrite length_app; simpl; lia).
  rewrite <- app_assoc in IH. exact IH.
Qed.

Lemma imap_id {A} (l : list A) k : imap (fun _ a => a) k l = l.
Proof. rewrite imap_map. apply map_id. Qed.

Lemma Rsum_index {A} (h : A -> R) (l : list A) :
  Rsum l h =
  Rsum (range (List.length l))
       (fun i => match nth_error l i with Some a => h a | None => 0 end).
Proof.
  rewrite <- (imap_id l 0) at 1. exact (Rsum_imap_index (fun _ a => a) h l []).
Qed.

(** The net forces of a system add up to zero, for each component whose
    pull is antisymmetric. *)
Lemma net_total_zero (p : Body.t -> Body.t -> R) sys :
  (forall a b, p a b = - p b a) ->
  Rsum (range (List.length sys))
       (fun i => match nth_error sys i with
                 | Some b => Rsum (range (List.length sys)) (term p sys i b)
                 | None => 0
                 end) = 0.
Proof.
  intros Hp.
  pose (T := fun i j : nat =>
               match nth_error sys i with
               | Some b => term p sys i b j
               | None => 0
               end).
  rewrite (Rsum_ext _ _ (fun i => Rsum (range (List.length sys)) (fun j => T i j))).
  - apply Rsum_antisym. intros i j. unfold T, term.
    rewrite (Nat.eqb_sym j i).
    destruct (i =? j)%nat;
      destruct (nth_error sys i) as [bi|], (nth_error sys j) as [bj|];
      try lra. apply Hp.
  - intros i _. unfold T. destruct (nth_error sys i); auto.
    now rewrite Rsum_zero.
Qed.

(** The first phase keeps a component of the momentum when that
    component of every velocity is advanced by the net force. *)
Lemma phase1_keeps (p : Body.t -> Body.t -> R) (v : Body.t -> R) G dt sys :
  (forall a b, p a b = - p b a) ->
  (forall i b, nth_error sys i = Some b ->
     Body.mass (fst (compute1_body G dt i sys b))
     * v (fst (compute1_body G dt i sys b))
     = Body.mass b * v b + dt * Rsum (range (List.length sys)) (term p sys i b)) ->
  Rsum (phase1_bodies G dt sys) (fun b => Body.mass b * v b)
  = Rsum sys (fun b => Body.mass b * v b).
Proof.
  intros Hp Hv. unfold phase1_bodies.
  rewrite (Rsum_imap_index _ _ sys []). cbn [List.length app].
  rewrite (Rsum_index _ sys).
  rewrite (Rsum_ext _ _
    (fun i => match nth_error sys i with
              | Some b => Body.mass b * v b
              | None => 0
              end
              + dt * match nth_error sys i with
                     | Some b => Rsum (range (List.length sys)) (term p sys i b)
                     | None => 0
                     end)).
  - rewrite Rsum_plus, Rsum_scal.
    change (seq 0 (List.length sys)) with (range (List.length sys)).
    rewrite (net_total_zero p sys Hp). lra.
  - intros i _. destruct (nth_error sys i) as [b|] eqn:E; [|lra].
    apply Hv. exact E.
Qed.

Lemma phase1_momentum G dt sys :
  pairwise_apart sys -> massive sys ->
  momentum (phase1_bodies G dt sys) = momentum sys.
Proof.
  intros Ha Hm.
  assert (Hfar : forall i b, nth_error sys i = Some b ->
            compute1_body G dt i sys b =
            (accelerated dt (Body.set_F b (net_x G sys i b) (net_y G sys i b)
                               (net_z G sys i b)), Ok tt) /\ Body.mass b <> 0).
  { intros i b Hb.
    assert (0 < Body.mass b)
      by (eapply (proj1 (Forall_forall _ _) Hm), nth_error_In, Hb).
    split; [|lra]. apply compute1_body_far; [|lra].
    now apply pairwise_apart_alone. }
  unfold momentum. f_equal; [f_equal|].
  - apply (phase1_keeps (pull_x G)); [apply pull_x_antisym|].
    intros i b Hb. destruct (Hfar i b Hb) as [-> Hm0]. cbn. unfold net_x. field. exact Hm0.
  - apply (phase1_keeps (pull_y G)); [apply pull_y_antisym|].
    intros i b Hb. destruct (Hfar i b Hb) as [-> Hm0]. cbn. unfold net_y. field. exact Hm0.
  - apply (phase1_keeps (pull_z G)); [apply pull_z_antisym|].
    intros i b Hb. destruct (Hfar i b Hb) as [-> Hm0]. cbn. unfold net_z. field. exact Hm0.
Qed.

Lemma phase2_momentum dt sec sys :
  momentum (phase2_bodies dt sec sys) = momentum sys.
Proof.
  unfold momentum, phase2_bodies. rewrite !Rsum_map.
  f_equal; [f_equal|]; apply Rsum_ext; intros b _;
    destruct (compute2_body_moved dt sec b) as [tm ->]; reflexivity.
Qed.

Lemma map_imap_inv {A B} (f : nat -> A -> A) (g : A -> B) l : forall k,
  (forall i a, g (f i a) = g a) -> map g (imap f k l) = map g l.
Proof. induction l; intros k H; simpl; auto. now rewrite H, IHl. Qed.

Section StepBodies.

Variable cfg : Config.

Lemma bodies_animate w :
  bodies (fst (animate cfg w))
  = if (SAVE_RATE cfg =? 0)%Z then bodies w else bodies (stage2 cfg w).
Proof.
  destruct (Z.eqb_spec (SAVE_RATE cfg) 0) as [E|E].
  - now rewrite animate_save_rate_zero.
  - destruct (bodies w) eqn:Eb.
    + now rewrite animate_empty.
    + rewrite animate_run; [|exact E|congruence]. cbn [fst]. apply bodies_stage4.
Qed.

Lemma bodies_display w : bodies (fst (display cfg w)) = bodies w.
Proof.
  destruct (bodies w) eqn:Eb.
  - now rewrite display_empty.
  - rewrite display_run by congruence. cbn [fst].
    now rewrite bodies_next_step.
Qed.

Lemma mass_stage2 w : map Body.mass (bodies (stage2 cfg w)) = map Body.mass (bodies w).
Proof.
  rewrite bodies_stage2, bodies_stage1. unfold phase2_bodies, phase1_bodies.
  rewrite map_map.
  rewrite (map_ext _ Body.mass).
  - apply map_imap_inv. intros i b.
    pose proof (compute1_body_only_FV (GRAV_CONS cfg)
                  (Asystem.DELTA_T (planet_system w)) i (bodies w) b) as H.
    unfold only_FV in H. rewrite H. reflexivity.
  - intros b. destruct (compute2_body_moved (Asystem.DELTA_T (planet_system w))
                          (SEC_PER_DAY cfg) b) as [tm ->]. reflexivity.
Qed.

Lemma mass_exec e w : map Body.mass (bodies (exec cfg e w)) = map Body.mass (bodies w).
Proof.
  destruct e; cbn [exec].
  - rewrite bodies_animate. destruct (_ =? _)%Z; [reflexivity|apply mass_stage2].
  - now rewrite bodies_display.
  - reflexivity.
Qed.

Lemma massive_map sys : massive sys <-> Forall (fun m => 0 < m) (map Body.mass sys).
Proof. unfold massive. now rewrite Forall_map. Qed.

Lemma massive_exec e w : massive (bodies w) -> massive (bodies (exec cfg e w)).
Proof. rewrite !massive_map, mass_exec. auto. Qed.

(** A step from a state with pairwise distinct places and positive
    masses keeps the total momentum. *)
Lemma animate_momentum w :
  pairwise_apart (bodies w) -> massive (bodies w) ->
  momentum (bodies (fst (animate cfg w))) = momentum (bodies w).
Proof.
  intros Ha Hm. rewrite bodies_animate.
  destruct (_ =? _)%Z; [reflexivity|].
  rewrite bodies_stage2, phase2_momentum, bodies_stage1.
  now apply phase1_momentum.
Qed.

End StepBodies.

(* ------------------------------------------------------------------ *)
(** ** Bodies on a line, and example systems *)

Lemma dist_on_line a b :
  Body.y a = Body.y b -> Body.z a = Body.z b ->
  dist a b = Rabs (Body.x b - Body.x a).
Proof.
  intros Hy Hz. unfold dist, Body.sqdist. rewrite Hy, Hz.
  replace ((Body.x b - Body.x a) ^ 2 + (Body.y b - Body.y b) ^ 2
           + (Body.z b - Body.z b) ^ 2)
    with ((Body.x b - Body.x a)²) by (unfold Rsqr; ring).
  apply sqrt_Rsqr_abs.
Qed.

Lemma pull_x_right G a b :
  Body.y a = Body.y b -> Body.z a = Body.z b -> Body.x a < Body.x b ->
  pull_x G a b = G * Body.mass a * Body.mass b / (Body.x b - Body.x a) ^ 2.
Proof.
  intros Hy Hz Hx. unfold pull_x, gd. rewrite (dist_on_line a b Hy Hz).
  rewrite Rabs_right by lra. field. lra.
Qed.

Lemma pull_x_left G a b :
  Body.y a = Body.y b -> Body.z a = Body.z b -> Body.x b < Body.x a ->
  pull_x G a b = - (G * Body.mass a * Body.mass b / (Body.x a - Body.x b) ^ 2).
Proof.
  intros Hy Hz Hx. unfold pull_x, gd. rewrite (dist_on_line a b Hy Hz).
  rewrite Rabs_left by lra. field. lra.
Qed.

Lemma pull_y_flat G a b : Body.y a = Body.y b -> pull_y G a b = 0.
Proof. intros H. unfold pull_y. rewrite H. ring. Qed.

Lemma pull_z_flat G a b : Body.z a = Body.z b -> pull_z G a b = 0.
Proof. intros H. unfold pull_z. rewrite H. ring. Qed.

(** A point body on the x axis, moving along it. *)
Definition on_x (name : string) (px vx m : R) : Body.t :=
  Body.init (IdStr name) 0 px 0 0 vx 0 0 m 0 0 0 0 0.

(** A configuration: [G = 1], a normal step of 1, a fine step of 1/2. *)
Definition cfg_ex : Config := mkConfig 1 1 (1 / 2) 86400 10.

(** Three bodies, the last two at the same place. *)
Definition ex_C : Body.t := on_x "C" 1 0 1.
Definition ex_A : Body.t := on_x "A" 0 0 1.
Definition ex_B : Body.t := on_x "B" 0 0 1.
Definition ex_degenerate : World := boot cfg_ex [ex_C; ex_A; ex_B].

(** Two bodies at rest, two units apart. *)
Definition ex_P : Body.t := on_x "P" 0 0 1.
Definition ex_Q : Body.t := on_x "Q" 2 0 1.
Definition ex_pair : World := boot cfg_ex [ex_P; ex_Q].

(** A body whose numbers are all 1. *)
Definition ex_unit : Body.t := Body.init (IdStr "Sun") 1 1 1 1 1 1 1 1 1 1 1 1 0.

Lemma save_rate_ex : SAVE_RATE cfg_ex <> 0%Z.
Proof. discriminate. Qed.

Lemma sec_per_day_ex : SEC_PER_DAY cfg_ex <> 0.
Proof. cbn. lra. Qed.

Lemma ex_P_Q_apart : ~ same_place ex_P ex_Q.
Proof. unfold same_place. cbn. lra. Qed.

Lemma ex_P_alone : alone (bodies ex_pair) 0 ex_P.
Proof.
  intros [|[|j]] other Hj Hn; cbn in Hn; try congruence.
  - injection Hn as <-. exact ex_P_Q_apart.
  - now destruct j.
Qed.

Section StepPolicy.

Variable cfg : Config.

Lemma init_stage2 w : init (stage2 cfg w) = init w.
Proof.
  unfold stage2. rewrite phase2_run. cbn [fst init set_excepthook set_bodies
    set_planet_system].
  unfold stage1. rewrite phase1_run. cbn [fst init set_excepthook set_bodies
    set_planet_system].
  unfold stage0. now destruct (_ =? _)%Z.
Qed.

(** The time step a completed step leaves behind. *)
Lemma dt_animate w :
  SAVE_RATE cfg <> 0%Z -> bodies w <> [] ->
  Asystem.DELTA_T (planet_system (fst (animate cfg w)))
  = if negb (Definition_.bool_T (init w)) then 0
    else if any_near (bodies (stage2 cfg w)) then FINE_DELTA_T cfg
    else Definition_.NORM_DELTA_T (init w).
Proof.
  intros Hs Hb. rewrite animate_run by assumption. cbn [fst].
  unfold stage4, stage3, next_step.
  change (init (scanned (stage2 cfg w))) with (init (stage2 cfg w)).
  rewrite init_stage2.
  destruct (negb _); [reflexivity|].
  destruct (any_near _); reflexivity.
Qed.

End StepPolicy.

(** Three bodies on a line, apart from each other, with velocities that
    bring the first two to the same place after one step. *)
Definition ex_U : Body.t := on_x "U" 0 (8 / 9) 1.
Definition ex_V : Body.t := on_x "V" 1 (7 / 4) 1.
Definition ex_W : Body.t := on_x "W" 3 (13 / 36) 1.
Definition ex_three : World := boot cfg_ex [ex_U; ex_V; ex_W].

(** The attributes of a body on the line that the force law and the
    momentum read. *)
Definition line_state (b : Body.t) (px vx : R) : Prop :=
  Body.x b = px /\ Body.y b = 0 /\ Body.z b = 0
  /\ Body.Vx b = vx /\ Body.mass b = 1.

Lemma ex_three_apart : pairwise_apart (bodies ex_three).
Proof.
  intros [|[|[|i]]] [|[|[|j]]] bi bj Hij Hi Hj; cbn in Hi, Hj;
    try congruence; try (now destruct i); try (now destruct j);
    injection Hi as <-; injection Hj as <-; unfold same_place; cbn; lra.
Qed.

Lemma ex_three_massive : massive (bodies ex_three).
Proof. repeat constructor; cbn; lra. Qed.

(** The three bodies after the first step. *)
Lemma ex_three_step1 :
  exists u v w,
    bodies (fst (animate cfg_ex ex_three)) = [u; v; w]
    /\ line_state u 2 2 /\ line_state v 2 1 /\ line_state w 3 0.
Proof.
  rewrite bodies_animate. cbn [SAVE_RATE cfg_ex Z.eqb].
  rewrite bodies_stage2, bodies_stage1.
  cbn [bodies ex_three boot planet_system Asystem_init Asystem.system
       Asystem.DELTA_T phase1_bodies phase2_bodies imap map].
  rewrite !compute1_body_far.
  all: try (cbn; lra).
  all: try (apply (pairwise_apart_alone (bodies ex_three)); [apply ex_three_apart|reflexivity]).
  cbn [fst]. rewrite !compute2_body_ok by (cbn; lra). cbn [fst].
  eexists. eexists. eexists. split; [reflexivity|].
  unfold line_state, net_x, net_y, net_z, term.
  cbn [List.length range seq Rsum Nat.eqb nth_error
       Body.set_time moved accelerated Body.set_coord Body.set_pos Body.set_V
       Body.set_F Body.x Body.y Body.z Body.Vx Body.Vy Body.Vz Body.Fx Body.Fy
       Body.Fz Body.mass].
  rewrite !pull_y_flat, !pull_z_flat by reflexivity.
  rewrite (pull_x_right _ ex_U ex_V), (pull_x_right _ ex_U ex_W),
          (pull_x_left _ ex_V ex_U), (pull_x_right _ ex_V ex_W),
          (pull_x_left _ ex_W ex_U), (pull_x_left _ ex_W ex_V)
    by (cbn; lra).
  cbn [ex_U ex_V ex_W on_x Body.init Body.x Body.y Body.z Body.Vx Body.Vy Body.Vz
       Body.mass GRAV_CONS NORM_DELTA_T cfg_ex].
  repeat split; field.
Qed.

(* ------------------------------------------------------------------ *)
(** ** The closeness list of a step, and [close_calc] in closed form *)

Section Closeness.

Variable cfg : Config.

Lemma closeness_next_step b w :
  Asystem.closeness (planet_system (next_step cfg b w))
  = Asystem.closeness (planet_system w).
Proof.
  unfold next_step. destruct (negb _); [reflexivity|]. destruct b; reflexivity.
Qed.

Lemma closeness_stage2 w : Asystem.closeness (planet_system (stage2 cfg w)) = [].
Proof.
  unfold stage2. rewrite phase2_run. cbn [fst].
  unfold stage1. rewrite phase1_run. cbn [fst].
  unfold stage0. now destruct (_ =? _)%Z.
Qed.

(** [animate] empties the closeness list and nothing in a step appends
    to it (the call of [close_calc] is commented out). *)
Lemma closeness_animate w :
  Asystem.closeness (planet_system (fst (animate cfg w))) = [].
Proof.
  destruct (Z.eqb_spec (SAVE_RATE cfg) 0) as [E|E].
  - now rewrite animate_save_rate_zero.
  - destruct (bodies w) eqn:Eb.
    + rewrite animate_empty by assumption. apply closeness_stage2.
    + rewrite animate_run; [|exact E|congruence]. cbn [fst].
      unfold stage4, stage3. cbn [planet_system set_planet_system
        Asystem.closeness Asystem.set_count].
      rewrite closeness_next_step. apply closeness_stage2.
Qed.

End Closeness.

Lemma getitem_neg_ok {A} (l : list A) i :
  (1 <= i <= List.length l)%nat -> exists a, getitem_neg l i = Ok a.
Proof.
  intros H. unfold getitem_neg, getitem.
  rewrite (proj2 (Nat.leb_le _ _)) by lia.
  destruct (nth_error l (List.length l - i)) eqn:E; eauto.
  apply nth_error_None in E. lia.
Qed.

Lemma getitem_neg_out {A} (l : list A) i :
  (List.length l < i)%nat -> getitem_neg l i = Raise IndexError.
Proof.
  intros H. unfold getitem_neg.
  now rewrite (proj2 (Nat.leb_gt _ _)) by lia.
Qed.

Section CloseCalc.

Variable str_float : R -> string.

Lemma sample_distance_ok b1 b2 i :
  (1 <= i <= List.length (Body.coord b1))%nat ->
  (1 <= i <= List.length (Body.coord b2))%nat ->
  exists d, sample_distance b1 b2 i = Ok d.
Proof.
  intros H1 H2. unfold sample_distance.
  destruct (getitem_neg_ok (Body.coord b1) i H1) as [[[x1 y1] z1] ->].
  destruct (getitem_neg_ok (Body.coord b2) i H2) as [[[x2 y2] z2] ->].
  cbn. eauto.
Qed.

Definition add_closeness (w : World) (s : string) : World :=
  set_planet_system w
    (Asystem.set_closeness (planet_system w)
       (Asystem.closeness (planet_system w) ++ [s])).

(** [close_calc] on two trajectories whose last three distances exist. *)
Lemma close_calc_run b1 b2 w d0 d1 d2 :
  (2 < List.length (Body.coord b1))%nat ->
  sample_distance b1 b2 1 = Ok d0 ->
  sample_distance b1 b2 2 = Ok d1 ->
  sample_distance b1 b2 3 = Ok d2 ->
  close_calc str_float b1 b2 w =
  if Rltb d1 d0 && Rltb d1 d2 then
    match closeness_text str_float b1 b2 d1 with
    | Ok s => (add_closeness w s, Ok true)
    | Raise e => (w, Raise e)
    end
  else (w, Ok false).
Proof.
  intros Hlen H0 H1 H2. unfold close_calc.
  rewrite (proj2 (Nat.ltb_lt _ _) Hlen).
  cbn [fold_M Nat.eqb]. unfold bind, lift, ret, modify. cbn beta.
  rewrite H0. cbn beta iota. rewrite H1. cbn beta iota. rewrite H2.
  cbn [app getitem nth_error]. cbn beta iota.
  destruct (Rltb d1 d0); cbn [andb]; [|reflexivity].
  destruct (Rltb d1 d2); [|reflexivity].
  destruct (closeness_text str_float b1 b2 d1) as [s|e]; reflexivity.
Qed.

Lemma close_calc_short b1 b2 w :
  (List.length (Body.coord b1) <= 2)%nat ->
  close_calc str_float b1 b2 w = (w, Ok false).
Proof.
  intros H. unfold close_calc. now rewrite (proj2 (Nat.ltb_ge _ _) H).
Qed.

End CloseCalc.

(* ------------------------------------------------------------------ *)
(** ** Two point bodies of mass 1 on a line *)

(** The positions on the line as trajectory samples. *)
Definition samples (xs : list R) : list (R * R * R) := map (fun px => (px, 0, 0)) xs.

(** A point body of mass 1 at [px] on the x axis, moving along it with
    velocity [vx], whose trajectory so far is [xs]. *)
Definition line_body (b : Body.t) (px vx : R) (xs : list R) : Prop :=
  Body.x b = px /\ Body.y b = 0 /\ Body.z b = 0
  /\ Body.Vx b = vx /\ Body.Vy b = 0 /\ Body.Vz b = 0
  /\ Body.mass b = 1 /\ Body.radius b = 0
  /\ Body.coord b = samples xs.

(** The world holds the two bodies and runs, unpaused, with step [dt]. *)
Definition line_world (w : World) (a b : Body.t) (dt : R) : Prop :=
  bodies w = [a; b]
  /\ Asystem.DELTA_T (planet_system w) = dt
  /\ Definition_.bool_T (init w) = true
  /\ Definition_.NORM_DELTA_T (init w) = dt.

Lemma distance_dist bi bj : distance bi bj = dist bj bi.
Proof. reflexivity. Qed.

(** Projections of bodies built by the setters. *)
Ltac body_fields :=
  cbn [Body.set_time moved accelerated Body.set_coord Body.set_pos Body.set_V
       Body.set_F Body.ident Body.time Body.x Body.y Body.z Body.Vx Body.Vy
       Body.Vz Body.mass Body.radius Body.color1 Body.color2 Body.color3
       Body.texture Body.coord Body.Fx Body.Fy Body.Fz Body.collisions].

Lemma line_pair_step cfg w a b dt xa va ca xb vb cb xa' va' xb' vb' :
  SAVE_RATE cfg <> 0%Z -> SEC_PER_DAY cfg <> 0 ->
  line_world w a b dt ->
  line_body a xa va ca -> line_body b xb vb cb ->
  xa < xb ->
  va' = va + GRAV_CONS cfg / (xb - xa) ^ 2 * dt ->
  vb' = vb - GRAV_CONS cfg / (xb - xa) ^ 2 * dt ->
  xa' = xa + va' * dt ->
  xb' = xb + vb' * dt ->
  xa' <> xb' ->
  exists a' b',
    line_world (fst (animate cfg w)) a' b' dt
    /\ line_body a' xa' va' (ca ++ [xa'])
    /\ line_body b' xb' vb' (cb ++ [xb']).
Proof.
  intros Hs Hsec (Hb & Hdt & Hrun & Hnorm)
         (Hax & Hay & Haz & Hav & Havy & Havz & Ham & Har & Hac)
         (Hbx & Hby & Hbz & Hbv & Hbvy & Hbvz & Hbm & Hbr & Hbc)
         Hlt Hva Hvb Hxa Hxb Hne.
  assert (Hab : ~ same_place a b) by (unfold same_place; lra).
  assert (Hba : ~ same_place b a) by (unfold same_place; lra).
  assert (Ha : alone [a; b] 0 a).
  { intros [|[|j]] other Hj Hn; cbn in Hn; try congruence. now destruct j. }
  assert (Hb' : alone [a; b] 1 b).
  { intros [|[|j]] other Hj Hn; cbn in Hn; try congruence. now destruct j. }
  assert (Hnew : bodies (stage2 cfg w) =
    [Body.set_time
       (moved dt (accelerated dt
          (Body.set_F a (net_x (GRAV_CONS cfg) [a; b] 0 a)
             (net_y (GRAV_CONS cfg) [a; b] 0 a) (net_z (GRAV_CONS cfg) [a; b] 0 a))))
       (Body.time a + dt / SEC_PER_DAY cfg);
     Body.set_time
       (moved dt (accelerated dt
          (Body.set_F b (net_x (GRAV_CONS cfg) [a; b] 1 b)
             (net_y (GRAV_CONS cfg) [a; b] 1 b) (net_z (GRAV_CONS cfg) [a; b] 1 b))))
       (Body.time b + dt / SEC_PER_DAY cfg)]).
  { rewrite bodies_stage2, bodies_stage1, Hb, Hdt.
    cbn [phase1_bodies phase2_bodies imap map].
    rewrite !compute1_body_far by (auto; lra). cbn [fst].
    rewrite !compute2_body_ok by exact Hsec. reflexivity. }
  set (a' := Body.set_time _ _) in Hnew.
  set (b' := Body.set_time _ _) in Hnew.
  assert (Hnx : net_x (GRAV_CONS cfg) [a; b] 0 a = GRAV_CONS cfg / (xb - xa) ^ 2
                /\ net_x (GRAV_CONS cfg) [a; b] 1 b = - (GRAV_CONS cfg / (xb - xa) ^ 2)).
  { unfold net_x, term. cbn [List.length range seq Rsum Nat.eqb nth_error].
    rewrite (pull_x_right _ a b), (pull_x_left _ b a) by lra.
    rewrite Ham, Hbm, Hax, Hbx. split; field; lra. }
  assert (Hny : net_y (GRAV_CONS cfg) [a; b] 0 a = 0
                /\ net_y (GRAV_CONS cfg) [a; b] 1 b = 0).
  { unfold net_y, term. cbn [List.length range seq Rsum Nat.eqb nth_error].
    rewrite (pull_y_flat _ a b), (pull_y_flat _ b a) by lra. split; ring. }
  assert (Hnz : net_z (GRAV_CONS cfg) [a; b] 0 a = 0
                /\ net_z (GRAV_CONS cfg) [a; b] 1 b = 0).
  { unfold net_z, term. cbn [List.length range seq Rsum Nat.eqb nth_error].
    rewrite (pull_z_flat _ a b), (pull_z_flat _ b a) by lra. split; ring. }
  destruct Hnx as [Hnxa Hnxb], Hny as [Hnya Hnyb], Hnz as [Hnza Hnzb].
  assert (Hva' : Body.Vx a' = va').
  { unfold a'. body_fields. rewrite Hnxa, Hav, Ham, Hva. field; lra. }
  assert (Hvb' : Body.Vx b' = vb').
  { unfold b'. body_fields. rewrite Hnxb, Hbv, Hbm, Hvb. field; lra. }
  assert (Hxa' : Body.x a' = xa').
  { unfold a'. body_fields. rewrite Hnxa, Hav, Ham, Hax, Hxa, Hva. field; lra. }
  assert (Hxb' : Body.x b' = xb').
  { unfold b'. body_fields. rewrite Hnxb, Hbv, Hbm, Hbx, Hxb, Hvb. field; lra. }
  assert (Hla : line_body a' xa' va' (ca ++ [xa'])).
  { unfold line_body.
    split; [exact Hxa'|].
    split; [unfold a'; body_fields; rewrite Hnya, Havy, Hay, Ham; field; lra|].
    split; [unfold a'; body_fields; rewrite Hnza, Havz, Haz, Ham; field; lra|].
    split; [exact Hva'|].
    split; [unfold a'; body_fields; rewrite Hnya, Havy, Ham; field; lra|].
    split; [unfold a'; body_fields; rewrite Hnza, Havz, Ham; field; lra|].
    split; [exact Ham|]. split; [exact Har|].
    unfold samples. rewrite map_app. cbn [map]. rewrite <- Hxa'.
    unfold a'. body_fields. rewrite Hac. unfold samples.
    f_equal. f_equal. apply f_equal2; [apply f_equal2; [reflexivity|]|].
    - rewrite Hnya, Havy, Hay, Ham. field; lra.
    - rewrite Hnza, Havz, Haz, Ham. field; lra. }
  assert (Hlb : line_body b' xb' vb' (cb ++ [xb'])).
  { unfold line_body.
    split; [exact Hxb'|].
    split; [unfold b'; body_fields; rewrite Hnyb, Hbvy, Hby, Hbm; field; lra|].
    split; [unfold b'; body_fields; rewrite Hnzb, Hbvz, Hbz, Hbm; field; lra|].
    split; [exact Hvb'|].
    split; [unfold b'; body_fields; rewrite Hnyb, Hbvy, Hbm; field; lra|].
    split; [unfold b'; body_fields; rewrite Hnzb, Hbvz, Hbm; field; lra|].
    split; [exact Hbm|]. split; [exact Hbr|].
    unfold samples. rewrite map_app. cbn [map]. rewrite <- Hxb'.
    unfold b'. body_fields. rewrite Hbc. unfold samples.
    f_equal. f_equal. apply f_equal2; [apply f_equal2; [reflexivity|]|].
    - rewrite Hnyb, Hbvy, Hby, Hbm. field; lra.
    - rewrite Hnzb, Hbvz, Hbz, Hbm. field; lra. }
  exists a', b'. split; [|split; assumption].
  assert (Hne0 : bodies w <> []) by (rewrite Hb; discriminate).
  unfold line_world. split; [|split; [|split]].
  - rewrite bodies_animate.
    destruct (Z.eqb_spec (SAVE_RATE cfg) 0); [contradiction|exact Hnew].
  - rewrite dt_animate by assumption. rewrite Hrun, Hnorm. cbn [negb].
    destruct (any_near (bodies (stage2 cfg w))) eqn:En; [|reflexivity].
    exfalso. apply any_near_iff in En.
    destruct En as (i & j & bi & bj & Hij & Hi & Hj & Hd).
    rewrite Hnew in Hi, Hj.
    destruct i as [|[|i]]; [lia| |now destruct i].
    destruct j as [|j]; [|lia].
    cbn in Hi, Hj. injection Hi as <-. injection Hj as <-.
    destruct Hla as (_ & _ & _ & _ & _ & _ & _ & Hra & _).
    destruct Hlb as (_ & _ & _ & _ & _ & _ & _ & Hrb & _).
    rewrite Hra, Hrb, distance_dist in Hd.
    assert (Hz : dist a' b' = 0) by (pose proof (dist_nonneg a' b'); lra).
    apply dist_zero in Hz. destruct Hz as [Hz _]. lra.
  - rewrite animate_run by assumption. cbn [fst].
    unfold stage4, stage3. cbn [init set_planet_system].
    unfold next_step. change (init (scanned (stage2 cfg w))) with (init (stage2 cfg w)).
    rewrite init_stage2, Hrun. cbn [negb].
    destruct (any_near _); cbn; rewrite ?init_stage2; exact Hrun.
  - rewrite animate_run by assumption. cbn [fst].
    unfold stage4, stage3. cbn [init set_planet_system].
    unfold next_step. change (init (scanned (stage2 cfg w))) with (init (stage2 cfg w)).
    rewrite init_stage2, Hrun. cbn [negb].
    destruct (any_near _); cbn; rewrite ?init_stage2; exact Hnorm.
Qed.

(* ------------------------------------------------------------------ *)
(** ** Trajectories and the step counter *)

(** Every trajectory has as many samples as the step counter says. *)
Definition traj_inv (w : World) : Prop :=
  Forall (fun b => Z.of_nat (List.length (Body.coord b))
                   = Asystem.count (planet_system w)) (bodies w).

(** The number of [animate] calls among the events. *)
Fixpoint steps_of (es : list event) : nat :=
  match es with
  | [] => 0
  | Animate :: es' => S (steps_of es')
  | _ :: es' => steps_of es'
  end.

Section Trajectories.

Variable cfg : Config.

Lemma count_next_step b w :
  Asystem.count (planet_system (next_step cfg b w)) = Asystem.count (planet_system w).
Proof.
  unfold next_step. destruct (negb _); [reflexivity|]. destruct b; reflexivity.
Qed.

Lemma count_stage2 w :
  Asystem.count (planet_system (stage2 cfg w)) = Asystem.count (planet_system w).
Proof.
  unfold stage2. rewrite phase2_run. cbn [fst].
  unfold stage1. rewrite phase1_run. cbn [fst].
  unfold stage0. now destruct (_ =? _)%Z.
Qed.

Lemma count_stage4 w :
  Asystem.count (planet_system (stage4 cfg w))
  = (Asystem.count (planet_system w) + 1)%Z.
Proof.
  unfold stage4. cbn [planet_system set_planet_system Asystem.count Asystem.set_count].
  unfold stage3. rewrite count_next_step.
  change (Asystem.count (planet_system (scanned (stage2 cfg w))))
    with (Asystem.count (planet_system (stage2 cfg w))).
  now rewrite count_stage2.
Qed.

Lemma count_display w :
  Asystem.count (planet_system (fst (display cfg w))) = Asystem.count (planet_system w).
Proof.
  destruct (bodies w) eqn:Eb.
  - now rewrite display_empty.
  - rewrite display_run by congruence. cbn [fst]. now rewrite count_next_step.
Qed.

(** What a step does to the body at index [i]: one sample, the new
    position, is appended to its trajectory. *)
Lemma coord_stage2 w i b :
  nth_error (bodies w) i = Some b ->
  exists b', nth_error (bodies (stage2 cfg w)) i = Some b'
             /\ Body.coord b' = Body.coord b ++ [(Body.x b', Body.y b', Body.z b')].
Proof.
  intros Hb. rewrite (stage2_at cfg w i b Hb). eexists. split; [reflexivity|].
  pose proof (compute1_body_only_FV (GRAV_CONS cfg) (Asystem.DELTA_T (planet_system w))
                i (bodies w) b) as HF.
  set (b1 := fst (compute1_body _ _ _ _ _)) in *.
  destruct (compute2_body_moved (Asystem.DELTA_T (planet_system w)) (SEC_PER_DAY cfg) b1)
    as [tm ->].
  unfold only_FV in HF. rewrite HF. reflexivity.
Qed.

Lemma in_stage2 w b' :
  In b' (bodies (stage2 cfg w)) ->
  exists i b, nth_error (bodies w) i = Some b
              /\ nth_error (bodies (stage2 cfg w)) i = Some b'.
Proof.
  intros Hin. apply In_nth_error in Hin. destruct Hin as [i Hi].
  assert (Hlt : (i < List.length (bodies w))%nat).
  { rewrite <- length_stage2 with (cfg := cfg). apply nth_error_Some. congruence. }
  destruct (nth_error (bodies w) i) as [b|] eqn:E;
    [|apply nth_error_None in E; lia].
  exists i, b. auto.
Qed.

Lemma traj_inv_animate w : traj_inv w -> traj_inv (fst (animate cfg w)).
Proof.
  intros Hinv. unfold traj_inv in *.
  destruct (Z.eqb_spec (SAVE_RATE cfg) 0) as [E|E].
  - rewrite animate_save_rate_zero by exact E. exact Hinv.
  - destruct (bodies w) eqn:Eb.
    + rewrite animate_empty by assumption. cbn [fst].
      assert (Hnil : bodies (stage2 cfg w) = []).
      { apply length_zero_iff_nil. now rewrite length_stage2, Eb. }
      rewrite Hnil. constructor.
    + rewrite animate_run; [|exact E|congruence]. cbn [fst].
      rewrite bodies_stage4, count_stage4. apply Forall_forall.
      intros b' Hin. apply in_stage2 in Hin. destruct Hin as (i & b & Hb & Hb').
      destruct (coord_stage2 w i b Hb) as (b'' & Hb'' & Hc).
      rewrite Hb' in Hb''. injection Hb'' as <-.
      rewrite Hc, length_app. cbn [List.length].
      rewrite <- Eb in Hinv.
      pose proof (proj1 (Forall_forall _ _) Hinv b (nth_error_In _ _ Hb)) as Hlen.
      cbn beta in Hlen. lia.
Qed.

Lemma traj_inv_exec e w : traj_inv w -> traj_inv (exec cfg e w).
Proof.
  intros Hinv. destruct e; cbn [exec].
  - now apply traj_inv_animate.
  - unfold traj_inv. now rewrite bodies_display, count_display.
  - exact Hinv.
Qed.

Lemma traj_inv_run es : forall w, traj_inv w -> traj_inv (run cfg es w).
Proof.
  induction es as [|e es IH]; intros w Hinv; [exact Hinv|].
  cbn [run fold_left]. apply (IH (exec cfg e w)). now apply traj_inv_exec.
Qed.

Lemma traj_inv_boot sys : Forall fresh sys -> traj_inv (boot cfg sys).
Proof.
  intros H. unfold traj_inv. cbn. eapply Forall_impl; [|exact H].
  intros b [Hc _]. now rewrite Hc.
Qed.

Lemma length_exec e w : List.length (bodies (exec cfg e w)) = List.length (bodies w).
Proof.
  destruct e; cbn [exec].
  - rewrite bodies_animate. destruct (_ =? _)%Z; [reflexivity|apply length_stage2].
  - now rewrite bodies_display.
  - reflexivity.
Qed.

(** With a non-zero [SAVE_RATE] and a non-empty system every [animate]
    call completes and counts. *)
Lemma count_run es : forall w,
  SAVE_RATE cfg <> 0%Z -> bodies w <> [] ->
  Asystem.count (planet_system (run cfg es w))
  = (Asystem.count (planet_system w) + Z.of_nat (steps_of es))%Z.
Proof.
  induction es as [|e es IH]; intros w Hs Hb.
  - cbn. lia.
  - cbn [run fold_left]. fold (run cfg es (exec cfg e w)).
    rewrite IH; auto.
    + destruct e; cbn [exec steps_of].
      * rewrite animate_run by assumption. cbn [fst]. rewrite count_stage4. lia.
      * rewrite count_display. lia.
      * cbn. lia.
    + intros Hn. apply Hb. apply length_zero_iff_nil.
      rewrite <- (length_exec e w), Hn. reflexivity.
Qed.

End Trajectories.

(* ------------------------------------------------------------------ *)
(** ** Reading back what [write_to_file] wrote *)

(** A text that ends with an empty line. *)
Definition blank_end : string := (nl ++ nl)%string.

Lemma universal_newlines_blank_end_aux n : forall s,
  (String.length s <= n)%nat ->
  exists u, universal_newlines (s ++ blank_end) = (u ++ blank_end)%string.
Proof.
  induction n as [|n IH]; intros s Hlen.
  - destruct s; [|cbn in Hlen; lia]. exists EmptyString. reflexivity.
  - destruct s as [|a s]; [exists EmptyString; reflexivity|].
    cbn [String.length] in Hlen.
    cbn [append universal_newlines].
    destruct (Ascii.eqb a CR).
    + destruct s as [|b s].
      * exists EmptyString. reflexivity.
      * cbn [append]. cbn [String.length] in Hlen.
        destruct (Ascii.eqb b LF).
        -- destruct (IH s) as [u Hu]; [lia|].
           exists (String LF u). cbn [append]. now rewrite Hu.
        -- destruct (IH (String b s)) as [u Hu]; [cbn; lia|].
           exists (String LF u). cbn [append] in *. now rewrite Hu.
    + destruct (IH s) as [u Hu]; [lia|].
      exists (String a u). cbn [append]. now rewrite Hu.
Qed.

Lemma universal_newlines_blank_end s :
  exists u, universal_newlines (s ++ blank_end) = (u ++ blank_end)%string.
Proof. exact (universal_newlines_blank_end_aux (String.length s) s (le_n _)). Qed.

(** The last line of such a text is the bare line end. *)
Lemma readlines_blank_end u :
  exists ls l, readlines (u ++ blank_end) = ls ++ [l; nl].
Proof.
  induction u as [|a u (ls & l & IH)].
  - exists [], nl. reflexivity.
  - cbn [append readlines]. rewrite IH.
    destruct (Ascii.eqb a LF).
    + exists (String a EmptyString :: ls), l. reflexivity.
    + destruct ls as [|h t].
      * exists [], (String a l). reflexivity.
      * exists (String a h :: t), l. reflexivity.
Qed.

Section ReadBack.

Variable str_float : R -> string.
Variable float_of_string : string -> option R.
Variable int_of_string : string -> option Z.

(** The bare line end is no header and has no second field. *)
Lemma read_line_nl :
  read_line float_of_string int_of_string nl = Raise IndexError.
Proof. reflexivity. Qed.

Lemma read_lines_blank_end ls : forall acc,
  exists e, read_lines float_of_string int_of_string (ls ++ [nl]) acc = Raise e.
Proof.
  induction ls as [|line ls IH]; intros acc.
  - exists IndexError. reflexivity.
  - cbn [app read_lines].
    destruct (read_line float_of_string int_of_string line) as [[body|]|e];
      cbn [and_then]; eauto.
Qed.

Lemma write_to_file_data_blank_end self :
  exists t, write_to_file_data str_float self = (t ++ blank_end)%string.
Proof.
  unfold write_to_file_data.
  exists ((join (map (body_data str_float) (Asystem.system self))
           ++ "Collisions: " ++ Asystem.collisions self ++ nl)
          ++ "Closeness: "
          ++ drop_last2 (join (map (fun i => i ++ ", ") (Asystem.closeness self))))%string.
  unfold blank_end. rewrite !append_assoc. reflexivity.
Qed.

(** Whatever text precedes it in the file, the text of [write_to_file]
    cannot be read by [read_from_file]: the loop raises, at the latest on
    the empty line that ends the snapshot. *)
Lemma read_back_raises prefix self :
  exists e,
    read_from_file float_of_string int_of_string
      (prefix ++ write_to_file_data str_float self) = Raise e.
Proof.
  destruct (write_to_file_data_blank_end self) as [t Ht].
  rewrite Ht, <- append_assoc.
  unfold read_from_file, open_lines.
  destruct (universal_newlines_blank_end (prefix ++ t)) as [u ->].
  destruct (readlines_blank_end u) as (ls & l & ->).
  change (ls ++ [l; nl]) with (ls ++ [l] ++ [nl]). rewrite app_assoc.
  apply read_lines_blank_end.
Qed.

End ReadBack.

(* ------------------------------------------------------------------ *)
(** ** One record line, read back *)

(** The character [c] does not occur in [s]. *)
Fixpoint free_of (c : ascii) (s : string) : bool :=
  match s with
  | EmptyString => true
  | String a s' => negb (Ascii.eqb a c) && free_of c s'
  end.

Lemma free_of_app c s t : free_of c (s ++ t) = free_of c s && free_of c t.
Proof. induction s; cbn; auto. now rewrite IHs, andb_assoc. Qed.

Lemma split_free c s : free_of c s = true -> split c s = [s].
Proof.
  induction s as [|a s IH]; cbn; auto.
  intros H. apply andb_prop in H. destruct H as [Ha Hs].
  apply negb_true_iff in Ha. now rewrite Ha, IH.
Qed.

Lemma split_app c s rest :
  free_of c s = true -> split c (s ++ String c rest) = s :: split c rest.
Proof.
  induction s as [|a s IH]; cbn.
  - intros _. now rewrite Ascii.eqb_refl.
  - intros H. apply andb_prop in H. destruct H as [Ha Hs].
    apply negb_true_iff in Ha. now rewrite Ha, IH.
Qed.

Lemma split_sep a t :
  free_of ","%char a = true ->
  split ","%char (a ++ ", " ++ t) = a :: split ","%char (String " " t).
Proof. intros H. now apply split_app. Qed.

Lemma split_sep_blank a t :
  free_of ","%char a = true ->
  split ","%char (String " " (a ++ ", " ++ t))
  = String " " a :: split ","%char (String " " t).
Proof.
  intros H. change (String " " (a ++ ", " ++ t))%string
    with (String " " a ++ String "," (String " " t))%string.
  apply split_app. cbn [free_of]. now rewrite H.
Qed.

Lemma string_of_uint_free d : free_of ","%char (NilEmpty.string_of_uint d) = true.
Proof. induction d; cbn; auto. Qed.

Lemma str_int_free n : free_of ","%char (str_int n) = true.
Proof.
  unfold str_int, NilZero.string_of_int, NilZero.string_of_uint.
  destruct (Z.to_int n) as [d|d]; destruct d; cbn; auto using string_of_uint_free.
Qed.

Section RecordLine.

Variable str_float : R -> string.
Variable float_of_string : string -> option R.
Variable int_of_string : string -> option Z.

(** The text of the float [r] has no comma and, after the blank that
    [write_to_file] puts in front of it, [float] reads [r] back. *)
Definition float_round_trips (r : R) : Prop :=
  free_of ","%char (str_float r) = true
  /\ float_of_string (String " " (str_float r)) = Some r.

(** What the built-ins and the identity must satisfy for the record line
    of [body] to be read back. *)
Definition record_round_trips (body : Body.t) : Prop :=
  free_of ","%char (str_id (Body.ident body)) = true
  /\ str_id (Body.ident body) <> "ident"%string
  /\ Forall float_round_trips
       [Body.time body; Body.x body; Body.y body; Body.z body;
        Body.Vx body; Body.Vy body; Body.Vz body; Body.mass body;
        Body.radius body; Body.color1 body; Body.color2 body; Body.color3 body]
  /\ int_of_string (String " " (str_int (Body.texture body) ++ nl))
     = Some (Body.texture body).

(** The body that [read_from_file] builds from the record of [body]: the
    identity is the text of the old identity, trajectory and force are
    those of a new body. *)
Definition read_back (body : Body.t) : Body.t :=
  Body.init (IdStr (str_id (Body.ident body))) (Body.time body)
    (Body.x body) (Body.y body) (Body.z body)
    (Body.Vx body) (Body.Vy body) (Body.Vz body)
    (Body.mass body) (Body.radius body)
    (Body.color1 body) (Body.color2 body) (Body.color3 body) (Body.texture body).

Lemma split_body_data body :
  free_of ","%char (str_id (Body.ident body)) = true ->
  Forall (fun r => free_of ","%char (str_float r) = true)
       [Body.time body; Body.x body; Body.y body; Body.z body;
        Body.Vx body; Body.Vy body; Body.Vz body; Body.mass body;
        Body.radius body; Body.color1 body; Body.color2 body; Body.color3 body] ->
  split ","%char (body_data str_float body) =
  [str_id (Body.ident body);
   String " " (str_float (Body.time body));
   String " " (str_float (Body.x body));
   String " " (str_float (Body.y body));
   String " " (str_float (Body.z body));
   String " " (str_float (Body.Vx body));
   String " " (str_float (Body.Vy body));
   String " " (str_float (Body.Vz body));
   String " " (str_float (Body.mass body));
   String " " (str_float (Body.radius body));
   String " " (str_float (Body.color1 body));
   String " " (str_float (Body.color2 body));
   String " " (str_float (Body.color3 body));
   String " " (str_int (Body.texture body) ++ nl)].
Proof.
  intros Hid Hf. unfold body_data.
  repeat match goal with
         | H : Forall _ (_ :: _) |- _ => inversion H; clear H; subst
         end.
  rewrite split_sep by exact Hid.
  rewrite !split_sep_blank by assumption.
  rewrite split_free; [reflexivity|].
  cbn [free_of]. rewrite free_of_app, str_int_free. reflexivity.
Qed.

Lemma float_field_at fields k r :
  nth_error fields k = Some (String " " (str_float r)) ->
  float_round_trips r ->
  float_field float_of_string fields k = Ok r.
Proof.
  intros Hn [_ Hr]. unfold float_field, getitem. rewrite Hn. cbn [and_then].
  now rewrite Hr.
Qed.

Lemma read_line_body_data body :
  record_round_trips body ->
  read_line float_of_string int_of_string (body_data str_float body)
  = Ok (Some (read_back body)).
Proof.
  intros (Hid & Hne & Hf & Hi).
  unfold read_line. rewrite split_body_data.
  - cbn [getitem nth_error and_then].
    rewrite (proj2 (String.eqb_neq _ _) Hne).
    repeat match goal with
           | H : Forall _ (_ :: _) |- _ => inversion H; clear H; subst
           end.
    unfold float_field, int_field. cbn [getitem nth_error and_then].
    repeat match goal with
           | H : float_round_trips _ |- _ =>
               destruct H as [_ H]; rewrite H; cbn [and_then]
           end.
    rewrite Hi. reflexivity.
  - exact Hid.
  - eapply Forall_impl; [|exact Hf]. intros r [H _]. exact H.
Qed.

End RecordLine.

(* ------------------------------------------------------------------ *)
(** ** The threads of the first phase, interleaved

    The threads of a phase run concurrently.  A thread is the list of
    the method calls [compute1] makes on its body, each call reading its
    arguments from the shared world at the moment it runs; a schedule
    picks, turn by turn, the thread that makes its next call.  The
    method call is the unit of interleaving here. *)

(** A method call on the own body, its arguments read from the world. *)
Definition call : Type := World -> M Body.t unit.

(** The calls of [compute1] for the body at index [body] among [n]. *)
Definition program1 (cfg : Config) (n body : nat) : list call :=
  (fun _ => Body.zeroF)
  :: map (fun other_body w =>
            other <- lift (getitem (bodies w) other_body) ;;
            Body.cal_netforce (GRAV_CONS cfg) other)
         (filter (fun other_body => negb (body =? other_body)%nat) (range n))
  ++ [fun w => Body.cal_velocity (Asystem.DELTA_T (planet_system w))].

(** One call of the thread of [body]. *)
Definition run_call (body : nat) (c : call) : M World unit :=
  fun w => on_body body (c w) w.

(** The threads of the first phase, none started. *)
Definition threads1 (cfg : Config) (n : nat) : list (list call) :=
  map (program1 cfg n) (range n).

(** Running the threads along a schedule: thread [t] makes its next
    call; a call that raises ends its thread and is reported; a turn
    given to a finished thread does nothing. *)
Fixpoint interleave (sched : list nat) (pool : list (list call)) (w : World)
  : list (list call) * World :=
  match sched with
  | [] => (pool, w)
  | t :: sched' =>
      match nth_error pool t with
      | Some (c :: rest) =>
          match run_call t c w with
          | (w', Ok _) => interleave sched' (update pool t rest) w'
          | (w', Raise e) =>
              interleave sched' (update pool t [])
                (set_excepthook w' (excepthook w' ++ [e]))
          end
      | _ => interleave sched' pool w
      end
  end.

(** All threads have ended. *)
Definition all_joined (pool : list (list call)) : Prop :=
  Forall (fun p => p = []) pool.

Section Interleaving.

Variable cfg : Config.

Lemma run_call_at i c w b :
  nth_error (bodies w) i = Some b ->
  run_call i c w = (set_bodies w (update (bodies w) i (fst (c w b))), snd (c w b)).
Proof. intros H. unfold run_call. now apply on_body_at. Qed.

Lemma netforce_call i j w :
  (i < List.length (bodies w))%nat ->
  (other <- body_at j ;; on_body i (Body.cal_netforce (GRAV_CONS cfg) other)) w
  = run_call i (fun w => other <- lift (getitem (bodies w) j) ;;
                         Body.cal_netforce (GRAV_CONS cfg) other) w.
Proof.
  intros Hi.
  destruct (nth_error (bodies w) i) as [b|] eqn:Eb;
    [|apply nth_error_None in Eb; lia].
  rewrite (run_call_at i _ w b Eb), run_bind, body_at_run, run_bind.
  unfold lift. destruct (getitem (bodies w) j) as [other|e].
  - now rewrite (on_body_at i _ w b Eb).
  - cbn [fst snd]. now rewrite (update_same _ _ _ Eb), set_bodies_id.
Qed.

Lemma run_call_length i c w :
  List.length (bodies (fst (run_call i c w))) = List.length (bodies w).
Proof.
  unfold run_call, on_body. destruct (getitem (bodies w) i) as [b|e]; [|reflexivity].
  destruct (c w b) as [b' r]. cbn. apply update_length.
Qed.

Lemma compute1_loop_calls i js : forall w,
  (i < List.length (bodies w))%nat ->
  for_each js (fun other_body =>
    if (i =? other_body)%nat then ret tt
    else other <- body_at other_body ;;
         on_body i (Body.cal_netforce (GRAV_CONS cfg) other)) w
  = for_each
      (map (fun other_body w =>
              other <- lift (getitem (bodies w) other_body) ;;
              Body.cal_netforce (GRAV_CONS cfg) other)
           (filter (fun other_body => negb (i =? other_body)%nat) js))
      (run_call i) w.
Proof.
  induction js as [|j js IH]; intros w Hi; [reflexivity|].
  cbn [for_each filter]. destruct (i =? j)%nat; cbn [negb].
  - rewrite run_bind. unfold ret at 1. now apply IH.
  - cbn [map for_each].
    rewrite (run_bind (other <- body_at j ;;
                       on_body i (Body.cal_netforce (GRAV_CONS cfg) other)) _ w).
    rewrite (netforce_call i j w Hi).
    rewrite (run_bind (run_call i _) _ w).
    pose proof (run_call_length i
      (fun w => other <- lift (getitem (bodies w) j) ;;
                Body.cal_netforce (GRAV_CONS cfg) other) w) as Hlen.
    destruct (run_call i _ w) as [w' [[]|e]]; [|reflexivity].
    cbn [fst] in Hlen. apply IH. lia.
Qed.

(** [compute1] is its list of calls, made one after the other. *)
Lemma compute1_program i w :
  (i < List.length (bodies w))%nat ->
  compute1 cfg i w
  = for_each (program1 cfg (List.length (bodies w)) i) (run_call i) w.
Proof.
  intros Hi. unfold compute1, program1. cbn [for_each].
  rewrite !run_bind.
  change (run_call i (fun _ => Body.zeroF) w) with (on_body i Body.zeroF w).
  pose proof (run_call_length i (fun _ => Body.zeroF) w) as Hlen.
  change (run_call i (fun _ => Body.zeroF) w) with (on_body i Body.zeroF w) in Hlen.
  destruct (on_body i Body.zeroF w) as [w0 [[]|e]]; [|reflexivity].
  cbn [fst] in Hlen.
  rewrite run_bind. unfold gets at 1. rewrite Hlen, run_bind.
  rewrite compute1_loop_calls by lia.
  rewrite for_each_app. unfold call.
  match goal with
  | |- context [for_each (map ?f ?l) (run_call i) w0] =>
      destruct (for_each (map f l) (run_call i) w0) as [w1 [[]|e]]; [|reflexivity]
  end.
  cbn [for_each]. rewrite !run_bind. unfold gets.
  change (run_call i (fun w => Body.cal_velocity (Asystem.DELTA_T (planet_system w))) w1)
    with (on_body i (Body.cal_velocity (Asystem.DELTA_T (planet_system w1))) w1).
  destruct (on_body i _ w1) as [w2 [[]|e]]; reflexivity.
Qed.

End Interleaving.

(* ------------------------------------------------------------------ *)
(** ** Every schedule computes the same first phase *)

(** The calls of a thread, all reading the world [w0]. *)
Definition local (w0 : World) (cs : list call) : M Body.t unit :=
  for_each cs (fun c => c w0).

(** [w] differs from [w0] in the bodies and the reported exceptions only. *)
Definition rest_eq (w0 w : World) : Prop :=
  set_excepthook (set_bodies w (bodies w0)) (excepthook w0) = w0.

(** The bodies of [w] are where the bodies of [w0] are, with the same
    masses, and the rest of the world is the same. *)
Definition stable (w0 w : World) : Prop :=
  Forall2 geom (bodies w) (bodies w0) /\ rest_eq w0 w.

Lemma rest_eq_dt w0 w :
  rest_eq w0 w -> Asystem.DELTA_T (planet_system w) = Asystem.DELTA_T (planet_system w0).
Proof. unfold rest_eq. intros <-. reflexivity. Qed.

Lemma rest_eq_refl w : rest_eq w w.
Proof. unfold rest_eq. destruct w as [[? ? ? ? ?] ? ? ?]. reflexivity. Qed.

Lemma rest_eq_update w0 w l ex :
  rest_eq w0 w -> rest_eq w0 (set_excepthook (set_bodies w l) ex).
Proof. unfold rest_eq. intros <-. reflexivity. Qed.

Lemma local_snoc w0 cs c b :
  local w0 (cs ++ [c]) b =
  match local w0 cs b with
  | (b', Ok _) => (fst (c w0 b'), snd (c w0 b'))
  | (b', Raise e) => (b', Raise e)
  end.
Proof.
  unfold local. rewrite for_each_app.
  destruct (for_each cs (fun c0 => c0 w0) b) as [b' [[]|e]]; [|reflexivity].
  cbn [for_each]. rewrite run_bind.
  destruct (c w0 b') as [b'' [[]|e]]; reflexivity.
Qed.

Lemma local_raise_app w0 cs cs' b e :
  snd (local w0 cs b) = Raise e -> local w0 (cs ++ cs') b = local w0 cs b.
Proof.
  intros H. unfold local in *. rewrite for_each_app.
  destruct (for_each cs (fun c => c w0) b) as [b' [[]|e']]; [discriminate|reflexivity].
Qed.

Section Schedules.

Variable cfg : Config.

Lemma in_program1 n i c :
  In c (program1 cfg n i) ->
  c = (fun _ => Body.zeroF)
  \/ (exists j, c = fun w => other <- lift (getitem (bodies w) j) ;;
                             Body.cal_netforce (GRAV_CONS cfg) other)
  \/ c = (fun w => Body.cal_velocity (Asystem.DELTA_T (planet_system w))).
Proof.
  unfold program1. intros [<-|H]; [now left|].
  apply in_app_or in H. destruct H as [H|[<-|[]]].
  - apply in_map_iff in H. destruct H as (j & <- & _). right. left. eauto.
  - right. now right.
Qed.

(** A call changes force and velocity of its body only. *)
Lemma call_frame n i c w b :
  In c (program1 cfg n i) -> only_FV b (fst (c w b)).
Proof.
  intros H. apply in_program1 in H. destruct H as [->|[[j ->]| ->]].
  - apply only_FV_set_F.
  - rewrite run_bind. unfold lift. destruct (getitem (bodies w) j) as [o|e].
    + apply cal_netforce_only_FV.
    + apply only_FV_refl.
  - apply cal_velocity_only_FV.
Qed.

(** A call reads places, masses and the time step only. *)
Lemma call_stable n i c w0 w b :
  In c (program1 cfg n i) -> stable w0 w -> c w b = c w0 b.
Proof.
  intros H [Hg Hr]. apply in_program1 in H. destruct H as [->|[[j ->]| ->]].
  - reflexivity.
  - rewrite !run_bind. unfold lift.
    pose proof (Forall2_getitem geom _ _ j Hg) as Hj.
    destruct (getitem (bodies w) j) as [o|e], (getitem (bodies w0) j) as [o'|e'];
      try contradiction.
    + now rewrite (cal_netforce_geom _ o o' b Hj).
    + now subst.
  - now rewrite (rest_eq_dt w0 w Hr).
Qed.

Lemma local_frame n i w0 : forall done rest b,
  program1 cfg n i = done ++ rest -> only_FV b (fst (local w0 done b)).
Proof.
  intros done. induction done as [|c done IH] using rev_ind; intros rest b Hp.
  - apply only_FV_refl.
  - rewrite local_snoc. rewrite <- app_assoc in Hp.
    specialize (IH _ b Hp).
    destruct (local w0 done b) as [b' [[]|e]]; cbn [fst] in *; auto.
    eapply only_FV_trans; [exact IH|].
    apply (call_frame n i). rewrite Hp. apply in_or_app. right. now left.
Qed.

(** The loop of calls, read from one world, is the loop of [forces]. *)
Lemma local_forces i w0 js : forall b,
  local w0
    (map (fun other_body w =>
            other <- lift (getitem (bodies w) other_body) ;;
            Body.cal_netforce (GRAV_CONS cfg) other)
       (filter (fun other_body => negb (i =? other_body)%nat) js)) b
  = forces (GRAV_CONS cfg) i (bodies w0) js b.
Proof.
  induction js as [|j js IH]; intros b; [reflexivity|].
  unfold forces. cbn [filter for_each]. fold (forces (GRAV_CONS cfg) i (bodies w0) js).
  destruct (i =? j)%nat; cbn [negb].
  - rewrite run_bind. unfold ret at 1. apply IH.
  - unfold local. cbn [map for_each]. fold (local w0). rewrite !(run_bind _ _ b).
    unfold lift. destruct (getitem (bodies w0) j) as [o|e]; [|reflexivity].
    destruct (Body.cal_netforce (GRAV_CONS cfg) o b) as [b' [[]|e]];
      [apply IH|reflexivity].
Qed.

(** A whole thread, read from one world, is [compute1_body]. *)
Lemma local_program1 i w0 b :
  local w0 (program1 cfg (List.length (bodies w0)) i) b
  = compute1_body (GRAV_CONS cfg) (Asystem.DELTA_T (planet_system w0)) i (bodies w0) b.
Proof.
  unfold program1, compute1_body, local. cbn [for_each].
  rewrite !(run_bind _ _ b). unfold Body.zeroF, modify.
  rewrite for_each_app.
  pose proof (local_forces i w0 (range (List.length (bodies w0))) (Body.set_F b 0 0 0))
    as Hf.
  unfold local, call in *. rewrite Hf. rewrite run_bind.
  destruct (forces _ _ _ _ _) as [b1 [[]|e]]; [|reflexivity].
  cbn [for_each]. rewrite run_bind.
  destruct (Body.cal_velocity _ b1) as [b2 [[]|e]]; reflexivity.
Qed.

(** Where a thread stands: the calls made so far, read from the start
    world, have produced its body; the thread holds the remaining calls,
    or none when a call has raised. *)
Definition thread_at (w0 : World) (prog : list call) (b0 : Body.t)
           (rem : list call) (b : Body.t) : Prop :=
  exists done rest,
    prog = done ++ rest
    /\ b = fst (local w0 done b0)
    /\ ((snd (local w0 done b0) = Ok tt /\ rem = rest)
        \/ ((exists e, snd (local w0 done b0) = Raise e) /\ rem = [])).

Definition pool_at (w0 : World) (pool : list (list call)) (w : World) : Prop :=
  stable w0 w
  /\ List.length pool = List.length (bodies w0)
  /\ forall i b0, nth_error (bodies w0) i = Some b0 ->
       exists rem b,
         nth_error pool i = Some rem
         /\ nth_error (bodies w) i = Some b
         /\ thread_at w0 (program1 cfg (List.length (bodies w0)) i) b0 rem b.

Lemma pool_at_start w0 :
  pool_at w0 (threads1 cfg (List.length (bodies w0))) w0.
Proof.
  split; [split; [apply Forall2_geom_refl|apply rest_eq_refl]|].
  split; [unfold threads1, range; now rewrite length_map, length_seq|].
  intros i b0 Hb.
  assert (Hi : (i < List.length (bodies w0))%nat) by (apply nth_error_Some; congruence).
  exists (program1 cfg (List.length (bodies w0)) i), b0.
  split; [|split; [exact Hb|]].
  - unfold threads1, range. rewrite nth_error_map, nth_error_seq.
    rewrite (proj2 (Nat.ltb_lt _ _) Hi). reflexivity.
  - exists [], (program1 cfg (List.length (bodies w0)) i).
    split; [reflexivity|]. split; [reflexivity|]. left. split; reflexivity.
Qed.

(** One turn keeps the threads where the invariant says. *)
Lemma pool_at_turn w0 t pool w c rest :
  pool_at w0 pool w ->
  nth_error pool t = Some (c :: rest) ->
  pool_at w0
    (update pool t (match snd (run_call t c w) with Ok _ => rest | Raise _ => [] end))
    (match snd (run_call t c w) with
     | Ok _ => fst (run_call t c w)
     | Raise e => set_excepthook (fst (run_call t c w))
                    (excepthook (fst (run_call t c w)) ++ [e])
     end).
Proof.
  intros ([Hg Hr] & Hlen & Hth) Ht.
  assert (Htn : (t < List.length (bodies w0))%nat).
  { rewrite <- Hlen. apply nth_error_Some. congruence. }
  destruct (nth_error (bodies w0) t) as [b0|] eqn:Eb0;
    [|apply nth_error_None in Eb0; lia].
  destruct (Hth t b0 Eb0) as (rem & b & Hrem & Hb & done & rest0 & Hp & Hbd & Hcase).
  rewrite Ht in Hrem. injection Hrem as <-.
  destruct Hcase as [[Hok Hrest]|[_ Hnil]]; [|discriminate]. subst rest0.
  assert (Hin : In c (program1 cfg (List.length (bodies w0)) t)).
  { rewrite Hp. apply in_or_app. right. now left. }
  rewrite (run_call_at t c w b Hb).
  rewrite (call_stable (List.length (bodies w0)) t c w0 w b Hin (conj Hg Hr)).
  cbn [fst snd].
  set (b' := fst (c w0 b)). set (r := snd (c w0 b)).
  assert (Hfr : only_FV b b')
    by (unfold b'; apply (call_frame (List.length (bodies w0)) t); exact Hin).
  assert (Hg' : Forall2 geom (update (bodies w) t b') (bodies w0)).
  { eapply Forall2_update_geom; eauto. now apply only_FV_geom. }
  assert (Hst : forall ex, stable w0
                  (set_excepthook (set_bodies w (update (bodies w) t b')) ex)).
  { intros ex. split; [exact Hg'|]. now apply rest_eq_update. }
  assert (Hsnoc : local w0 (done ++ [c]) b0 = (b', r)).
  { rewrite local_snoc. destruct (local w0 done b0) as [bd rd].
    cbn [fst snd] in *. subst rd bd. reflexivity. }
  assert (Hp' : program1 cfg (List.length (bodies w0)) t = (done ++ [c]) ++ rest)
    by (rewrite <- app_assoc; exact Hp).
  assert (Hbodies : forall ex i, i <> t ->
            nth_error (bodies (set_excepthook
                                 (set_bodies w (update (bodies w) t b')) ex)) i
            = nth_error (bodies w) i).
  { intros ex i Hi. cbn. fold (bodies w). apply nth_error_update_neq. auto. }
  assert (Hbt : forall ex,
            nth_error (bodies (set_excepthook
                                 (set_bodies w (update (bodies w) t b')) ex)) t
            = Some b').
  { intros ex. cbn. fold (bodies w). apply nth_error_update_eq.
    apply nth_error_Some. congruence. }
  assert (Hpt : forall q, nth_error (update pool t q) t = Some q).
  { intros q. apply nth_error_update_eq. apply nth_error_Some. congruence. }
  destruct r as [[]|e] eqn:Er.
  - split; [|split].
    + specialize (Hst (excepthook w)).
      replace (set_bodies w (update (bodies w) t b'))
        with (set_excepthook (set_bodies w (update (bodies w) t b')) (excepthook w))
        by (now destruct w). exact Hst.
    + now rewrite update_length.
    + intros i bi0 Hbi0. destruct (Nat.eq_dec i t) as [->|Hit].
      * rewrite Eb0 in Hbi0. injection Hbi0 as <-.
        exists rest, b'. split; [apply Hpt|]. split.
        -- cbn. fold (bodies w). apply nth_error_update_eq.
           apply nth_error_Some. congruence.
        -- exists (done ++ [c]), rest. split; [exact Hp'|].
           rewrite Hsnoc. split; [reflexivity|]. left. split; reflexivity.
      * destruct (Hth i bi0 Hbi0) as (remi & bi & Hri & Hbi & Hti).
        exists remi, bi. split; [|split; [|exact Hti]].
        -- rewrite nth_error_update_neq by auto. exact Hri.
        -- cbn. fold (bodies w). rewrite nth_error_update_neq by auto. exact Hbi.
  - split; [|split].
    + apply Hst.
    + now rewrite update_length.
    + intros i bi0 Hbi0. destruct (Nat.eq_dec i t) as [->|Hit].
      * rewrite Eb0 in Hbi0. injection Hbi0 as <-.
        exists [], b'. split; [apply Hpt|]. split; [apply Hbt|].
        exists (done ++ [c]), rest. split; [exact Hp'|].
        rewrite Hsnoc. split; [reflexivity|]. right.
        split; [exists e; reflexivity|reflexivity].
      * destruct (Hth i bi0 Hbi0) as (remi & bi & Hri & Hbi & Hti).
        exists remi, bi. split; [|split; [|exact Hti]].
        -- rewrite nth_error_update_neq by auto. exact Hri.
        -- rewrite Hbodies by exact Hit. exact Hbi.
Qed.

(** The invariant holds along every schedule. *)
Lemma pool_at_interleave w0 sched : forall pool w,
  pool_at w0 pool w ->
  pool_at w0 (fst (interleave sched pool w)) (snd (interleave sched pool w)).
Proof.
  induction sched as [|t sched IH]; intros pool w Hinv; [exact Hinv|].
  cbn [interleave].
  destruct (nth_error pool t) as [[|c rest]|] eqn:Et; try (now apply IH).
  pose proof (pool_at_turn w0 t pool w c rest Hinv Et) as Hturn.
  destruct (run_call t c w) as [w' [[]|e]]; cbn [fst snd] in Hturn; now apply IH.
Qed.

End Schedules.

Lemma Forall2_pointwise {A B} (P : A -> B -> Prop) : forall l l',
  List.length l = List.length l' ->
  (forall i a b, nth_error l i = Some a -> nth_error l' i = Some b -> P a b) ->
  Forall2 P l l'.
Proof.
  induction l as [|a l IH]; intros [|b l'] Hlen H; cbn in Hlen; try discriminate.
  - constructor.
  - constructor.
    + exact (H 0%nat a b eq_refl eq_refl).
    + apply IH; [lia|]. intros i a' b' Ha Hb. exact (H (S i) a' b' Ha Hb).
Qed.

Lemma interleave_app s1 s2 pool w :
  interleave (s1 ++ s2) pool w
  = interleave s2 (fst (interleave s1 pool w)) (snd (interleave s1 pool w)).
Proof.
  revert pool w. induction s1 as [|t s1 IH]; intros pool w; [reflexivity|].
  cbn [app interleave].
  destruct (nth_error pool t) as [[|c rest]|]; auto.
  destruct (run_call t c w) as [w' [[]|e]]; auto.
Qed.

(** As many turns as a thread has calls left end it; the other threads
    keep their calls. *)
Lemma turns_end_thread t : forall k pool w rem,
  nth_error pool t = Some rem -> (List.length rem <= k)%nat ->
  nth_error (fst (interleave (repeat t k) pool w)) t = Some []
  /\ List.length (fst (interleave (repeat t k) pool w)) = List.length pool
  /\ forall i, i <> t ->
       nth_error (fst (interleave (repeat t k) pool w)) i = nth_error pool i.
Proof.
  induction k as [|k IH]; intros pool w rem Ht Hk.
  - destruct rem; [|cbn in Hk; lia]. cbn. auto.
  - cbn [repeat interleave]. rewrite Ht.
    assert (Hlt : (t < List.length pool)%nat) by (apply nth_error_Some; congruence).
    destruct rem as [|c rest].
    + apply (IH pool w []); [exact Ht|cbn; lia].
    + cbn [List.length] in Hk.
      destruct (run_call t c w) as [w' [[]|e]].
      * destruct (IH (update pool t rest) w' rest) as (H1 & H2 & H3);
          [now apply nth_error_update_eq|lia|].
        split; [exact H1|]. split; [now rewrite H2, update_length|].
        intros i Hi. rewrite H3 by exact Hi. apply nth_error_update_neq. auto.
      * destruct (IH (update pool t [])
                    (set_excepthook w' (excepthook w' ++ [e])) []) as (H1 & H2 & H3);
          [now apply nth_error_update_eq|cbn; lia|].
        split; [exact H1|]. split; [now rewrite H2, update_length|].
        intros i Hi. rewrite H3 by exact Hi. apply nth_error_update_neq. auto.
Qed.

(** The schedule that runs the threads of [ts] one after the other, [k]
    turns each. *)
Definition one_by_one (k : nat) (ts : list nat) : list nat :=
  flat_map (fun t => repeat t k) ts.

Lemma one_by_one_ends k ts : forall pool w,
  (forall t rem, In t ts -> nth_error pool t = Some rem -> (List.length rem <= k)%nat) ->
  (forall t, In t ts -> (t < List.length pool)%nat) ->
  List.length (fst (interleave (one_by_one k ts) pool w)) = List.length pool
  /\ (forall t, In t ts ->
        nth_error (fst (interleave (one_by_one k ts) pool w)) t = Some [])
  /\ (forall i, ~ In i ts ->
        nth_error (fst (interleave (one_by_one k ts) pool w)) i = nth_error pool i).
Proof.
  induction ts as [|t ts IH]; intros pool w Hk Hin.
  - cbn. repeat split; auto. intros t [].
  - unfold one_by_one. cbn [flat_map]. fold (one_by_one k ts).
    rewrite interleave_app.
    assert (Ht : (t < List.length pool)%nat) by (apply Hin; now left).
    destruct (nth_error pool t) as [rem|] eqn:Et; [|apply nth_error_None in Et; lia].
    destruct (turns_end_thread t k pool w rem Et) as (H1 & H2 & H3);
      [apply (Hk t); auto; now left|].
    set (pool1 := fst (interleave (repeat t k) pool w)) in *.
    set (w1 := snd (interleave (repeat t k) pool w)).
    destruct (IH pool1 w1) as (L & E & O).
    + intros t' rem' Hin' Hrem'. destruct (Nat.eq_dec t' t) as [->|Hne].
      * rewrite H1 in Hrem'. injection Hrem' as <-. cbn. lia.
      * rewrite H3 in Hrem' by exact Hne. apply (Hk t'); auto. now right.
    + intros t' Hin'. rewrite H2. apply Hin. now right.
    + split; [now rewrite L, H2|]. split.
      * intros t' [<-|Hin'].
        -- destruct (in_dec Nat.eq_dec t ts) as [Hi|Hi]; [now apply E|].
           rewrite O by exact Hi. exact H1.
        -- now apply E.
      * intros i Hni. rewrite O by (intros Hi; apply Hni; now right).
        apply H3. intros ->. apply Hni. now left.
Qed.

Section Joined.

Variable cfg : Config.

Lemma program1_length n i : (List.length (program1 cfg n i) <= n + 2)%nat.
Proof.
  unfold program1. cbn [List.length]. rewrite length_app, length_map. cbn [List.length].
  pose proof (filter_length_le (fun other_body => negb (i =? other_body)%nat) (range n)) as H.
  unfold range in *. rewrite length_seq in H. lia.
Qed.

(** Some schedule lets every thread end. *)
Lemma some_schedule_joins w0 n :
  all_joined (fst (interleave (one_by_one (n + 2) (range n)) (threads1 cfg n) w0)).
Proof.
  assert (Hlen : List.length (threads1 cfg n) = n)
    by (unfold threads1, range; now rewrite length_map, length_seq).
  destruct (one_by_one_ends (n + 2) (range n) (threads1 cfg n) w0) as (L & E & _).
  - intros t rem Hin Hrem. unfold threads1 in Hrem.
    rewrite nth_error_map in Hrem.
    destruct (nth_error (range n) t) as [j|]; [|discriminate].
    injection Hrem as <-. apply program1_length.
  - intros t Hin. apply in_seq in Hin. lia.
  - unfold all_joined. apply Forall_forall. intros p Hp.
    apply In_nth_error in Hp. destruct Hp as [t Ht].
    assert (Hlt : (t < n)%nat).
    { rewrite <- Hlen, <- L. apply nth_error_Some. congruence. }
    rewrite E in Ht by (apply in_seq; lia). congruence.
Qed.

(** Under the invariant only force and velocity differ from the start. *)
Lemma pool_at_frame w0 pool w :
  pool_at cfg w0 pool w -> Forall2 only_FV (bodies w0) (bodies w) /\ rest_eq w0 w.
Proof.
  intros ([Hg Hr] & Hlen & Hth). split; [|exact Hr].
  apply Forall2_pointwise; [symmetry; exact (Forall2_length Hg)|].
  intros i b0 b Hb0 Hb.
  destruct (Hth i b0 Hb0) as (rem & b' & _ & Hb' & done & rest & Hp & Hbd & _).
  rewrite Hb in Hb'. injection Hb' as <-. rewrite Hbd.
  now apply (local_frame cfg (List.length (bodies w0)) i w0 done rest).
Qed.

(** Under the invariant, once all threads have ended the bodies are those
    of the first phase. *)
Lemma pool_at_joined w0 pool w :
  pool_at cfg w0 pool w -> all_joined pool ->
  bodies w = phase1_bodies (GRAV_CONS cfg) (Asystem.DELTA_T (planet_system w0)) (bodies w0).
Proof.
  intros ([Hg Hr] & Hlen & Hth) Hj.
  apply nth_error_ext. intros i. unfold phase1_bodies. rewrite nth_error_imap.
  destruct (nth_error (bodies w0) i) as [b0|] eqn:Eb0; cbn [option_map Nat.add].
  - destruct (Hth i b0 Eb0) as (rem & b & Hrem & Hb & done & rest & Hp & Hbd & Hcase).
    assert (Hnil : rem = []).
    { apply nth_error_In in Hrem. exact (proj1 (Forall_forall _ _) Hj rem Hrem). }
    rewrite Hb. f_equal. rewrite <- local_program1, Hp, Hbd.
    destruct Hcase as [[_ Hrest]|[[e He] _]].
    + subst. now rewrite app_nil_r.
    + now rewrite (local_raise_app w0 done rest b0 e He).
  - apply nth_error_None. apply nth_error_None in Eb0.
    now rewrite (Forall2_length Hg).
Qed.

End Joined.

(* ================================================================== *)
(** * The properties of the specification *)

Section ForceLaw.

Variable cfg : Config.

(** C2.  For two distinct bodies [i] and [j] of the system at distinct
    places, [cal_netforce] adds to the accumulator of body [i] the vector
    [G * m_i * m_j / d^2] times the unit vector from [i] to [j], [d] being
    the Euclidean distance of the centers: its length is
    [G * m_i * m_j / d^2] (for a non-negative [G * m_i * m_j]).  The
    three components are computed directly from the displacement, so the
    pull is also defined where the legacy angle formula
    ([asin(dz/d)], [atan(dy/dx)]) raises, namely on pairs with equal [x].
    After [compute1] the accumulator of body [i] holds the component-wise
    sum of these pulls over every other body, when nobody is at the place
    of body [i]. *)
Theorem C2_force_law (w : World) (i j : nat) (self other : Body.t) :
  nth_error (bodies w) i = Some self ->
  nth_error (bodies w) j = Some other ->
  i <> j ->
  ~ same_place self other ->
  let G := GRAV_CONS cfg in
  (* one contribution *)
  (exists self',
     Body.cal_netforce G other self = (self', Ok tt)
     /\ only_FV self self'
     /\ force_of self' = vadd (force_of self) (newton G self other))
  /\ norm (unit_to self other) = 1
  /\ (0 <= G * Body.mass self * Body.mass other ->
      norm (newton G self other)
      = G * Body.mass self * Body.mass other / euclid self other ^ 2)
  (* no angles *)
  /\ (Body.x other = Body.x self ->
      Legacy.force_cal (legacy_view self) (legacy_view other) G
      = Raise ZeroDivisionError)
  (* the net force *)
  /\ (alone (bodies w) i self ->
      exists self',
        nth_error (bodies (fst (compute1 cfg i w))) i = Some self'
        /\ force_of self' = vsum (map (newton G self) (others i (bodies w)))).
Proof.
  intros Hi Hj Hij Hfar G.
  assert (Hlt : (i < List.length (bodies w))%nat)
    by (apply nth_error_Some; congruence).
  split; [|split; [|split; [|split]]].
  - exists (pulled G self other). split; [|split].
    + now apply cal_netforce_far.
    + apply only_FV_set_F.
    + rewrite newton_pull by exact Hfar. reflexivity.
  - now apply unit_to_unit.
  - intros Hk. now apply newton_norm.
  - intros Hx. now apply legacy_axis_singular.
  - intros Ha.
    exists (fst (compute1_body G (Asystem.DELTA_T (planet_system w)) i (bodies w) self)).
    split.
    + rewrite (compute1_local cfg i w self Hi). cbn [fst].
      rewrite set_bodies_bodies. now apply nth_error_update_eq.
    + now apply compute1_body_net.
Qed.

End ForceLaw.

Section Integrator.

Variable cfg : Config.

(** C4.  For a body of mass > 0, [cal_velocity] yields
    [V_new = V_old + (F / mass) * dt] from the force in the accumulator;
    in a step that force is the fully accumulated net force, since
    [compute1] calls [cal_velocity] after its loop over the other bodies.
    [compute2] then yields [P_new = P_old + V_new * dt] from the updated
    velocity, appends exactly [P_new] to the trajectory and advances the
    time-stamp by [dt / SEC_PER_DAY]. *)
Theorem C4_semi_implicit_euler (w : World) (i : nat) (b : Body.t) :
  SAVE_RATE cfg <> 0%Z ->
  SEC_PER_DAY cfg <> 0 ->
  nth_error (bodies w) i = Some b ->
  0 < Body.mass b ->
  alone (bodies w) i b ->
  let dt := Asystem.DELTA_T (planet_system w) in
  let m := Body.mass b in
  (* the velocity update, on any force *)
  (forall self, 0 < Body.mass self ->
     Body.cal_velocity dt self =
     (Body.set_V self (Body.Vx self + Body.Fx self / Body.mass self * dt)
                      (Body.Vy self + Body.Fy self / Body.mass self * dt)
                      (Body.Vz self + Body.Fz self / Body.mass self * dt), Ok tt))
  (* the position update, on any body of the system *)
  /\ (forall k self, nth_error (bodies w) k = Some self ->
      exists self',
        compute2 cfg k w = (set_bodies w (update (bodies w) k self'), Ok tt)
        /\ Body.x self' = Body.x self + Body.Vx self * dt
        /\ Body.y self' = Body.y self + Body.Vy self * dt
        /\ Body.z self' = Body.z self + Body.Vz self * dt
        /\ Body.coord self'
           = Body.coord self ++ [(Body.x self', Body.y self', Body.z self')]
        /\ Body.time self' = Body.time self + dt / SEC_PER_DAY cfg
        /\ Body.Vx self' = Body.Vx self /\ Body.Vy self' = Body.Vy self
        /\ Body.Vz self' = Body.Vz self /\ Body.mass self' = Body.mass self)
  (* the step *)
  /\ exists w' b',
       animate cfg w = (w', Ok tt)
       /\ nth_error (bodies w') i = Some b'
       /\ force_of b' = vsum (map (newton (GRAV_CONS cfg) b) (others i (bodies w)))
       /\ Body.Vx b' = Body.Vx b + Body.Fx b' / m * dt
       /\ Body.Vy b' = Body.Vy b + Body.Fy b' / m * dt
       /\ Body.Vz b' = Body.Vz b + Body.Fz b' / m * dt
       /\ Body.x b' = Body.x b + Body.Vx b' * dt
       /\ Body.y b' = Body.y b + Body.Vy b' * dt
       /\ Body.z b' = Body.z b + Body.Vz b' * dt
       /\ Body.coord b' = Body.coord b ++ [(Body.x b', Body.y b', Body.z b')]
       /\ Body.time b' = Body.time b + dt / SEC_PER_DAY cfg
       /\ Body.mass b' = m.
Proof.
  intros Hs Hsec Hb Hm Ha dt m. split; [|split].
  - intros self Hself. rewrite cal_velocity_ok by lra.
    unfold accelerated. f_equal. f_equal; field; lra.
  - intros k self Hk.
    exists (Body.set_time (moved dt self) (Body.time self + dt / SEC_PER_DAY cfg)).
    rewrite (compute2_local cfg k w self Hk). fold dt.
    rewrite compute2_body_ok by exact Hsec.
    repeat split.
  - pose proof (compute1_body_net (GRAV_CONS cfg) dt i (bodies w) b Ha) as Hnet.
    pose proof (stage2_at cfg w i b Hb) as H2. fold dt in H2.
    rewrite compute1_body_far in * by (auto; lra).
    rewrite compute2_body_ok in H2 by exact Hsec.
    eexists. eexists. split; [|split; [|split]].
    + apply animate_run; [exact Hs|]. eapply nonempty_at; eauto.
    + rewrite bodies_stage4. exact H2.
    + exact Hnet.
    + cbn. fold m. repeat split; field; unfold m; lra.
Qed.

End Integrator.

(** The distance of [if_collision] is the Euclidean distance of the
    centers. *)
Lemma distance_euclid bi bj : distance bi bj = euclid bi bj.
Proof. rewrite distance_dist, dist_sym. apply euclid_dist. Qed.

Section Monitor.

Variable cfg : Config.

(** C5, as the code has it.  [if_collision] visits every unordered pair
    of bodies exactly once (the pairs [(i, j)] with [j < i]).  The
    collision text it leaves is the text of the collision events, one per
    pair whose Euclidean center distance is at most the sum of the radii,
    each such pair once and all of them; the near-or-collided flag, on
    which the choice of the time step rests, is set exactly when the
    Euclidean center distance of some pair is at most 30 times the sum of
    its radii.  The multiplier is the literal 30 of the code; it is not
    read from the configuration. *)
Theorem C5_collision_scan (w : World) :
  let sys := bodies w in
  (forall i j, In (i, j) (pairs (List.length sys)) <-> (j < i < List.length sys)%nat)
  /\ NoDup (pairs (List.length sys))
  /\ if_collision cfg w = (next_step cfg (any_near sys) (scanned w), Ok tt)
  /\ Asystem.collisions (planet_system (fst (if_collision cfg w)))
     = join (map (pair_text sys) (collision_events sys))
  /\ NoDup (collision_events sys)
  /\ (forall i j,
        In (i, j) (collision_events sys) <->
        (j < i)%nat /\
        exists bi bj, nth_error sys i = Some bi /\ nth_error sys j = Some bj
          /\ euclid bi bj <= Body.radius bi + Body.radius bj)
  /\ (forall i j bi bj,
        nth_error sys i = Some bi -> nth_error sys j = Some bj ->
        pair_text sys (i, j)
        = (str_id (Body.ident bi) ++ " and " ++ str_id (Body.ident bj) ++ ", ")%string)
  /\ (any_near sys = true <->
      exists i j bi bj, (j < i)%nat
        /\ nth_error sys i = Some bi /\ nth_error sys j = Some bj
        /\ euclid bi bj <= 30 * (Body.radius bi + Body.radius bj)).
Proof.
  intros sys. split; [|split; [|split; [|split; [|split; [|split; [|split]]]]]].
  - intros i j. apply in_pairs.
  - apply NoDup_pairs.
  - apply if_collision_run.
  - rewrite if_collision_run. cbn [fst]. unfold next_step.
    destruct (negb _); [reflexivity|]. destruct (any_near (bodies w)); reflexivity.
  - apply NoDup_filter, NoDup_pairs.
  - intros i j. rewrite in_collision_events.
    split; intros (Hlt & bi & bj & Hi & Hj & Hd); (split; [exact Hlt|]);
      exists bi, bj; (split; [exact Hi|]); (split; [exact Hj|]).
    + now rewrite <- distance_euclid.
    + now rewrite distance_euclid.
  - intros i j bi bj Hi Hj. unfold pair_text.
    now rewrite (at_pair_some _ _ _ i j bi bj Hi Hj).
  - rewrite any_near_iff.
    split; intros (i & j & bi & bj & Hlt & Hi & Hj & Hd);
      exists i, j, bi, bj; (split; [exact Hlt|]); (split; [exact Hi|]);
      (split; [exact Hj|]).
    + now rewrite <- distance_euclid.
    + now rewrite distance_euclid.
Qed.

(** C6.  The choice of the next time step is made once in a step, by
    [if_collision] after the scan of the moved bodies.  When the pause
    flag is off it is [FINE_DELTA_T] if some pair is near or collided,
    and a snapshot is then written at once (so in particular on the
    change from the normal to the fine step); it is the normal step when
    no pair is near or collided.  When the pause flag is on it is 0. *)
Theorem C6_time_step (w : World) :
  SAVE_RATE cfg <> 0%Z ->
  bodies w <> [] ->
  let policy (w0 w1 : World) :=
    Asystem.DELTA_T (planet_system w1)
    = (if negb (Definition_.bool_T (init w0)) then 0
       else if any_near (bodies w0) then FINE_DELTA_T cfg
       else Definition_.NORM_DELTA_T (init w0))
    /\ write_file w1
       = (if Definition_.bool_T (init w0) && any_near (bodies w0)
          then write_file w0 ++ [planet_system w1] else write_file w0)
    /\ bodies w1 = bodies w0 /\ init w1 = init w0 in
  (* the selection itself *)
  (forall w0, exists w1, if_collision cfg w0 = (w1, Ok tt) /\ policy w0 w1)
  (* once per step, after the position phase *)
  /\ (exists w3 w4,
        animate cfg w = (w4, Ok tt)
        /\ if_collision cfg (stage2 cfg w) = (w3, Ok tt)
        /\ policy (stage2 cfg w) w3
        /\ Asystem.DELTA_T (planet_system w4) = Asystem.DELTA_T (planet_system w3)
        /\ write_file w4 = write_file w3
        /\ bodies w4 = bodies (stage2 cfg w))
  (* what the flag means *)
  /\ (forall sys, any_near sys = true <->
      exists i j bi bj, (j < i)%nat
        /\ nth_error sys i = Some bi /\ nth_error sys j = Some bj
        /\ distance bi bj <= 30 * (Body.radius bi + Body.radius bj)).
Proof.
  intros Hs Hb policy.
  assert (Hsel : forall w0, exists w1,
             if_collision cfg w0 = (w1, Ok tt) /\ policy w0 w1).
  { intros w0. eexists. split; [apply if_collision_run|].
    unfold policy, next_step.
    change (init (scanned w0)) with (init w0).
    destruct (Definition_.bool_T (init w0)); cbn [negb andb];
      [destruct (any_near (bodies w0))|]; repeat split. }
  split; [exact Hsel|split].
  - destruct (Hsel (stage2 cfg w)) as (w3 & H3 & Hp).
    exists w3. eexists. split; [now apply animate_run|].
    split; [exact H3|]. split; [exact Hp|].
    rewrite if_collision_run in H3. injection H3 as <-.
    split; [reflexivity|]. split; [reflexivity|].
    rewrite bodies_stage4, <- bodies_stage3. reflexivity.
  - apply any_near_iff.
Qed.

End Monitor.

(** A ball at rest on the x axis. *)
Definition ball (name : string) (px r : R) : Body.t :=
  Body.init (IdStr name) 0 px 0 0 0 0 0 1 r 0 0 0 0.

Lemma euclid_balls n n' d r r' :
  0 <= d -> euclid (ball n' d r') (ball n 0 r) = d.
Proof.
  intros Hd. rewrite euclid_dist, dist_on_line by reflexivity.
  cbn [ball Body.init Body.x]. rewrite Rminus_0_l, Rabs_Ropp.
  apply Rabs_right. lra.
Qed.

(** No multiplier other than 30 describes the flag: for every [K] other
    than 30 there is a pair of balls of radius 1/2 on which the flag of
    the code and the test [d <= K * (r_i + r_j)] differ (at distance 30
    for [K < 30], at distance [K] for [K > 30]).  The scan takes nothing
    from the configuration. *)
Lemma C5_counterexample :
  ~ exists K : R,
      K <> 30
      /\ forall sys : list Body.t,
           any_near sys = true <->
           exists i j bi bj, (j < i)%nat
             /\ nth_error sys i = Some bi /\ nth_error sys j = Some bj
             /\ euclid bi bj <= K * (Body.radius bi + Body.radius bj).
Proof.
  intros (K & HK & H).
  assert (Hpair : forall d (i j : nat) bi bj, (j < i)%nat ->
            nth_error [ball "A" 0 (1 / 2); ball "B" d (1 / 2)] i = Some bi ->
            nth_error [ball "A" 0 (1 / 2); ball "B" d (1 / 2)] j = Some bj ->
            bi = ball "B" d (1 / 2) /\ bj = ball "A" 0 (1 / 2)).
  { intros d [|[|i]] [|[|j]] bi bj Hlt Hi Hj; cbn in Hi, Hj; try lia;
      try (destruct i; discriminate); try (destruct j; discriminate).
    split; congruence. }
  destruct (Rlt_dec K 30) as [Hlt|Hge].
  - destruct (H [ball "A" 0 (1 / 2); ball "B" 30 (1 / 2)]) as [H1 _].
    destruct H1 as (i & j & bi & bj & Hij & Hi & Hj & Hd).
    + apply any_near_iff. exists 1%nat, 0%nat, (ball "B" 30 (1 / 2)), (ball "A" 0 (1 / 2)).
      split; [lia|]. split; [reflexivity|]. split; [reflexivity|].
      rewrite distance_euclid, euclid_balls by lra. cbn [ball Body.init Body.radius]. lra.
    + destruct (Hpair 30 i j bi bj Hij Hi Hj) as [-> ->].
      rewrite euclid_balls in Hd by lra. cbn [ball Body.init Body.radius] in Hd. lra.
  - assert (HK30 : 30 < K) by lra.
    destruct (H [ball "A" 0 (1 / 2); ball "B" K (1 / 2)]) as [_ H2].
    assert (Hn : any_near [ball "A" 0 (1 / 2); ball "B" K (1 / 2)] = true).
    { apply H2. exists 1%nat, 0%nat, (ball "B" K (1 / 2)), (ball "A" 0 (1 / 2)).
      split; [lia|]. split; [reflexivity|]. split; [reflexivity|].
      rewrite euclid_balls by lra. cbn [ball Body.init Body.radius]. lra. }
    apply any_near_iff in Hn. destruct Hn as (i & j & bi & bj & Hij & Hi & Hj & Hd).
    destruct (Hpair K i j bi bj Hij Hi Hj) as [-> ->].
    rewrite distance_euclid, euclid_balls in Hd by lra.
    cbn [ball Body.init Body.radius] in Hd. lra.
Qed.

Section Degenerate.

Variable cfg : Config.

(** C3, as the code has it.  When a body [i] shares its coordinates with
    another body, the first such body in list order having index [j], the
    worker of body [i] ends with [ZeroDivisionError] (the division by
    [distance ** 2]; no NaN appears).  The exception ends that thread
    only.  The accumulator of body [i] has been zeroed and holds the
    pulls of the other bodies before [j]; its velocity is not updated.
    The step itself does not fail and rolls nothing back: the exception
    is reported, the workers of the bodies that are alone at their place
    update force and velocity as usual, and the position phase moves
    every body, body [i] with its old velocity. *)
Theorem C3_coincident_bodies (w : World) (i j : nat) (bi bj : Body.t) :
  SAVE_RATE cfg <> 0%Z ->
  nth_error (bodies w) i = Some bi ->
  nth_error (bodies w) j = Some bj ->
  j <> i ->
  same_place bi bj ->
  first_at (bodies w) i bi j ->
  let G := GRAV_CONS cfg in
  let dt := Asystem.DELTA_T (planet_system w) in
  exists bi',
    compute1 cfg i w
    = (set_bodies w (update (bodies w) i bi'), Raise ZeroDivisionError)
    /\ only_F bi bi'
    /\ force_of bi' = vsum (map (newton G bi) (others i (firstn j (bodies w))))
    /\ exists w',
         animate cfg w = (w', Ok tt)
         /\ In ZeroDivisionError (excepthook w')
         /\ (exists tm,
               nth_error (bodies w') i = Some (Body.set_time (moved dt bi') tm))
         /\ (forall k bk,
               nth_error (bodies w) k = Some bk ->
               alone (bodies w) k bk -> Body.mass bk <> 0 ->
               exists tm,
                 nth_error (bodies w') k
                 = Some (Body.set_time
                           (moved dt (accelerated dt
                              (Body.set_F bk (net_x G (bodies w) k bk)
                                 (net_y G (bodies w) k bk) (net_z G (bodies w) k bk))))
                           tm)).
Proof.
  intros Hs Hi Hj Hji Hsame Hfirst G dt.
  destruct (compute1_body_coincident G dt i (bodies w) j bi bj Hji Hj Hsame)
    as [Hraise HF].
  exists (fst (compute1_body G dt i (bodies w) bi)).
  split; [|split; [|split]].
  - rewrite (compute1_local cfg i w bi Hi). fold G dt. now rewrite Hraise.
  - exact HF.
  - now apply (compute1_body_until G dt i (bodies w) bi j bj).
  - exists (stage4 cfg w). split; [|split; [|split]].
    + apply animate_run; [exact Hs|]. eapply nonempty_at; eauto.
    + rewrite excepthook_stage4. apply in_or_app. left. apply in_or_app. right.
      unfold phase1_reports. eapply (in_concat_imap _ _ _ 0%nat i bi Hi).
      cbn [Nat.add]. fold G dt. rewrite Hraise. now left.
    + rewrite bodies_stage4, (stage2_at cfg w i bi Hi). fold G dt.
      destruct (compute2_body_moved dt (SEC_PER_DAY cfg)
                  (fst (compute1_body G dt i (bodies w) bi))) as [tm Htm].
      exists tm. now rewrite Htm.
    + intros k bk Hk Ha Hm.
      rewrite bodies_stage4, (stage2_at cfg w k bk Hk). fold G dt.
      rewrite compute1_body_far by auto. cbn [fst].
      destruct (compute2_body_moved dt (SEC_PER_DAY cfg)
                  (accelerated dt
                     (Body.set_F bk (net_x G (bodies w) k bk)
                        (net_y G (bodies w) k bk) (net_z G (bodies w) k bk))))
        as [tm Htm].
      exists tm. now rewrite Htm.
Qed.

End Degenerate.

(** A system with two bodies at one place, stepped once: the step
    returns normally, the velocity of the third body has changed, and so
    has the force accumulator of a body of the coincident pair. *)
Lemma C3_counterexample :
  same_place ex_A ex_B
  /\ exists w' c' a',
       animate cfg_ex ex_degenerate = (w', Ok tt)
       /\ nth_error (bodies w') 0 = Some c'
       /\ Body.Vx c' = -2 /\ Body.Vx ex_C = 0
       /\ nth_error (bodies w') 1 = Some a'
       /\ Body.Fx a' = 1 /\ Body.Fx ex_A = 0.
Proof.
  split; [unfold same_place; cbn; lra|].
  assert (HC : alone (bodies ex_degenerate) 0 ex_C).
  { intros [|[|[|j]]] other Hj Hn; cbn in Hn; try congruence.
    - injection Hn as <-. unfold same_place. cbn. lra.
    - injection Hn as <-. unfold same_place. cbn. lra.
    - now destruct j. }
  pose proof (stage2_at cfg_ex ex_degenerate 0 ex_C eq_refl) as H0.
  pose proof (stage2_at cfg_ex ex_degenerate 1 ex_A eq_refl) as H1.
  rewrite compute1_body_far in H0 by (auto; cbn; lra).
  rewrite compute2_body_ok in H0, H1 by apply sec_per_day_ex.
  eexists. eexists. eexists.
  split; [apply animate_run; [apply save_rate_ex|discriminate]|].
  rewrite !bodies_stage4.
  split; [exact H0|]. split.
  { cbn [fst Body.set_time moved accelerated Body.set_coord Body.set_pos Body.set_V
         Body.set_F Body.Vx Body.Fx Body.mass].
    unfold net_x. cbn [bodies ex_degenerate boot planet_system Asystem_init
                        Asystem.system List.length range seq Rsum].
    unfold term. cbn [Nat.eqb nth_error].
    rewrite !pull_x_left by (cbn; lra). cbn. field. }
  split; [reflexivity|].
  split; [exact H1|]. split; [|reflexivity].
  cbn [fst Body.set_time moved Body.set_coord Body.set_pos Body.Fx].
  pose proof (compute1_body_until (GRAV_CONS cfg_ex)
                (Asystem.DELTA_T (planet_system ex_degenerate)) 1
                (bodies ex_degenerate) ex_A 2 ex_B) as Hu.
  unfold force_of in Hu.
  assert (Hx : Body.Fx (fst (compute1_body (GRAV_CONS cfg_ex)
                 (Asystem.DELTA_T (planet_system ex_degenerate)) 1
                 (bodies ex_degenerate) ex_A))
               = fst (fst (vsum (map (newton (GRAV_CONS cfg_ex) ex_A)
                                   (others 1 (firstn 2 (bodies ex_degenerate))))))).
  { rewrite <- Hu; [reflexivity| |lia|reflexivity|unfold same_place; cbn; lra].
    intros [|[|k]] other Hk Hk1 Hn; cbn in Hn; try lia.
    injection Hn as <-. unfold same_place. cbn. lra. }
  rewrite Hx. cbn [bodies ex_degenerate boot planet_system Asystem_init
                   Asystem.system firstn others others_from List.length seq combine
                   filter fst snd Nat.eqb negb map vsum fold_right].
  rewrite newton_pull by (unfold same_place; cbn; lra).
  rewrite pull_x_right by (cbn; lra). cbn. field.
Qed.

(* ------------------------------------------------------------------ *)
(** ** The theorems at example systems *)

Lemma C2_force_law_witness :
  ~ same_place ex_P ex_Q /\ norm (unit_to ex_P ex_Q) = 1.
Proof.
  split; [exact ex_P_Q_apart|].
  exact (proj1 (proj2 (C2_force_law cfg_ex ex_pair 0 1 ex_P ex_Q
                         eq_refl eq_refl (n_Sn 0) ex_P_Q_apart))).
Defined.

Lemma C4_semi_implicit_euler_witness :
  0 < Body.mass ex_P
  /\ exists w' b', animate cfg_ex ex_pair = (w', Ok tt)
                   /\ nth_error (bodies w') 0 = Some b'
                   /\ Body.x b' = Body.x ex_P + Body.Vx b' * 1.
Proof.
  assert (Hm : 0 < Body.mass ex_P) by (cbn; lra).
  split; [exact Hm|].
  destruct (proj2 (proj2 (C4_semi_implicit_euler cfg_ex ex_pair 0 ex_P
                            save_rate_ex sec_per_day_ex eq_refl Hm ex_P_alone)))
    as (w' & b' & Hrun & Hb & _ & _ & _ & _ & Hx & _).
  exists w', b'. auto.
Defined.

Lemma ex_first_at : first_at (bodies ex_degenerate) 1 ex_A 2.
Proof.
  intros [|[|k]] other Hk Hk1 Hn; cbn in Hn; try lia.
  injection Hn as <-. unfold same_place. cbn. lra.
Qed.

Lemma ex_A_B_same : same_place ex_A ex_B.
Proof. unfold same_place. cbn. lra. Qed.

Lemma C3_coincident_bodies_witness :
  same_place ex_A ex_B
  /\ exists bi', compute1 cfg_ex 1 ex_degenerate
                 = (set_bodies ex_degenerate (update (bodies ex_degenerate) 1 bi'),
                    Raise ZeroDivisionError).
Proof.
  split; [exact ex_A_B_same|].
  destruct (C3_coincident_bodies cfg_ex ex_degenerate 1 2 ex_A ex_B
              save_rate_ex eq_refl eq_refl (not_eq_sym (n_Sn 1)) ex_A_B_same ex_first_at)
    as (bi' & H & _).
  exists bi'. exact H.
Defined.

Lemma ex_pair_nonempty : bodies ex_pair <> [].
Proof. discriminate. Qed.

Lemma C6_time_step_witness :
  exists w3 w4, animate cfg_ex ex_pair = (w4, Ok tt)
                /\ if_collision cfg_ex (stage2 cfg_ex ex_pair) = (w3, Ok tt)
                /\ Asystem.DELTA_T (planet_system w4) = Asystem.DELTA_T (planet_system w3).
Proof.
  destruct (proj1 (proj2 (C6_time_step cfg_ex ex_pair save_rate_ex ex_pair_nonempty)))
    as (w3 & w4 & H1 & H2 & _ & H3 & _).
  exists w3, w4. auto.
Defined.

Section Conservation.

Variable cfg : Config.

(** C7.  In exact arithmetic the total momentum of an isolated system
    with positive masses is the same after any number of steps (and of
    display calls and keys between them) of a run without collisions:
    the places of the bodies are pairwise distinct at the start of every
    step of the sequence. *)
Theorem C7_momentum (es : list event) (w : World) :
  massive (bodies w) ->
  (forall es1 es2, es = es1 ++ Animate :: es2 ->
     pairwise_apart (bodies (run cfg es1 w))) ->
  momentum (bodies (run cfg es w)) = momentum (bodies w)
  /\ massive (bodies (run cfg es w)).
Proof.
  revert w. induction es as [|e es IH]; intros w Hm Ha.
  - split; [reflexivity|exact Hm].
  - cbn [run fold_left]. fold (run cfg es (exec cfg e w)).
    destruct (IH (exec cfg e w)) as [Hmom Hmass].
    + now apply massive_exec.
    + intros es1 es2 E. apply (Ha (e :: es1) es2). now rewrite E.
    + split; [|exact Hmass]. rewrite Hmom.
      destruct e; cbn [exec].
      * apply animate_momentum; [|exact Hm]. exact (Ha [] es eq_refl).
      * now rewrite bodies_display.
      * reflexivity.
Qed.

End Conservation.

(** Why the places must be distinct at the start of every step.  In this
    system of three bodies with positive masses the first step brings two
    of the bodies to one place (a collision, which the scan reports); the
    second step then starts from coincident bodies, changes the velocity
    of the third body only, and the total momentum with it. *)
Lemma ex_three_second_step :
  massive (bodies ex_three)
  /\ pairwise_apart (bodies ex_three)
  /\ momentum (bodies (run cfg_ex [Animate; Animate] ex_three))
     <> momentum (bodies ex_three).
Proof.
  split; [apply ex_three_massive|]. split; [apply ex_three_apart|].
  cbn [run fold_left exec].
  destruct ex_three_step1 as (u & v & w & Hb & Hu & Hv & Hw).
  set (w1 := fst (animate cfg_ex ex_three)) in *.
  assert (Hdt : Asystem.DELTA_T (planet_system w1) = 1 / 2
                \/ Asystem.DELTA_T (planet_system w1) = 1).
  { unfold w1. rewrite dt_animate by (try apply save_rate_ex; discriminate).
    cbn [ex_three boot init Definition_init Definition_.bool_T negb
         Definition_.NORM_DELTA_T FINE_DELTA_T NORM_DELTA_T cfg_ex].
    destruct (any_near _); auto. }
  set (dt := Asystem.DELTA_T (planet_system w1)) in *.
  rewrite bodies_animate. cbn [SAVE_RATE cfg_ex Z.eqb].
  rewrite bodies_stage2, phase2_momentum, bodies_stage1, Hb. fold dt.
  cbn [phase1_bodies imap].
  destruct Hu as (Hux & Huy & Huz & Huv & Hum).
  destruct Hv as (Hvx & Hvy & Hvz & Hvv & Hvm).
  destruct Hw as (Hwx & Hwy & Hwz & Hwv & Hwm).
  assert (Suv : same_place u v) by (unfold same_place; lra).
  assert (Svu : same_place v u) by (unfold same_place; lra).
  destruct (compute1_body_coincident (GRAV_CONS cfg_ex) dt 0 [u; v; w] 1 u v
              (not_eq_sym (n_Sn 0)) eq_refl Suv) as [_ HFu].
  destruct (compute1_body_coincident (GRAV_CONS cfg_ex) dt 1 [u; v; w] 0 v u
              (n_Sn 0) eq_refl Svu) as [_ HFv].
  unfold only_F in HFu, HFv.
  rewrite HFu, HFv.
  rewrite (compute1_body_far _ dt 2 [u; v; w] w).
  2:{ intros [|[|[|j]]] other Hj Hn; cbn in Hn; try congruence.
      - injection Hn as <-. unfold same_place. lra.
      - injection Hn as <-. unfold same_place. lra.
      - now destruct j. }
  2:{ lra. }
  unfold momentum. intros H. injection H as Hx _ _. revert Hx.
  cbn [fst Rsum accelerated Body.set_V Body.set_F Body.Vx Body.mass Body.Fx
       bodies ex_three boot planet_system Asystem_init Asystem.system].
  unfold net_x, term.
  cbn [List.length range seq Rsum Nat.eqb nth_error].
  rewrite (pull_x_left _ w u), (pull_x_left _ w v) by lra.
  rewrite Hum, Hvm, Hwm, Huv, Hvv, Hwv, Hux, Hvx, Hwx.
  cbn [ex_U ex_V ex_W on_x Body.init Body.Vx Body.mass GRAV_CONS cfg_ex].
  intros Hx. destruct Hdt as [E|E]; rewrite E in Hx; lra.
Qed.

Lemma C7_momentum_witness :
  massive (bodies ex_pair)
  /\ momentum (bodies (run cfg_ex [Animate] ex_pair)) = momentum (bodies ex_pair).
Proof.
  assert (Hm : massive (bodies ex_pair)) by (repeat constructor; cbn; lra).
  split; [exact Hm|].
  refine (proj1 (C7_momentum cfg_ex [Animate] ex_pair Hm _)).
  intros [|e [|e' es1]] es2 E; cbn in E; try discriminate.
  intros [|[|i]] [|[|j]] bi bj Hij Hi Hj; cbn in Hi, Hj;
    try congruence; try (now destruct i); try (now destruct j);
    injection Hi as <-; injection Hj as <-; unfold same_place; cbn; lra.
Defined.

Section ClosestApproach.

Variable str_float : R -> string.
Variable cfg : Config.

(** C9, as the code has it.  For two bodies with string identities and
    at least 3 trajectory samples each, [close_calc] appends a closeness
    event for the pair exactly when the last three distances satisfy
    [d_{-2} > d_{-1}] and [d_{-1} < d_0], and the event carries the
    minimum [d_{-1}].  A step, however, never calls [close_calc] (the
    call in [animate] is commented out): [animate] empties the closeness
    list and leaves it empty, whatever the distances are. *)
Theorem C9_close_calc (w : World) (body1 body2 : Body.t) (s1 s2 : string) :
  (3 <= List.length (Body.coord body1))%nat ->
  (3 <= List.length (Body.coord body2))%nat ->
  Body.ident body1 = IdStr s1 ->
  Body.ident body2 = IdStr s2 ->
  exists d0 d1 d2,
    sample_distance body1 body2 1 = Ok d0
    /\ sample_distance body1 body2 2 = Ok d1
    /\ sample_distance body1 body2 3 = Ok d2
    /\ (d2 > d1 /\ d1 < d0 ->
        close_calc str_float body1 body2 w
        = (add_closeness w (s1 ++ " and " ++ s2 ++ "; " ++ str_float d1)%string,
           Ok true))
    /\ (~ (d2 > d1 /\ d1 < d0) ->
        close_calc str_float body1 body2 w = (w, Ok false))
    /\ Asystem.closeness (planet_system (fst (animate cfg w))) = [].
Proof.
  intros H1 H2 Hs1 Hs2.
  destruct (sample_distance_ok body1 body2 1) as [d0 Hd0]; try lia.
  destruct (sample_distance_ok body1 body2 2) as [d1 Hd1]; try lia.
  destruct (sample_distance_ok body1 body2 3) as [d2 Hd2]; try lia.
  exists d0, d1, d2. repeat (split; [assumption|]).
  split; [|split].
  - intros [Ha Hb].
    rewrite (close_calc_run str_float body1 body2 w d0 d1 d2) by (auto; lia).
    rewrite (proj2 (Rltb_true d1 d0)), (proj2 (Rltb_true d1 d2)) by lra.
    cbn [andb]. unfold closeness_text. rewrite Hs1, Hs2. reflexivity.
  - intros Hn.
    rewrite (close_calc_run str_float body1 body2 w d0 d1 d2) by (auto; lia).
    destruct (Rltb d1 d0) eqn:E0; [|reflexivity].
    destruct (Rltb d1 d2) eqn:E2; [|reflexivity].
    apply Rltb_true in E0, E2. exfalso. apply Hn. lra.
  - apply closeness_animate.
Qed.

End ClosestApproach.

Lemma ex_pair_world : line_world ex_pair ex_P ex_Q 1.
Proof. repeat split. Qed.

Lemma ex_P_line : line_body ex_P 0 0 [].
Proof. repeat split. Qed.

Lemma ex_Q_line : line_body ex_Q 2 0 [].
Proof. repeat split. Qed.

(** Two bodies released at rest fall towards each other and pass each
    other in the third step. *)
Lemma ex_pair_three_steps :
  exists p q,
    bodies (run cfg_ex [Animate; Animate; Animate] ex_pair) = [p; q]
    /\ Body.coord p = samples [1 / 4; 17 / 18; 2975 / 36]
    /\ Body.coord q = samples [7 / 4; 19 / 18; - 2903 / 36].
Proof.
  cbn [run fold_left exec].
  destruct (line_pair_step cfg_ex ex_pair ex_P ex_Q 1 0 0 [] 2 0 []
              (1 / 4) (1 / 4) (7 / 4) (- 1 / 4)
              save_rate_ex sec_per_day_ex ex_pair_world ex_P_line ex_Q_line)
    as (p1 & q1 & Hw1 & Hp1 & Hq1); try (cbn; lra).
  destruct (line_pair_step cfg_ex _ p1 q1 1 _ _ _ _ _ _
              (17 / 18) (25 / 36) (19 / 18) (- 25 / 36)
              save_rate_ex sec_per_day_ex Hw1 Hp1 Hq1)
    as (p2 & q2 & Hw2 & Hp2 & Hq2); try (cbn; lra).
  destruct (line_pair_step cfg_ex _ p2 q2 1 _ _ _ _ _ _
              (2975 / 36) (2941 / 36) (- 2903 / 36) (- 2941 / 36)
              save_rate_ex sec_per_day_ex Hw2 Hp2 Hq2)
    as (p3 & q3 & Hw3 & Hp3 & Hq3); try (cbn; lra).
  exists p3, q3. split; [apply Hw3|]. split; [apply Hp3|apply Hq3].
Qed.

(** After the third step both trajectories have 3 samples and the last
    three distances have a strict minimum in the middle, but the step has
    recorded no closeness event. *)
Lemma C9_counterexample :
  exists p q d0 d1 d2,
    bodies (run cfg_ex [Animate; Animate; Animate] ex_pair) = [p; q]
    /\ List.length (Body.coord p) = 3%nat
    /\ List.length (Body.coord q) = 3%nat
    /\ sample_distance p q 1 = Ok d0
    /\ sample_distance p q 2 = Ok d1
    /\ sample_distance p q 3 = Ok d2
    /\ d2 > d1 /\ d1 < d0
    /\ Asystem.closeness
         (planet_system (run cfg_ex [Animate; Animate; Animate] ex_pair)) = [].
Proof.
  destruct ex_pair_three_steps as (p & q & Hb & Hp & Hq).
  exists p, q. eexists. eexists. eexists.
  split; [exact Hb|].
  split; [now rewrite Hp|]. split; [now rewrite Hq|].
  unfold sample_distance. rewrite Hp, Hq.
  cbn [samples map getitem_neg List.length Nat.leb Nat.sub getitem nth_error and_then].
  split; [reflexivity|]. split; [reflexivity|]. split; [reflexivity|].
  split; [|split].
  - apply sqrt_lt_1_alt. split; [nra|lra].
  - apply sqrt_lt_1_alt. split; [nra|lra].
  - cbn [run fold_left exec]. apply closeness_animate.
Qed.

Lemma C9_close_calc_witness :
  Asystem.closeness (planet_system (fst (animate cfg_ex ex_pair))) = [].
Proof.
  destruct (C9_close_calc (fun _ => "0.0"%string) cfg_ex ex_pair
              (Body.set_coord ex_P (samples [0; 1; 2]))
              (Body.set_coord ex_Q (samples [3; 3; 3])) "P" "Q"
              (le_n 3) (le_n 3) eq_refl eq_refl)
    as (d0 & d1 & d2 & _ & _ & _ & _ & _ & H).
  exact H.
Defined.

Section TrajectoryLengths.

Variable str_float : R -> string.
Variable cfg : Config.

(** C10.  A step appends exactly one sample, the new position, to the
    trajectory of every body.  Hence in every state the program reaches
    from its construction all trajectories have the same length, the
    value of the step counter, which is the number of steps taken (with a
    non-zero [SAVE_RATE] and a non-empty system, where every step
    completes).  In particular, when the first body of a pair has at
    least 3 samples so has the second, and the indexing of [close_calc]
    into both trajectories is in bounds although it tests the first
    length only: [close_calc] does not raise [IndexError]. *)
Theorem C10_trajectory_lengths (sys : list Body.t) (es : list event) :
  Forall fresh sys ->
  let w := run cfg es (boot cfg sys) in
  (SAVE_RATE cfg <> 0%Z ->
   forall i b, nth_error (bodies w) i = Some b ->
     exists w' b',
       animate cfg w = (w', Ok tt)
       /\ nth_error (bodies w') i = Some b'
       /\ Body.coord b' = Body.coord b ++ [(Body.x b', Body.y b', Body.z b')]
       /\ List.length (bodies w') = List.length (bodies w))
  /\ traj_inv w
  /\ (SAVE_RATE cfg <> 0%Z -> sys <> [] ->
      Asystem.count (planet_system w) = Z.of_nat (steps_of es))
  /\ (forall b1 b2, In b1 (bodies w) -> In b2 (bodies w) ->
        List.length (Body.coord b1) = List.length (Body.coord b2)
        /\ ((2 < List.length (Body.coord b1))%nat ->
            (3 <= List.length (Body.coord b2))%nat
            /\ (exists d0 d1 d2,
                  sample_distance b1 b2 1 = Ok d0
                  /\ sample_distance b1 b2 2 = Ok d1
                  /\ sample_distance b1 b2 3 = Ok d2)
            /\ snd (close_calc str_float b1 b2 w) <> Raise IndexError)).
Proof.
  intros Hfresh w.
  assert (Hinv : traj_inv w) by (apply traj_inv_run, traj_inv_boot, Hfresh).
  split; [|split; [exact Hinv|split]].
  - intros Hs i b Hb.
    destruct (coord_stage2 cfg w i b Hb) as (b' & Hb' & Hc).
    exists (stage4 cfg w), b'. split; [|split; [|split]].
    + apply animate_run; [exact Hs|]. eapply nonempty_at; eauto.
    + now rewrite bodies_stage4.
    + exact Hc.
    + now rewrite bodies_stage4, length_stage2.
  - intros Hs Hne. unfold w. rewrite count_run; auto.
  - intros b1 b2 H1 H2.
    pose proof (proj1 (Forall_forall _ _) Hinv b1 H1) as L1.
    pose proof (proj1 (Forall_forall _ _) Hinv b2 H2) as L2.
    cbn beta in L1, L2.
    assert (Hlen : List.length (Body.coord b1) = List.length (Body.coord b2)) by lia.
    split; [exact Hlen|]. intros H3.
    destruct (sample_distance_ok b1 b2 1) as [d0 Hd0]; try lia.
    destruct (sample_distance_ok b1 b2 2) as [d1 Hd1]; try lia.
    destruct (sample_distance_ok b1 b2 3) as [d2 Hd2]; try lia.
    split; [lia|]. split; [eauto 7|].
    rewrite (close_calc_run str_float b1 b2 w d0 d1 d2) by auto.
    destruct (Rltb d1 d0 && Rltb d1 d2); [|discriminate].
    unfold closeness_text.
    destruct (Body.ident b1), (Body.ident b2); discriminate.
Qed.

End TrajectoryLengths.

Lemma ex_pair_fresh : Forall fresh [ex_P; ex_Q].
Proof. repeat constructor. Qed.

Lemma C10_trajectory_lengths_witness :
  Forall fresh [ex_P; ex_Q]
  /\ traj_inv (run cfg_ex [Animate] (boot cfg_ex [ex_P; ex_Q])).
Proof.
  split; [exact ex_pair_fresh|].
  exact (proj1 (proj2 (C10_trajectory_lengths (fun _ => "0.0"%string) cfg_ex
                         [ex_P; ex_Q] [Animate] ex_pair_fresh))).
Defined.

Section PhaseBarrier.

Variable cfg : Config.

(** C1.  A step runs the force-and-velocity threads ([compute1], one per
    body) and joins them all before it starts the position threads
    ([compute2]).  Whatever the schedule of the first phase and at every
    moment of it, each body differs from its state at the start of the
    step in the force accumulator and the velocity only, so its position
    is the one it had at the start, and the rest of the world is
    untouched.  Once all threads have ended the bodies are the same under
    every schedule: each is the result of its own [compute1] reading the
    positions all bodies held at the start of the step.  Positions change
    in the second phase only, which starts from that state. *)
Theorem C1_phase_barrier (w : World) (sched : list nat) :
  let w0 := stage0 cfg w in
  let n := List.length (bodies w) in
  let G := GRAV_CONS cfg in
  let dt := Asystem.DELTA_T (planet_system w) in
  let pool1 := fst (interleave sched (threads1 cfg n) w0) in
  let w1 := snd (interleave sched (threads1 cfg n) w0) in
  (* the threads are the calls of [compute1] *)
  (forall i, (i < n)%nat ->
     compute1 cfg i w0 = for_each (program1 cfg n i) (run_call i) w0)
  (* during the first phase *)
  /\ Forall2 only_FV (bodies w) (bodies w1)
  /\ rest_eq w0 w1
  (* when the threads are joined *)
  /\ (all_joined pool1 -> bodies w1 = bodies (stage1 cfg w))
  /\ (exists sched',
        all_joined (fst (interleave sched' (threads1 cfg n) w0)))
  /\ (forall i b, nth_error (bodies w) i = Some b ->
        nth_error (bodies (stage1 cfg w)) i
        = Some (fst (compute1_body G dt i (bodies w) b)))
  /\ Forall2 only_FV (bodies w) (bodies (stage1 cfg w))
  (* the second phase and the step *)
  /\ bodies (stage2 cfg w) = phase2_bodies dt (SEC_PER_DAY cfg) (bodies (stage1 cfg w))
  /\ bodies (fst (animate cfg w))
     = (if (SAVE_RATE cfg =? 0)%Z then bodies w else bodies (stage2 cfg w)).
Proof.
  intros w0 n G dt pool1 w1.
  assert (Hb0 : bodies w0 = bodies w) by apply bodies_stage0.
  assert (Hn : n = List.length (bodies w0)) by (unfold n; now rewrite Hb0).
  assert (Hdt : Asystem.DELTA_T (planet_system w0) = dt) by apply dt_stage0.
  assert (Hinv : pool_at cfg w0 pool1 w1).
  { unfold pool1, w1. rewrite Hn. apply pool_at_interleave, pool_at_start. }
  destruct (pool_at_frame cfg w0 pool1 w1 Hinv) as [Hfr Hrest].
  split; [|split; [|split; [|split; [|split; [|split; [|split; [|split]]]]]]].
  - intros i Hi. rewrite Hn. apply compute1_program. now rewrite <- Hn.
  - now rewrite <- Hb0.
  - exact Hrest.
  - intros Hj. rewrite (pool_at_joined cfg w0 pool1 w1 Hinv Hj).
    now rewrite bodies_stage1, Hb0, Hdt.
  - exists (one_by_one (n + 2) (range n)). apply some_schedule_joins.
  - intros i b Hb. now apply stage1_at.
  - rewrite bodies_stage1. apply Forall2_pointwise.
    + now rewrite length_phase1_bodies.
    + intros i a b Ha Hb. unfold phase1_bodies in Hb.
      rewrite nth_error_imap, Ha in Hb. injection Hb as <-.
      apply compute1_body_only_FV.
  - apply bodies_stage2.
  - apply bodies_animate.
Qed.

End PhaseBarrier.

Section SnapshotRoundTrip.

Variable str_float : R -> string.
Variable float_of_string : string -> option R.
Variable int_of_string : string -> option Z.

(** C8, as the code has it.  The snapshot text is one record line per
    body, in system order and in the field order of the input record,
    followed by a ["Collisions: "] line, a ["Closeness: "] line and an
    empty line.  [read_from_file] takes every line whose first field is
    not the header token for a body record, so reading a snapshot back
    (whatever precedes it in the file) raises and builds no system.  A
    record line on its own is read back as a new body with the same time,
    position, velocity, mass, radius, colors and texture, and with the
    text of the identity as identity, when the built-ins round-trip on
    its fields and the identity has no comma and is not the header
    token. *)
Theorem C8_snapshot_read_back (prefix : string) (self : Asystem.t) :
  write_to_file_data str_float self
  = (join (map (body_data str_float) (Asystem.system self))
     ++ "Collisions: " ++ Asystem.collisions self ++ nl
     ++ "Closeness: "
     ++ drop_last2 (join (map (fun i => i ++ ", ") (Asystem.closeness self)))
     ++ nl ++ nl)%string
  /\ (exists e,
        read_from_file float_of_string int_of_string
          (prefix ++ write_to_file_data str_float self) = Raise e)
  /\ (forall body,
        record_round_trips str_float float_of_string int_of_string body ->
        read_line float_of_string int_of_string (body_data str_float body)
        = Ok (Some (read_back body))).
Proof.
  split; [|split].
  - unfold write_to_file_data. now rewrite !append_assoc.
  - apply read_back_raises.
  - apply read_line_body_data.
Qed.

End SnapshotRoundTrip.

(** No choice of the built-ins lets [read_from_file] build a system from
    the snapshot of the two-body system. *)
Lemma C8_counterexample :
  ~ exists (str_float : R -> string) (float_of_string : string -> option R)
           (int_of_string : string -> option Z) (l : list Body.t),
      read_from_file float_of_string int_of_string
        (write_to_file_data str_float (planet_system ex_pair)) = Ok l.
Proof.
  intros (sf & fs & is_ & l & H).
  destruct (read_back_raises sf fs is_ EmptyString (planet_system ex_pair)) as [e He].
  cbn [append] in He. rewrite He in H. discriminate.
Qed.

(** The conditions of the record round trip can be met: a body whose
    numbers are all 1, with [str(1.0) = "1.0"]. *)
Lemma ex_unit_round_trips :
  record_round_trips (fun _ => "1.0"%string)
    (fun s => if String.eqb s " 1.0" then Some 1 else None)
    (fun s => if String.eqb s (" 0" ++ nl) then Some 0%Z else None)
    ex_unit.
Proof.
  unfold record_round_trips, float_round_trips.
  split; [reflexivity|]. split; [discriminate|].
  split; [repeat constructor|reflexivity].
Qed.

Lemma C8_snapshot_read_back_witness :
  read_line (fun s => if String.eqb s " 1.0" then Some 1 else None)
    (fun s => if String.eqb s (" 0" ++ nl) then Some 0%Z else None)
    (body_data (fun _ => "1.0"%string) ex_unit)
  = Ok (Some (read_back ex_unit)).
Proof.
  exact (proj2 (proj2 (C8_snapshot_read_back (fun _ => "1.0"%string)
                         (fun s => if String.eqb s " 1.0" then Some 1 else None)
                         (fun s => if String.eqb s (" 0" ++ nl) then Some 0%Z else None)
                         EmptyString (planet_system ex_pair)))
           ex_unit ex_unit_round_trips).
Defined.

(* ================================================================== *)
(** * Further properties of the code *)

(* ------------------------------------------------------------------ *)
(** ** Workers, forces and the edges of a step *)

Lemma compute1_body_force G dt i sys b :
  alone sys i b ->
  force_of (fst (compute1_body G dt i sys b))
  = (net_x G sys i b, net_y G sys i b, net_z G sys i b).
Proof.
  intros Ha. unfold compute1_body.
  rewrite run_bind. unfold Body.zeroF, modify. rewrite run_bind.
  rewrite forces_far by (auto using range_in_range).
  rewrite cal_velocity_force. unfold force_of. cbn [Body.set_F Body.Fx Body.Fy Body.Fz].
  now rewrite !Rplus_0_l.
Qed.

Lemma concat_imap_nil {A B} (g : nat -> A -> list B) : forall l k,
  (forall i a, nth_error l i = Some a -> g (k + i)%nat a = []) ->
  List.concat (imap g k l) = [].
Proof.
  induction l as [|a l IH]; intros k H; [reflexivity|].
  cbn [imap List.concat].
  rewrite <- (Nat.add_0_r k) at 1. rewrite (H 0%nat a eq_refl). cbn [app].
  apply IH. intros i a' Ha'. rewrite Nat.add_succ_l, <- Nat.add_succ_r.
  exact (H (S i) a' Ha').
Qed.

Lemma vsum_forces (l : list Body.t) :
  vsum (map force_of l) = (Rsum l Body.Fx, Rsum l Body.Fy, Rsum l Body.Fz).
Proof. exact (vsum_components l Body.Fx Body.Fy Body.Fz). Qed.

Section Workers.

Variable cfg : Config.

(** X1.  Newton's third law in [cal_netforce]: for two bodies at
    distinct places, what the call adds to the accumulator of the one is
    the opposite of what it adds to the accumulator of the other. *)
Theorem X1_third_law (a b : Body.t) :
  ~ same_place a b ->
  exists a' b',
    Body.cal_netforce (GRAV_CONS cfg) b a = (a', Ok tt)
    /\ Body.cal_netforce (GRAV_CONS cfg) a b = (b', Ok tt)
    /\ Body.Fx a' - Body.Fx a = - (Body.Fx b' - Body.Fx b)
    /\ Body.Fy a' - Body.Fy a = - (Body.Fy b' - Body.Fy b)
    /\ Body.Fz a' - Body.Fz a = - (Body.Fz b' - Body.Fz b).
Proof.
  intros H.
  assert (H' : ~ same_place b a).
  { intros (Hx & Hy & Hz). apply H. repeat split; auto. }
  exists (pulled (GRAV_CONS cfg) a b), (pulled (GRAV_CONS cfg) b a).
  split; [now apply cal_netforce_far|]. split; [now apply cal_netforce_far|].
  unfold pulled. cbn [Body.set_F Body.Fx Body.Fy Body.Fz].
  rewrite (gd_sym (GRAV_CONS cfg) b a). repeat split; ring.
Qed.

(** X2.  After a step that starts with the bodies at pairwise distinct
    places, the force accumulators of the system add up to zero in
    every component. *)
Theorem X2_forces_cancel (w : World) :
  SAVE_RATE cfg <> 0%Z ->
  pairwise_apart (bodies w) ->
  vsum (map force_of (bodies (fst (animate cfg w)))) = (0, 0, 0).
Proof.
  intros Hs Ha. rewrite bodies_animate.
  destruct (Z.eqb_spec (SAVE_RATE cfg) 0) as [E|_]; [contradiction|].
  rewrite bodies_stage2. unfold phase2_bodies. rewrite map_map.
  rewrite (map_ext _ force_of).
  2:{ intros b. destruct (compute2_body_moved (Asystem.DELTA_T (planet_system w))
                            (SEC_PER_DAY cfg) b) as [tm ->]. reflexivity. }
  rewrite bodies_stage1, vsum_forces.
  set (G := GRAV_CONS cfg). set (dt := Asystem.DELTA_T (planet_system w)).
  set (sys := bodies w) in *.
  assert (Hsum : forall (p : Body.t -> Body.t -> R) (f : Body.t -> R),
             (forall a b, p a b = - p b a) ->
             (forall i b, nth_error sys i = Some b ->
                f (fst (compute1_body G dt i sys b))
                = Rsum (range (List.length sys)) (term p sys i b)) ->
             Rsum (phase1_bodies G dt sys) f = 0).
  { intros p f Hp Hf. unfold phase1_bodies.
    rewrite (Rsum_imap_index _ _ sys []). cbn [List.length app].
    etransitivity; [|exact (net_total_zero p sys Hp)]. apply Rsum_ext.
    intros i _. destruct (nth_error sys i) as [b|] eqn:E; [|reflexivity].
    now apply Hf. }
  assert (Hf : forall i b, nth_error sys i = Some b ->
             force_of (fst (compute1_body G dt i sys b))
             = (net_x G sys i b, net_y G sys i b, net_z G sys i b)).
  { intros i b Hb. apply compute1_body_force. now apply pairwise_apart_alone. }
  f_equal; [f_equal|].
  - apply (Hsum (pull_x G)); [apply pull_x_antisym|].
    intros i b Hb. specialize (Hf i b Hb). unfold force_of in Hf. now injection Hf.
  - apply (Hsum (pull_y G)); [apply pull_y_antisym|].
    intros i b Hb. specialize (Hf i b Hb). unfold force_of in Hf. now injection Hf.
  - apply (Hsum (pull_z G)); [apply pull_z_antisym|].
    intros i b Hb. specialize (Hf i b Hb). unfold force_of in Hf. now injection Hf.
Qed.

(** X4.  With [SEC_PER_DAY = 0] a worker of the second phase raises
    [ZeroDivisionError] after it has moved its body: position and
    trajectory are advanced, the time-stamp is not. *)
Theorem X4_compute2_zero_day (w : World) (i : nat) (b : Body.t) :
  SEC_PER_DAY cfg = 0 ->
  nth_error (bodies w) i = Some b ->
  let dt := Asystem.DELTA_T (planet_system w) in
  exists b',
    compute2 cfg i w = (set_bodies w (update (bodies w) i b'), Raise ZeroDivisionError)
    /\ Body.x b' = Body.x b + Body.Vx b * dt
    /\ Body.y b' = Body.y b + Body.Vy b * dt
    /\ Body.z b' = Body.z b + Body.Vz b * dt
    /\ Body.coord b' = Body.coord b ++ [(Body.x b', Body.y b', Body.z b')]
    /\ Body.time b' = Body.time b.
Proof.
  intros Hsec Hb dt. exists (moved dt b).
  rewrite (compute2_local cfg i w b Hb). fold dt.
  rewrite compute2_body_zero by exact Hsec. repeat split.
Qed.

(** X5.  With [SAVE_RATE = 0] every call of [animate] raises
    [ZeroDivisionError] at the test [count % SAVE_RATE], before any
    thread is started: bodies, step counter, time step and output file
    are as before; only the closeness list has been emptied. *)
Theorem X5_animate_save_rate_zero (w : World) :
  SAVE_RATE cfg = 0%Z ->
  exists w',
    animate cfg w = (w', Raise ZeroDivisionError)
    /\ bodies w' = bodies w
    /\ Asystem.count (planet_system w') = Asystem.count (planet_system w)
    /\ Asystem.DELTA_T (planet_system w') = Asystem.DELTA_T (planet_system w)
    /\ write_file w' = write_file w
    /\ excepthook w' = excepthook w
    /\ Asystem.closeness (planet_system w') = [].
Proof.
  intros Hs. eexists. split; [now apply animate_save_rate_zero|]. repeat split.
Qed.

(** X6.  On an empty system [animate] raises [IndexError] (from
    [display], which reads [system[0]]) and the step counter is not
    incremented; the snapshot at the start of the step is still written
    when the counter is a multiple of [SAVE_RATE]. *)
Theorem X6_animate_empty (w : World) :
  SAVE_RATE cfg <> 0%Z ->
  bodies w = [] ->
  exists w',
    animate cfg w = (w', Raise IndexError)
    /\ bodies w' = []
    /\ Asystem.count (planet_system w') = Asystem.count (planet_system w)
    /\ List.length (write_file w')
       = (List.length (write_file w)
          + if (Z.modulo (Asystem.count (planet_system w)) (SAVE_RATE cfg) =? 0)%Z
            then 1 else 0)%nat.
Proof.
  intros Hs Hb. exists (stage2 cfg w).
  split; [now apply animate_empty|]. split; [|split].
  - apply length_zero_iff_nil. now rewrite length_stage2, Hb.
  - apply count_stage2.
  - unfold stage2. rewrite phase2_run. cbn [fst write_file set_excepthook set_bodies
      set_planet_system].
    unfold stage1. rewrite phase1_run. cbn [fst write_file set_excepthook set_bodies
      set_planet_system].
    unfold stage0. destruct (_ =? _)%Z; cbn [write_file set_write_file set_planet_system].
    + rewrite length_app. reflexivity.
    + lia.
Qed.

End Workers.

(** Example data for the edges: a configuration with no seconds in a day,
    one that never saves, and the system without bodies. *)
Definition cfg_zero_day : Config := mkConfig 1 1 (1 / 2) 0 10.
Definition cfg_zero_rate : Config := mkConfig 1 1 (1 / 2) 86400 0.
Definition ex_none : World := boot cfg_ex [].

Lemma ex_pair_apart : pairwise_apart (bodies ex_pair).
Proof.
  intros [|[|i]] [|[|j]] bi bj Hij Hi Hj; cbn in Hi, Hj;
    try congruence; try (now destruct i); try (now destruct j);
    injection Hi as <-; injection Hj as <-; unfold same_place; cbn; lra.
Qed.

Lemma X1_third_law_witness :
  ~ same_place ex_P ex_Q
  /\ exists a' b',
       Body.cal_netforce (GRAV_CONS cfg_ex) ex_Q ex_P = (a', Ok tt)
       /\ Body.cal_netforce (GRAV_CONS cfg_ex) ex_P ex_Q = (b', Ok tt)
       /\ Body.Fx a' - Body.Fx ex_P = - (Body.Fx b' - Body.Fx ex_Q).
Proof.
  split; [exact ex_P_Q_apart|].
  destruct (X1_third_law cfg_ex ex_P ex_Q ex_P_Q_apart) as (a' & b' & Ha & Hb & Hx & _).
  exists a', b'. auto.
Defined.

Lemma X2_forces_cancel_witness :
  pairwise_apart (bodies ex_pair)
  /\ vsum (map force_of (bodies (fst (animate cfg_ex ex_pair)))) = (0, 0, 0).
Proof.
  split; [exact ex_pair_apart|].
  exact (X2_forces_cancel cfg_ex ex_pair save_rate_ex ex_pair_apart).
Defined.

Lemma X4_compute2_zero_day_witness :
  SEC_PER_DAY cfg_zero_day = 0
  /\ exists b',
       compute2 cfg_zero_day 1 ex_pair
       = (set_bodies ex_pair (update (bodies ex_pair) 1 b'), Raise ZeroDivisionError)
       /\ Body.time b' = Body.time ex_Q.
Proof.
  split; [reflexivity|].
  destruct (X4_compute2_zero_day cfg_zero_day ex_pair 1 ex_Q eq_refl eq_refl)
    as (b' & H & _ & _ & _ & _ & Ht).
  exists b'. auto.
Defined.

Lemma X5_animate_save_rate_zero_witness :
  SAVE_RATE cfg_zero_rate = 0%Z
  /\ exists w', animate cfg_zero_rate ex_pair = (w', Raise ZeroDivisionError)
                /\ bodies w' = bodies ex_pair.
Proof.
  split; [reflexivity|].
  destruct (X5_animate_save_rate_zero cfg_zero_rate ex_pair eq_refl) as (w' & H & Hb & _).
  exists w'. auto.
Defined.

Lemma X6_animate_empty_witness :
  bodies ex_none = []
  /\ exists w', animate cfg_ex ex_none = (w', Raise IndexError)
                /\ List.length (write_file w') = 1%nat.
Proof.
  split; [reflexivity|].
  destruct (X6_animate_empty cfg_ex ex_none save_rate_ex eq_refl) as (w' & H & _ & _ & Hl).
  exists w'. auto.
Defined.

(* ------------------------------------------------------------------ *)
(** ** The pause, the thread reports and the choice of the step *)

Lemma only_F_zero b : only_F b (Body.set_F b 0 0 0).
Proof. reflexivity. Qed.

Lemma cal_velocity_paused b : fst (Body.cal_velocity 0 b) = b.
Proof.
  destruct (Req_dec_T (Body.mass b) 0) as [H|H].
  - now rewrite cal_velocity_massless.
  - rewrite cal_velocity_ok by exact H. cbn [fst]. unfold accelerated.
    replace (Body.Vx b + Body.Fx b * 0 / Body.mass b) with (Body.Vx b)
      by (unfold Rdiv; ring).
    replace (Body.Vy b + Body.Fy b * 0 / Body.mass b) with (Body.Vy b)
      by (unfold Rdiv; ring).
    replace (Body.Vz b + Body.Fz b * 0 / Body.mass b) with (Body.Vz b)
      by (unfold Rdiv; ring).
    now destruct b.
Qed.

Lemma compute1_body_paused G i sys b : only_F b (fst (compute1_body G 0 i sys b)).
Proof.
  unfold compute1_body. rewrite run_bind. unfold Body.zeroF, modify. rewrite run_bind.
  pose proof (forces_only_F G i sys (range (List.length sys)) (Body.set_F b 0 0 0)) as H.
  destruct (forces G i sys (range (List.length sys)) (Body.set_F b 0 0 0))
    as [b2 [[]|e]]; cbn [fst] in *.
  - rewrite cal_velocity_paused. eapply only_F_trans; [apply only_F_zero|exact H].
  - eapply only_F_trans; [apply only_F_zero|exact H].
Qed.

Lemma compute2_body_paused sec b :
  fst (compute2_body 0 sec b)
  = Body.set_coord b (Body.coord b ++ [(Body.x b, Body.y b, Body.z b)]).
Proof.
  assert (Hm : moved 0 b
               = Body.set_coord b (Body.coord b ++ [(Body.x b, Body.y b, Body.z b)])).
  { unfold moved. cbv zeta. rewrite !Rmult_0_r, !Rplus_0_r. now destruct b. }
  destruct (Req_dec_T sec 0) as [H|H].
  - rewrite compute2_body_zero by exact H. exact Hm.
  - rewrite compute2_body_ok by exact H. cbn [fst]. rewrite Hm.
    replace (Body.time b + 0 / sec) with (Body.time b) by (unfold Rdiv; ring).
    now destruct b.
Qed.

Lemma compute1_body_massless G dt i sys b :
  alone sys i b -> Body.mass b = 0 ->
  snd (compute1_body G dt i sys b) = Raise ZeroDivisionError.
Proof.
  intros Ha Hm. unfold compute1_body.
  rewrite run_bind. unfold Body.zeroF, modify. rewrite run_bind.
  rewrite forces_far by (auto using range_in_range).
  now rewrite cal_velocity_massless.
Qed.

Lemma concat_imap_nil_inv {A B} (g : nat -> A -> list B) l k i a :
  List.concat (imap g k l) = [] -> nth_error l i = Some a -> g (k + i)%nat a = [].
Proof.
  intros H Ha. destruct (g (k + i)%nat a) as [|e t] eqn:E; [reflexivity|].
  assert (Hin : In e (List.concat (imap g k l))).
  { apply (in_concat_imap g e l k i a Ha). rewrite E. now left. }
  rewrite H in Hin. contradiction.
Qed.

Lemma concat_map_nil {A B} (g : A -> list B) l :
  (forall a, In a l -> g a = []) -> List.concat (map g l) = [].
Proof.
  induction l as [|a l IH]; intros H; [reflexivity|].
  cbn [map List.concat]. rewrite (H a) by (now left). apply IH.
  intros a' Ha'. apply H. now right.
Qed.

Lemma join_nonempty s l : In s l -> s <> EmptyString -> join l <> EmptyString.
Proof.
  induction l as [|a l IH]; intros Hin Hs; [contradiction|].
  unfold join. cbn [fold_right]. destruct Hin as [->|Hin].
  - destruct s; [congruence|discriminate].
  - destruct a; [exact (IH Hin Hs)|discriminate].
Qed.

Lemma collision_text_nonempty bi bj : collision_text bi bj <> EmptyString.
Proof.
  unfold collision_text. destruct (str_id (Body.ident bi)); discriminate.
Qed.

Lemma distance_nonneg bi bj : 0 <= distance bi bj.
Proof. apply sqrt_pos. Qed.

Lemma keyboard_space d :
  Definition_.keyboard " " d
  = Definition_.mk (negb (Definition_.bool_T d)) (Definition_.NORM_DELTA_T d).
Proof. reflexivity. Qed.

Section Pause.

Variable cfg : Config.

Lemma paused_at (w : World) (i : nat) (b : Body.t) :
  SAVE_RATE cfg <> 0%Z ->
  Asystem.DELTA_T (planet_system w) = 0 ->
  nth_error (bodies w) i = Some b ->
  exists fx fy fz,
    nth_error (bodies (fst (animate cfg w))) i
    = Some (Body.set_coord (Body.set_F b fx fy fz)
              (Body.coord b ++ [(Body.x b, Body.y b, Body.z b)])).
Proof.
  intros Hs Hdt Hb. rewrite bodies_animate.
  destruct (Z.eqb_spec (SAVE_RATE cfg) 0) as [E|_]; [contradiction|].
  rewrite (stage2_at cfg w i b Hb), Hdt, compute2_body_paused.
  pose proof (compute1_body_paused (GRAV_CONS cfg) i (bodies w) b) as H.
  set (b1 := fst (compute1_body (GRAV_CONS cfg) 0 i (bodies w) b)) in *.
  exists (Body.Fx b1), (Body.Fy b1), (Body.Fz b1).
  unfold only_F in H. rewrite H at 1 2 3 4 5. reflexivity.
Qed.

(** X7.  A step taken with [DELTA_T = 0] (the pause) moves nothing: every
    body keeps position, velocity, time-stamp and all other attributes
    but the force accumulator, whatever the masses and places are.  The
    trajectory still gets one more sample, a copy of the position, and
    the step counter is still incremented. *)
Theorem X7_paused_step (w : World) (i : nat) (b : Body.t) :
  SAVE_RATE cfg <> 0%Z ->
  Asystem.DELTA_T (planet_system w) = 0 ->
  nth_error (bodies w) i = Some b ->
  (exists fx fy fz,
     nth_error (bodies (fst (animate cfg w))) i
     = Some (Body.set_coord (Body.set_F b fx fy fz)
               (Body.coord b ++ [(Body.x b, Body.y b, Body.z b)])))
  /\ Asystem.count (planet_system (fst (animate cfg w)))
     = (Asystem.count (planet_system w) + 1)%Z.
Proof.
  intros Hs Hdt Hb. split; [now apply paused_at|].
  rewrite animate_run; [|exact Hs|eapply nonempty_at; eauto].
  apply count_stage4.
Qed.

(** X8.  The pause key acts one step late.  A key changes [init] only,
    and a step reads the time step that the previous step or display
    call left in [planet_system.DELTA_T]: the step after any key moves
    the bodies as it would have without the key.  After space on a
    running simulation that step leaves [DELTA_T = 0], and the step after
    it moves nothing. *)
Theorem X8_pause_key (w : World) (k : ascii) :
  SAVE_RATE cfg <> 0%Z ->
  bodies w <> [] ->
  Definition_.bool_T (init w) = true ->
  let w1 := run cfg [Key " "%char; Animate] w in
  bodies (run cfg [Key k; Animate] w) = bodies (run cfg [Animate] w)
  /\ Asystem.DELTA_T (planet_system w1) = 0
  /\ (forall i b, nth_error (bodies w1) i = Some b ->
        exists fx fy fz,
          nth_error (bodies (run cfg [Animate] w1)) i
          = Some (Body.set_coord (Body.set_F b fx fy fz)
                    (Body.coord b ++ [(Body.x b, Body.y b, Body.z b)]))).
Proof.
  intros Hs Hne Hrun w1. split; [|split].
  - cbn [run fold_left exec]. rewrite !bodies_animate.
    destruct (SAVE_RATE cfg =? 0)%Z; [reflexivity|].
    now rewrite !bodies_stage2, !bodies_stage1.
  - unfold w1. cbn [run fold_left exec].
    rewrite dt_animate by assumption.
    cbn [init set_init]. rewrite keyboard_space. cbn [Definition_.bool_T].
    now rewrite Hrun.
  - intros i b Hb. cbn [run fold_left exec]. apply paused_at; [exact Hs| |exact Hb].
    unfold w1. cbn [run fold_left exec].
    rewrite dt_animate by assumption.
    cbn [init set_init]. rewrite keyboard_space. cbn [Definition_.bool_T].
    now rewrite Hrun.
Qed.

(** X9.  What a quiet step tells.  When a step on a non-empty system
    ends without any thread having raised, the places of the bodies were
    pairwise distinct, no mass was zero and [SEC_PER_DAY] is not zero:
    each of these defects makes a worker raise (two bodies at one place
    and a zero mass in the first phase, a zero [SEC_PER_DAY] in the
    second). *)
Theorem X9_quiet_step (w : World) :
  SAVE_RATE cfg <> 0%Z ->
  bodies w <> [] ->
  excepthook (fst (animate cfg w)) = excepthook w ->
  pairwise_apart (bodies w)
  /\ Forall (fun b => Body.mass b <> 0) (bodies w)
  /\ SEC_PER_DAY cfg <> 0.
Proof.
  intros Hs Hne. rewrite animate_run by assumption. cbn [fst].
  rewrite excepthook_stage4, <- app_assoc.
  set (G := GRAV_CONS cfg). set (dt := Asystem.DELTA_T (planet_system w)).
  intros H. rewrite <- (app_nil_r (excepthook w)) in H at 2.
  apply app_inv_head in H. apply app_eq_nil in H. destruct H as [H1 H2].
  assert (Hap : pairwise_apart (bodies w)).
  { intros i j bi bj Hij Hi Hj Hsame.
    destruct (compute1_body_coincident G dt i (bodies w) j bi bj
                (not_eq_sym Hij) Hj Hsame) as [Hr _].
    pose proof (concat_imap_nil_inv _ _ 0%nat i bi H1 Hi) as Hq.
    cbn [Nat.add] in Hq. fold G dt in Hq. rewrite Hr in Hq. discriminate. }
  split; [exact Hap|]. split.
  - apply Forall_forall. intros b Hin Hm.
    apply In_nth_error in Hin. destruct Hin as [i Hi].
    pose proof (concat_imap_nil_inv _ _ 0%nat i b H1 Hi) as Hq.
    cbn [Nat.add] in Hq. fold G dt in Hq.
    rewrite compute1_body_massless in Hq; [discriminate| |exact Hm].
    now apply pairwise_apart_alone.
  - intros Hsec. unfold phase2_reports in H2.
    pose proof (length_phase1_bodies G dt (bodies w)) as Hl.
    rewrite bodies_stage1 in H2. fold G dt in H2.
    destruct (phase1_bodies G dt (bodies w)) as [|b l].
    + destruct (bodies w); [congruence|discriminate].
    + cbn [map List.concat] in H2.
      rewrite compute2_body_zero in H2 by exact Hsec. discriminate.
Qed.

(** X10.  A collision always selects the fine step.  When some pair of
    bodies is within the sum of its radii and the simulation is not
    paused, [if_collision] sets [DELTA_T] to [FINE_DELTA_T] and writes a
    snapshot at once, and that snapshot carries a collision text. *)
Theorem X10_collision_fine_step (w : World) (i j : nat) (bi bj : Body.t) :
  (j < i)%nat ->
  nth_error (bodies w) i = Some bi ->
  nth_error (bodies w) j = Some bj ->
  distance bi bj <= Body.radius bi + Body.radius bj ->
  Definition_.bool_T (init w) = true ->
  exists w',
    if_collision cfg w = (w', Ok tt)
    /\ Asystem.DELTA_T (planet_system w') = FINE_DELTA_T cfg
    /\ write_file w' = write_file w ++ [planet_system w']
    /\ Asystem.collisions (planet_system w') <> EmptyString.
Proof.
  intros Hji Hi Hj Hd Hrun.
  assert (Hnear : any_near (bodies w) = true).
  { apply any_near_iff. exists i, j, bi, bj. repeat split; auto.
    pose proof (distance_nonneg bi bj). lra. }
  eexists. split; [apply if_collision_run|].
  rewrite Hnear. unfold next_step.
  change (init (scanned w)) with (init w). rewrite Hrun. cbn [negb].
  split; [reflexivity|]. split; [reflexivity|].
  change (join (map (pair_text (bodies w)) (collision_events (bodies w)))
          <> EmptyString).
  apply (join_nonempty (pair_text (bodies w) (i, j))).
  - apply in_map. apply in_collision_events. split; [exact Hji|]. eauto.
  - unfold pair_text. rewrite (at_pair_some _ _ _ i j bi bj Hi Hj).
    apply collision_text_nonempty.
Qed.

End Pause.

(** The two-body system with the time step at 0. *)
Definition ex_paused : World := set_dt ex_pair 0.

Lemma ex_pair_masses : Forall (fun b => Body.mass b <> 0) (bodies ex_pair).
Proof. repeat constructor; cbn; lra. Qed.

Lemma ex_B_A_touch : distance ex_B ex_A <= Body.radius ex_B + Body.radius ex_A.
Proof.
  assert (H : distance ex_B ex_A = 0).
  { unfold distance, ex_B, ex_A, on_x, Body.init. cbn [Body.x Body.y Body.z].
    match goal with |- sqrt ?e = 0 => replace e with 0 by ring end.
    apply sqrt_0. }
  rewrite H. cbn. lra.
Qed.

Lemma X7_paused_step_witness :
  Asystem.DELTA_T (planet_system ex_paused) = 0
  /\ Asystem.count (planet_system (fst (animate cfg_ex ex_paused))) = 1%Z.
Proof.
  split; [reflexivity|].
  exact (proj2 (X7_paused_step cfg_ex ex_paused 0 ex_P save_rate_ex eq_refl eq_refl)).
Defined.

Lemma X8_pause_key_witness :
  Definition_.bool_T (init ex_pair) = true
  /\ Asystem.DELTA_T (planet_system (run cfg_ex [Key " "%char; Animate] ex_pair)) = 0.
Proof.
  split; [reflexivity|].
  exact (proj1 (proj2 (X8_pause_key cfg_ex ex_pair " "%char
                         save_rate_ex ex_pair_nonempty eq_refl))).
Defined.

(** The step of the two-body system is quiet. *)
Lemma ex_pair_quiet : excepthook (fst (animate cfg_ex ex_pair)) = excepthook ex_pair.
Proof.
  rewrite animate_run by (try apply save_rate_ex; discriminate). cbn [fst].
  rewrite excepthook_stage4, <- app_assoc.
  rewrite <- (app_nil_r (excepthook ex_pair)) at 2. f_equal.
  unfold phase1_reports, phase2_reports.
  rewrite concat_imap_nil, concat_map_nil; [reflexivity| |].
  - intros b _. now rewrite compute2_body_ok by apply sec_per_day_ex.
  - intros i b Hb. cbn [Nat.add]. rewrite compute1_body_far; [reflexivity| |].
    + apply pairwise_apart_alone; [exact ex_pair_apart|exact Hb].
    + apply (proj1 (Forall_forall _ _) ex_pair_masses). eapply nth_error_In; eauto.
Qed.

Lemma X9_quiet_step_witness :
  excepthook (fst (animate cfg_ex ex_pair)) = excepthook ex_pair
  /\ pairwise_apart (bodies ex_pair)
  /\ SEC_PER_DAY cfg_ex <> 0.
Proof.
  split; [exact ex_pair_quiet|].
  destruct (X9_quiet_step cfg_ex ex_pair save_rate_ex ex_pair_nonempty ex_pair_quiet)
    as (Ha & _ & Hsec).
  split; [exact Ha|exact Hsec].
Defined.

Lemma X10_collision_fine_step_witness :
  distance ex_B ex_A <= Body.radius ex_B + Body.radius ex_A
  /\ exists w', if_collision cfg_ex ex_degenerate = (w', Ok tt)
                /\ Asystem.DELTA_T (planet_system w') = FINE_DELTA_T cfg_ex.
Proof.
  split; [exact ex_B_A_touch|].
  destruct (X10_collision_fine_step cfg_ex ex_degenerate 2 1 ex_B ex_A
              (le_n 2) eq_refl eq_refl ex_B_A_touch eq_refl) as (w' & H & Hdt & _).
  exists w'. auto.
Defined.

(* ------------------------------------------------------------------ *)
(** ** Closest approach and the text of a snapshot: the edges *)

Lemma string_length_append s t :
  String.length (s ++ t) = (String.length s + String.length t)%nat.
Proof. induction s; cbn; auto. Qed.

Lemma substring_prefix s t n :
  substring 0 (String.length s + n) (s ++ t) = (s ++ substring 0 n t)%string.
Proof.
  induction s as [|a s IH]; cbn [String.length Nat.add append]; [reflexivity|].
  cbn [substring]. now rewrite IH.
Qed.

Lemma drop_last2_app p r :
  (2 <= String.length r)%nat -> drop_last2 (p ++ r) = (p ++ drop_last2 r)%string.
Proof.
  intros H. unfold drop_last2. rewrite string_length_append.
  replace (String.length p + String.length r - 2)%nat
    with (String.length p + (String.length r - 2))%nat by lia.
  apply substring_prefix.
Qed.

Lemma join_cons a l : join (a :: l) = (a ++ join l)%string.
Proof. reflexivity. Qed.

(** The cut of the last two characters takes the separator after the
    last element away, and nothing from the empty text. *)
Lemma closeness_line l :
  drop_last2 (join (map (fun i => (i ++ ", ")%string) l)) = String.concat ", " l.
Proof.
  induction l as [|a l IH]; [reflexivity|].
  cbn [map]. rewrite join_cons, append_assoc.
  destruct l as [|b l].
  - cbn [map]. change (join []) with EmptyString.
    rewrite drop_last2_app by (cbn; lia).
    change (drop_last2 (", " ++ "")) with EmptyString. apply append_nil_r.
  - rewrite drop_last2_app by (cbn; lia).
    rewrite drop_last2_app.
    + rewrite IH. reflexivity.
    + cbn [map]. rewrite join_cons, !string_length_append. cbn. lia.
Qed.

Section SnapshotText.

Variable str_float : R -> string.

Lemma sample_distance_out b1 b2 i :
  (1 <= i <= List.length (Body.coord b1))%nat ->
  (List.length (Body.coord b2) < i)%nat ->
  sample_distance b1 b2 i = Raise IndexError.
Proof.
  intros H1 H2. unfold sample_distance.
  destruct (getitem_neg_ok (Body.coord b1) i H1) as [[[x1 y1] z1] ->].
  cbn [and_then]. now rewrite getitem_neg_out.
Qed.

Lemma close_calc_body2_short b1 b2 w :
  (2 < List.length (Body.coord b1))%nat ->
  (List.length (Body.coord b2) < 3)%nat ->
  close_calc str_float b1 b2 w = (w, Raise IndexError).
Proof.
  intros H1 H2. unfold close_calc.
  rewrite (proj2 (Nat.ltb_lt _ _) H1).
  cbn [fold_M Nat.eqb]. unfold bind, lift, ret, modify. cbn beta.
  destruct (Nat.eq_dec (List.length (Body.coord b2)) 0) as [E0|E0].
  { rewrite (sample_distance_out b1 b2 1) by lia. reflexivity. }
  destruct (sample_distance_ok b1 b2 1) as [d0 ->]; try lia. cbn beta iota.
  destruct (Nat.eq_dec (List.length (Body.coord b2)) 1) as [E1|E1].
  { rewrite (sample_distance_out b1 b2 2) by lia. reflexivity. }
  destruct (sample_distance_ok b1 b2 2) as [d1 ->]; try lia. cbn beta iota.
  rewrite (sample_distance_out b1 b2 3) by lia. reflexivity.
Qed.

(** X11.  The text of a snapshot.  The test [close_list != []] of
    [write_to_file] always holds, but the cut [close_list[:-2]] it guards
    is harmless: the ["Closeness: "] line lists the closeness events
    separated by [", "] and is empty for none.  The ["Collisions: "] line
    carries the collision text as [if_collision] left it. *)
Theorem X11_snapshot_text (self : Asystem.t) :
  write_to_file_data str_float self
  = (join (map (body_data str_float) (Asystem.system self))
     ++ "Collisions: " ++ Asystem.collisions self ++ nl
     ++ "Closeness: " ++ String.concat ", " (Asystem.closeness self)
     ++ nl ++ nl)%string.
Proof.
  unfold write_to_file_data. rewrite closeness_line. now rewrite !append_assoc.
Qed.

(** X12.  How [close_calc] fails.  With at most two samples in the first
    trajectory it answers [False] and touches nothing.  It tests the
    length of the first trajectory only: with three samples there and
    fewer in the second one it raises [IndexError].  At a strict minimum
    of the distance it raises [TypeError] when one of the identities is
    an [int] (as the generated bodies have).  No closeness event is
    recorded in any of these cases. *)
Theorem X12_close_calc_errors (w : World) (b1 b2 : Body.t) :
  ((List.length (Body.coord b1) <= 2)%nat ->
   close_calc str_float b1 b2 w = (w, Ok false))
  /\ ((2 < List.length (Body.coord b1))%nat ->
      (List.length (Body.coord b2) < 3)%nat ->
      close_calc str_float b1 b2 w = (w, Raise IndexError))
  /\ (forall d0 d1 d2 n,
        (2 < List.length (Body.coord b1))%nat ->
        sample_distance b1 b2 1 = Ok d0 ->
        sample_distance b1 b2 2 = Ok d1 ->
        sample_distance b1 b2 3 = Ok d2 ->
        d1 < d0 -> d1 < d2 ->
        Body.ident b1 = IdInt n \/ Body.ident b2 = IdInt n ->
        close_calc str_float b1 b2 w = (w, Raise TypeError)).
Proof.
  split; [apply close_calc_short|]. split; [apply close_calc_body2_short|].
  intros d0 d1 d2 n Hlen H0 H1 H2 Ha Hb Hid.
  rewrite (close_calc_run str_float b1 b2 w d0 d1 d2) by auto.
  rewrite (proj2 (Rltb_true d1 d0)), (proj2 (Rltb_true d1 d2)) by assumption.
  cbn [andb]. unfold closeness_text.
  destruct Hid as [E|E]; rewrite E.
  - reflexivity.
  - destruct (Body.ident b1); reflexivity.
Qed.

End SnapshotText.

Lemma X12_close_calc_errors_witness :
  (List.length (Body.coord ex_Q) < 3)%nat
  /\ close_calc (fun _ => "0.0"%string)
       (Body.set_coord ex_P (samples [0; 1; 2])) ex_Q ex_pair
     = (ex_pair, Raise IndexError).
Proof.
  split; [cbn; lia|].
  apply (proj1 (proj2 (X12_close_calc_errors (fun _ => "0.0"%string) ex_pair
                         (Body.set_coord ex_P (samples [0; 1; 2])) ex_Q)));
    cbn; lia.
Defined.

(* ------------------------------------------------------------------ *)
(** ** A file of records *)

Lemma universal_newlines_clean s :
  free_of CR s = true -> universal_newlines s = s.
Proof.
  induction s as [|a s IH]; [reflexivity|].
  cbn [free_of universal_newlines]. intros H.
  apply andb_prop in H. destruct H as [Ha Hs].
  apply negb_true_iff in Ha. rewrite Ha. now rewrite IH.
Qed.

Lemma readlines_line l rest :
  free_of LF l = true ->
  readlines ((l ++ nl) ++ rest) = (l ++ nl)%string :: readlines rest.
Proof.
  induction l as [|a l IH]; intros H.
  - reflexivity.
  - cbn [free_of] in H. apply andb_prop in H. destruct H as [Ha Hl].
    apply negb_true_iff in Ha.
    cbn [append readlines]. rewrite Ha, (IH Hl). reflexivity.
Qed.

(** A text that is one line: no line feed but the one at its end. *)
Definition is_line (L : string) : Prop :=
  exists A, L = (A ++ nl)%string /\ free_of LF A = true.

Lemma is_line_cons s L : free_of LF s = true -> is_line L -> is_line (s ++ L).
Proof.
  intros Hs (A & -> & HA). exists (s ++ A)%string. split.
  - now rewrite append_assoc.
  - now rewrite free_of_app, Hs, HA.
Qed.

Lemma readlines_join Ls : Forall is_line Ls -> readlines (join Ls) = Ls.
Proof.
  induction 1 as [|L Ls (A & -> & HA) _ IH]; [reflexivity|].
  rewrite join_cons, readlines_line by exact HA. now rewrite IH.
Qed.

Lemma join_free c Ls :
  Forall (fun L => free_of c L = true) Ls -> free_of c (join Ls) = true.
Proof.
  induction 1 as [|L Ls HL _ IH]; [reflexivity|].
  now rewrite join_cons, free_of_app, HL, IH.
Qed.







Section RecordFile.

Variable str_float : R -> string.
Variable float_of_string : string -> option R.
Variable int_of_string : string -> option Z.







(** X14.  Which lines [read_from_file] skips and which it takes.  A line
    is skipped exactly when its first field is the header token; every
    other line must be a full record: a body is built only from a line
    of at least 14 fields, it is a new body (empty trajectory, zero
    force) and its identity is the text of the first field. *)
Theorem X14_read_line (line : string) :
  (read_line float_of_string int_of_string line = Ok None
   <-> hd_error (split ","%char line) = Some "ident"%string)
  /\ (forall b,
        read_line float_of_string int_of_string line = Ok (Some b) ->
        (14 <= List.length (split ","%char line))%nat
        /\ (exists f0, hd_error (split ","%char line) = Some f0
                       /\ f0 <> "ident"%string /\ Body.ident b = IdStr f0)
        /\ fresh b).
Proof.
  unfold read_line.
  destruct (split ","%char line) as [|f0 fs].
  { split; [split; discriminate|]. intros b H. discriminate H. }
  cbn [getitem nth_error and_then hd_error].
  destruct (String.eqb_spec f0 "ident") as [E|E].
  { subst f0. split; [split; reflexivity|]. intros b H. discriminate H. }
  split.
  - split; intros H; [exfalso|congruence].
    repeat match type of H with
           | and_then ?r _ = _ => destruct r; cbn [and_then] in H; [|discriminate H]
           end.
    discriminate H.
  - intros b H.
    repeat match type of H with
           | and_then ?r _ = _ =>
               let E := fresh "E" in
               destruct r eqn:E; cbn [and_then] in H; [|discriminate H]
           end.
    injection H as <-. split; [|split].
    + match goal with
      | H : int_field _ _ 13 = Ok _ |- _ =>
          unfold int_field, getitem in H;
          destruct (nth_error (f0 :: fs) 13) eqn:En; [|discriminate H]
      end.
      assert (Hn : nth_error (f0 :: fs) 13 <> None) by congruence.
      apply nth_error_Some in Hn. lia.
    + exists f0. repeat split. exact E.
    + split; reflexivity.
Qed.

End RecordFile.



(* ------------------------------------------------------------------ *)
(** ** The legacy program: angles, velocities, the simulation loop *)

Lemma ratio_in_range a b : ~ same_place a b ->
  -1 <= (Body.z b - Body.z a) / dist a b <= 1.
Proof.
  intros H. pose proof (dist_pos a b H) as Hd. pose proof (dist_sq a b) as Hs.
  assert (Hz : (Body.z b - Body.z a) ^ 2 <= dist a b ^ 2).
  { rewrite Hs. unfold Body.sqdist.
    pose proof (pow2_ge_0 (Body.x b - Body.x a)).
    pose proof (pow2_ge_0 (Body.y b - Body.y a)). lra. }
  split.
  - apply Rmult_le_reg_r with (dist a b); [exact Hd|].
    unfold Rdiv. rewrite Rmult_assoc, Rinv_l by lra. nra.
  - apply Rmult_le_reg_r with (dist a b); [exact Hd|].
    unfold Rdiv. rewrite Rmult_assoc, Rinv_l by lra. nra.
Qed.

(** The cosine of the elevation angle: the length of the projection on
    the x-y plane over the distance. *)
Lemma cos_elevation dx dy dz d :
  0 < d -> d * d = dx * dx + dy * dy + dz * dz ->
  sqrt (1 - (dz / d)²) = sqrt (dx * dx + dy * dy) / d.
Proof.
  intros Hd Hdd.
  assert (H0 : 0 <= dx * dx + dy * dy) by nra.
  pose proof (sqrt_pos (dx * dx + dy * dy)) as Hr.
  pose proof (sqrt_sqrt _ H0) as Hrr.
  apply sqrt_lem_1.
  - unfold Rsqr.
    replace (1 - dz / d * (dz / d)) with ((dx * dx + dy * dy) / (d * d)).
    + apply Rmult_le_pos; [exact H0|]. apply Rlt_le, Rinv_0_lt_compat. nra.
    + replace (dx * dx + dy * dy) with (d * d - dz * dz) by (rewrite Hdd; ring).
      field. lra.
  - apply Rmult_le_pos; [exact Hr|]. apply Rlt_le, Rinv_0_lt_compat, Hd.
  - unfold Rsqr.
    replace (sqrt (dx * dx + dy * dy) / d * (sqrt (dx * dx + dy * dy) / d))
      with (sqrt (dx * dx + dy * dy) * sqrt (dx * dx + dy * dy) / (d * d))
      by (field; lra).
    rewrite Hrr.
    replace (dx * dx + dy * dy) with (d * d - dz * dz) by (rewrite Hdd; ring).
    field. lra.
Qed.

(** The root under the azimuth angle, for [dx] of the sign [s]. *)
Lemma root_azimuth dx dy s :
  s * s = 1 -> 0 < s * dx ->
  sqrt (1 + (dy / dx)²) = sqrt (dx * dx + dy * dy) / (s * dx).
Proof.
  intros Hs Hdx.
  assert (Hx : dx <> 0) by (intros E; rewrite E in Hdx; lra).
  assert (H0 : 0 <= dx * dx + dy * dy) by nra.
  pose proof (sqrt_pos (dx * dx + dy * dy)) as Hr.
  pose proof (sqrt_sqrt _ H0) as Hrr.
  apply sqrt_lem_1.
  - unfold Rsqr. pose proof (Rle_0_sqr (dy / dx)) as Hq. unfold Rsqr in Hq. lra.
  - apply Rmult_le_pos; [exact Hr|]. apply Rlt_le, Rinv_0_lt_compat, Hdx.
  - unfold Rsqr.
    replace (sqrt (dx * dx + dy * dy) / (s * dx) * (sqrt (dx * dx + dy * dy) / (s * dx)))
      with (sqrt (dx * dx + dy * dy) * sqrt (dx * dx + dy * dy) / ((s * s) * (dx * dx)))
      by (field; split; [exact Hx|intros E; rewrite E in Hs; lra]).
    rewrite Hrr, Hs. field. exact Hx.
Qed.

Lemma legacy_force_signed G a b s :
  s * s = 1 -> 0 < s * (Body.x b - Body.x a) ->
  Legacy.force_cal (legacy_view a) (legacy_view b) G
  = Ok (s * pull_x G a b, s * pull_y G a b, pull_z G a b).
Proof.
  intros Hs Hdx.
  assert (Hx : Body.x b - Body.x a <> 0) by (intros E; rewrite E in Hdx; lra).
  assert (Hfar : ~ same_place a b) by (intros (E & _); lra).
  pose proof (dist_pos a b Hfar) as Hd. pose proof (dist_sq a b) as Hsq.
  pose proof (ratio_in_range a b Hfar) as Hq.
  unfold Legacy.force_cal, legacy_view, Legacy.init.
  cbn [Legacy.x Legacy.y Legacy.z Legacy.mass].
  fold (Body.sqdist a b). fold (dist a b).
  rewrite truediv_ok by (apply pow_nonzero; lra). cbn [and_then].
  rewrite truediv_ok by lra. cbn [and_then].
  unfold Legacy.math_asin.
  rewrite (proj2 (Rleb_true _ _) (proj1 Hq)), (proj2 (Rleb_true _ _) (proj2 Hq)).
  cbn [andb and_then].
  rewrite truediv_ok by exact Hx. cbn [and_then].
  rewrite cos_asin, sin_asin, cos_atan, sin_atan by exact Hq.
  assert (Hdd : dist a b * dist a b
                = (Body.x b - Body.x a) * (Body.x b - Body.x a)
                  + (Body.y b - Body.y a) * (Body.y b - Body.y a)
                  + (Body.z b - Body.z a) * (Body.z b - Body.z a)).
  { replace (dist a b * dist a b) with (dist a b ^ 2) by ring.
    rewrite Hsq. unfold Body.sqdist. ring. }
  rewrite (cos_elevation (Body.x b - Body.x a) (Body.y b - Body.y a) _ _ Hd Hdd).
  rewrite (root_azimuth _ _ s Hs Hdx).
  set (r := sqrt ((Body.x b - Body.x a) * (Body.x b - Body.x a)
                  + (Body.y b - Body.y a) * (Body.y b - Body.y a))).
  assert (Hr : 0 < r).
  { apply sqrt_lt_R0.
    pose proof (Rsqr_pos_lt _ Hx) as H1.
    pose proof (Rle_0_sqr (Body.y b - Body.y a)) as H2.
    unfold Rsqr in H1, H2. lra. }
  assert (Hs0 : s <> 0) by (intros E; rewrite E in Hs; lra).
  unfold pull_x, pull_y, pull_z, gd.
  f_equal. f_equal; [f_equal|].
  - field_simplify_eq; [|repeat split; lra].
    replace (s ^ 2) with 1 by (rewrite <- Hs; ring). ring.
  - field_simplify_eq; [|repeat split; lra].
    replace (s ^ 2) with 1 by (rewrite <- Hs; ring). ring.
  - field. lra.
Qed.

(** The class [Asystem] of the legacy program. *)
Module LegacyAsystem.

(** The body of the loop of [simulate]: two nested loops over the system
    around the expression statement [None]. *)
Definition simulate_body (system : list Legacy.t) : M R unit :=
  for_each system (fun _ => for_each system (fun _ => ret tt)).

(** [while time < total_time], the state being the local [time]; [None]
    when [fuel] turns of the loop do not end it. *)
Fixpoint while_time (fuel : nat) (system : list Legacy.t) (total_time : R)
  (time : R) : option (R * result unit) :=
  match fuel with
  | O => None
  | S fuel' =>
      if Rltb time total_time then
        match simulate_body system time with
        | (time', Ok _) => while_time fuel' system total_time time'
        | (time', Raise e) => Some (time', Raise e)
        end
      else Some (time, Ok tt)
  end.

(** [simulate] *)
Definition simulate (system : list Legacy.t) (grav_cons time_int total_time : R)
  (fuel : nat) : option (R * result unit) :=
  while_time fuel system total_time 0.

Section Files.

Variable str_float : R -> string.
Variable float_of_string : string -> option R.

(** The first line of [write_to_file]. *)
Definition header : string := ("ident,x,y,z,Vx,Vy,Vx,mass" ++ nl)%string.

(** The line of one body; [body.ident + ","] needs a [str] identity. *)
Definition body_data (body : Legacy.t) : result string :=
  and_then (as_str (Legacy.ident body)) (fun ident =>
  Ok (ident ++ ","
      ++ str_float (Legacy.x body) ++ ","
      ++ str_float (Legacy.y body) ++ ","
      ++ str_float (Legacy.z body) ++ ","
      ++ str_float (Legacy.Vx body) ++ ","
      ++ str_float (Legacy.Vy body) ++ ","
      ++ str_float (Legacy.Vz body) ++ ","
      ++ str_float (Legacy.mass body) ++ nl)%string).

(** The loop of [write_to_file] over the system. *)
Fixpoint write_bodies (system : list Legacy.t) (data : string) : result string :=
  match system with
  | [] => Ok data
  | body :: system' =>
      and_then (body_data body) (fun d => write_bodies system' (data ++ d))
  end.

(** The text [write_to_file] writes; the file is opened after the loop,
    so nothing is written when the loop raises. *)
Definition write_to_file_data (system : list Legacy.t) : result string :=
  write_bodies system header.

(** One turn of the loop of [read_from_file]: nothing for the header
    line (second field ['x']), a body for any other line. *)
Definition read_line (line : string) : result (option Legacy.t) :=
  let fields := split ","%char line in
  and_then (getitem fields 1) (fun f1 =>
  if String.eqb f1 "x" then Ok None
  else
    and_then (getitem fields 0) (fun f0 =>
    and_then (float_field float_of_string fields 1) (fun x =>
    and_then (float_field float_of_string fields 2) (fun y =>
    and_then (float_field float_of_string fields 3) (fun z =>
    and_then (float_field float_of_string fields 4) (fun Vx =>
    and_then (float_field float_of_string fields 5) (fun Vy =>
    and_then (float_field float_of_string fields 6) (fun Vz =>
    and_then (float_field float_of_string fields 7) (fun mass =>
    Ok (Some (Legacy.init (IdStr f0) x y z Vx Vy Vz mass))))))))))).

Fixpoint read_lines (lines : list string) (bodies : list Legacy.t)
  : result (list Legacy.t) :=
  match lines with
  | [] => Ok bodies
  | line :: lines' =>
      and_then (read_line line) (fun r =>
        match r with
        | None => read_lines lines' bodies
        | Some body => read_lines lines' (bodies ++ [body])
        end)
  end.

(** [read_from_file] on a file with the given content. *)
Definition read_from_file (content : string) : result (list Legacy.t) :=
  read_lines (open_lines content) [].

End Files.

End LegacyAsystem.

Lemma simulate_body_run system time :
  LegacyAsystem.simulate_body system time = (time, Ok tt).
Proof.
  unfold LegacyAsystem.simulate_body.
  assert (Hin : forall l : list Legacy.t,
             for_each l (fun _ => ret tt) time = (time, @Ok unit tt)).
  { induction l as [|a l IH]; [reflexivity|].
    cbn [for_each]. rewrite run_bind. exact IH. }
  generalize system at 1. intros l.
  induction l as [|a l IH]; [reflexivity|].
  cbn [for_each]. rewrite run_bind, Hin. exact IH.
Qed.

(** X15.  The angles of the legacy [force_cal] lose the sign of [dx].
    For two bodies with different [x] the call returns the pull of
    Newton's law when the other body has the larger [x], and that pull
    with its [x] and [y] components negated when it has the smaller one
    (the force then points away from the other body in the x-y plane). *)
Theorem X15_legacy_force_cal (G : R) (a b : Body.t) :
  Body.x a <> Body.x b ->
  let '(nx, ny, nz) := newton G a b in
  Legacy.force_cal (legacy_view a) (legacy_view b) G
  = Ok (if Rltb (Body.x a) (Body.x b) then (nx, ny, nz) else (- nx, - ny, nz)).
Proof.
  intros Hx.
  assert (Hfar : ~ same_place a b) by (intros (E & _); contradiction).
  rewrite newton_pull by exact Hfar.
  destruct (Rltb (Body.x a) (Body.x b)) eqn:E.
  - apply Rltb_true in E. rewrite (legacy_force_signed G a b 1) by lra.
    now rewrite !Rmult_1_l.
  - apply Rltb_false in E. rewrite (legacy_force_signed G a b (-1)) by lra.
    replace (-1 * pull_x G a b) with (- pull_x G a b) by ring.
    replace (-1 * pull_y G a b) with (- pull_y G a b) by ring.
    reflexivity.
Qed.

(** X16.  The legacy [velocity_cal], given the force accumulator of a
    body, returns the velocity that [cal_velocity] stores, and raises
    [ZeroDivisionError] where [cal_velocity] does. *)
Theorem X16_legacy_velocity_cal (dt : R) (b : Body.t) :
  Legacy.velocity_cal (legacy_view b) (Body.Fx b) (Body.Fy b) (Body.Fz b) dt
  = match Body.cal_velocity dt b with
    | (b', Ok _) => Ok (Body.Vx b', Body.Vy b', Body.Vz b')
    | (_, Raise e) => Raise e
    end.
Proof.
  unfold Legacy.velocity_cal, legacy_view, Legacy.init.
  cbn [Legacy.mass Legacy.Vx Legacy.Vy Legacy.Vz].
  destruct (Req_dec_T (Body.mass b) 0) as [H|H].
  - rewrite cal_velocity_massless by exact H. now rewrite truediv_zero.
  - rewrite cal_velocity_ok by exact H. now rewrite !truediv_ok.
Qed.

(** X17.  The legacy [simulate] never advances its clock: called with a
    positive [total_time] its loop does not end, whatever the system is,
    and with [total_time <= 0] it returns at once. *)
Theorem X17_legacy_simulate (system : list Legacy.t) (grav_cons time_int total_time : R) :
  (0 < total_time ->
   forall fuel,
     LegacyAsystem.simulate system grav_cons time_int total_time fuel = None)
  /\ (total_time <= 0 ->
      forall fuel,
        LegacyAsystem.simulate system grav_cons time_int total_time (S fuel)
        = Some (0, Ok tt)).
Proof.
  unfold LegacyAsystem.simulate. split.
  - intros H fuel. induction fuel as [|fuel IH]; [reflexivity|].
    cbn [LegacyAsystem.while_time].
    rewrite (proj2 (Rltb_true 0 total_time) H), simulate_body_run. exact IH.
  - intros H fuel. cbn [LegacyAsystem.while_time].
    now rewrite (proj2 (Rltb_false 0 total_time) H).
Qed.

Lemma X15_legacy_force_cal_witness :
  Body.x ex_Q <> Body.x ex_P
  /\ Legacy.force_cal (legacy_view ex_Q) (legacy_view ex_P) (GRAV_CONS cfg_ex)
     = Ok (1 / 4, 0, 0).
Proof.
  assert (Hx : Body.x ex_Q <> Body.x ex_P) by (cbn; lra).
  split; [exact Hx|].
  pose proof (X15_legacy_force_cal (GRAV_CONS cfg_ex) ex_Q ex_P Hx) as H.
  rewrite newton_pull in H by (intros (E & _); contradiction).
  rewrite (proj2 (Rltb_false (Body.x ex_Q) (Body.x ex_P))) in H by (cbn; lra).
  rewrite H. unfold pull_x, pull_y, pull_z, gd.
  assert (Hd : dist ex_Q ex_P = 2).
  { unfold dist, Body.sqdist. cbn [ex_P ex_Q on_x Body.init Body.x Body.y Body.z].
    apply sqrt_lem_1; lra. }
  rewrite Hd. cbn [ex_P ex_Q on_x Body.init Body.x Body.y Body.z Body.mass GRAV_CONS cfg_ex].
  repeat match goal with
         | |- Ok _ = Ok _ => apply f_equal
         | |- (_, _) = (_, _) => apply f_equal2
         end; field.
Defined.

Lemma X17_legacy_simulate_witness :
  0 < 1
  /\ LegacyAsystem.simulate [legacy_view ex_P; legacy_view ex_Q] 1 1 1 1000 = None.
Proof.
  split; [lra|].
  exact (proj1 (X17_legacy_simulate [legacy_view ex_P; legacy_view ex_Q] 1 1 1)
           Rlt_0_1 1000%nat).
Defined.

Section LegacyFiles.

Variable str_float : R -> string.
Variable float_of_string : string -> option R.

(** A text without comma and line break. *)
Definition plain (s : string) : Prop :=
  free_of ","%char s = true /\ free_of LF s = true /\ free_of CR s = true.

(** What the built-ins and the identity must satisfy for the line of
    [body] to be read back. *)
Definition legacy_round_trips (body : Legacy.t) : Prop :=
  (exists s, Legacy.ident body = IdStr s /\ plain s)
  /\ Forall (fun r => plain (str_float r) /\ float_of_string (str_float r) = Some r)
       [Legacy.x body; Legacy.y body; Legacy.z body;
        Legacy.Vx body; Legacy.Vy body; Legacy.Vz body]
  /\ plain (str_float (Legacy.mass body))
  /\ float_of_string (str_float (Legacy.mass body) ++ nl) = Some (Legacy.mass body)
  /\ str_float (Legacy.x body) <> "x"%string.

(** The body that [read_from_file] builds from the line of [body]. *)
Definition as_read (body : Legacy.t) : Legacy.t :=
  Legacy.init (Legacy.ident body) (Legacy.x body) (Legacy.y body) (Legacy.z body)
    (Legacy.Vx body) (Legacy.Vy body) (Legacy.Vz body) (Legacy.mass body).

(** The line of a body with a text identity. *)
Definition legacy_line (body : Legacy.t) : string :=
  (str_id (Legacy.ident body) ++ ","
   ++ str_float (Legacy.x body) ++ ","
   ++ str_float (Legacy.y body) ++ ","
   ++ str_float (Legacy.z body) ++ ","
   ++ str_float (Legacy.Vx body) ++ ","
   ++ str_float (Legacy.Vy body) ++ ","
   ++ str_float (Legacy.Vz body) ++ ","
   ++ str_float (Legacy.mass body) ++ nl)%string.

Lemma legacy_body_data_ok body s :
  Legacy.ident body = IdStr s ->
  LegacyAsystem.body_data str_float body = Ok (legacy_line body).
Proof.
  intros E. unfold LegacyAsystem.body_data, legacy_line. now rewrite E.
Qed.

Lemma legacy_write_bodies system : forall data,
  Forall legacy_round_trips system ->
  LegacyAsystem.write_bodies str_float system data
  = Ok (data ++ join (map legacy_line system))%string.
Proof.
  induction system as [|b system IH]; intros data H.
  - cbn. now rewrite append_nil_r.
  - inversion H as [|? ? Hb Hs]; subst.
    destruct Hb as ((s & Es & _) & _).
    cbn [LegacyAsystem.write_bodies map]. rewrite (legacy_body_data_ok b s Es).
    cbn [and_then]. rewrite (IH _ Hs), join_cons. now rewrite append_assoc.
Qed.

Lemma legacy_write_int system : forall data b n,
  In b system -> Legacy.ident b = IdInt n ->
  LegacyAsystem.write_bodies str_float system data = Raise TypeError.
Proof.
  induction system as [|a system IH]; intros data b n Hin E; [contradiction|].
  cbn [LegacyAsystem.write_bodies]. unfold LegacyAsystem.body_data at 1.
  destruct (Legacy.ident a) eqn:Ea; cbn [as_str and_then]; [|reflexivity].
  destruct Hin as [->|Hin]; [congruence|]. exact (IH _ b n Hin E).
Qed.

Ltac legacy_fields :=
  repeat match goal with
         | H : Forall _ (_ :: _) |- _ => inversion H; clear H; subst
         | H : plain _ /\ _ |- _ => destruct H
         | H : plain _ |- _ => destruct H as (? & ? & ?)
         end.

Lemma legacy_line_is_line body :
  legacy_round_trips body -> is_line (legacy_line body).
Proof.
  intros ((s & Es & Hs) & Hf & Hm & _). unfold legacy_line. rewrite Es. cbn [str_id].
  legacy_fields.
  repeat (apply is_line_cons; [assumption || reflexivity|]).
  exists EmptyString. split; reflexivity.
Qed.

Lemma legacy_line_free_CR body :
  legacy_round_trips body -> free_of CR (legacy_line body) = true.
Proof.
  intros ((s & Es & Hs) & Hf & Hm & _). unfold legacy_line. rewrite Es. cbn [str_id].
  legacy_fields. rewrite !free_of_app.
  repeat match goal with
         | H : free_of CR _ = true |- _ => rewrite H; clear H
         end.
  reflexivity.
Qed.

Lemma legacy_read_line body :
  legacy_round_trips body ->
  LegacyAsystem.read_line float_of_string (legacy_line body) = Ok (Some (as_read body)).
Proof.
  intros ((s & Es & Hs) & Hf & Hm & Hmass & Hx).
  unfold LegacyAsystem.read_line, legacy_line, as_read. rewrite Es. cbn [str_id].
  legacy_fields. cbn [append].
  rewrite !split_app by assumption.
  rewrite split_free by (rewrite free_of_app; cbn [free_of];
                         match goal with H : free_of ","%char _ = true |- _ => rewrite H end;
                         reflexivity).
  cbn [getitem nth_error and_then].
  rewrite (proj2 (String.eqb_neq _ _) Hx).
  unfold float_field. cbn [getitem nth_error and_then].
  repeat match goal with
         | H : float_of_string _ = Some _ |- _ => rewrite H; clear H; cbn [and_then]
         end.
  reflexivity.
Qed.

Lemma legacy_read_lines system :
  Forall legacy_round_trips system ->
  forall acc,
    LegacyAsystem.read_lines float_of_string (map legacy_line system) acc
    = Ok (acc ++ map as_read system).
Proof.
  induction 1 as [|b system Hb _ IH]; intros acc; cbn [map LegacyAsystem.read_lines].
  - now rewrite app_nil_r.
  - rewrite legacy_read_line by exact Hb. cbn [and_then].
    rewrite IH, <- app_assoc. reflexivity.
Qed.

(** X18.  The legacy program reads back what it writes.  For a system
    of bodies with text identities on whose fields the built-ins
    round-trip, [write_to_file] writes a header line and one line per
    body, and [read_from_file] builds from that text the same bodies in
    order (the header line is skipped, its second field being ['x']).
    With an [int] identity in the system [write_to_file] raises
    [TypeError] and writes nothing. *)
Theorem X18_legacy_round_trip (system : list Legacy.t) :
  (Forall legacy_round_trips system ->
   exists data,
     LegacyAsystem.write_to_file_data str_float system = Ok data
     /\ data = (LegacyAsystem.header ++ join (map legacy_line system))%string
     /\ LegacyAsystem.read_from_file float_of_string data = Ok (map as_read system))
  /\ (forall b n, In b system -> Legacy.ident b = IdInt n ->
      LegacyAsystem.write_to_file_data str_float system = Raise TypeError).
Proof.
  split; [|intros b n; apply legacy_write_int].
  intros H. eexists. split; [now apply legacy_write_bodies|]. split; [reflexivity|].
  assert (Hlines : Forall is_line (map legacy_line system)).
  { apply Forall_map. eapply Forall_impl; [|exact H].
    intros b. apply legacy_line_is_line. }
  assert (Hcr : free_of CR (join (map legacy_line system)) = true).
  { apply join_free, Forall_map. eapply Forall_impl; [|exact H].
    intros b. apply legacy_line_free_CR. }
  unfold LegacyAsystem.read_from_file, open_lines, LegacyAsystem.header.
  rewrite universal_newlines_clean by (rewrite free_of_app, Hcr; reflexivity).
  rewrite readlines_line by reflexivity.
  rewrite readlines_join by exact Hlines.
  cbn [LegacyAsystem.read_lines].
  change (LegacyAsystem.read_line float_of_string ("ident,x,y,z,Vx,Vy,Vx,mass" ++ nl))
    with (@Ok (option Legacy.t) None).
  cbn [and_then]. now rewrite legacy_read_lines.
Qed.

End LegacyFiles.

(** A legacy body whose numbers are all 1. *)
Definition ex_legacy : Legacy.t := Legacy.init (IdStr "Sun") 1 1 1 1 1 1 1.

Lemma ex_legacy_round_trips :
  legacy_round_trips (fun _ => "1.0"%string)
    (fun s => if String.eqb s "1.0" || String.eqb s ("1.0" ++ nl) then Some 1 else None)
    ex_legacy.
Proof.
  unfold legacy_round_trips, plain.
  split; [exists "Sun"%string; repeat split|].
  split; [repeat constructor|]. repeat split. discriminate.
Qed.

Lemma X18_legacy_round_trip_witness :
  exists data,
    LegacyAsystem.write_to_file_data (fun _ => "1.0"%string) [ex_legacy; ex_legacy]
    = Ok data
    /\ LegacyAsystem.read_from_file
         (fun s => if String.eqb s "1.0" || String.eqb s ("1.0" ++ nl)
                   then Some 1 else None) data
       = Ok [ex_legacy; ex_legacy].
Proof.
  destruct (proj1 (X18_legacy_round_trip (fun _ => "1.0"%string)
                     (fun s => if String.eqb s "1.0" || String.eqb s ("1.0" ++ nl)
                               then Some 1 else None)
                     [ex_legacy; ex_legacy])
              (Forall_cons _ ex_legacy_round_trips
                 (Forall_cons _ ex_legacy_round_trips (Forall_nil _))))
    as (data & Hw & _ & Hr).
  exists data. split; [exact Hw|exact Hr].
Defined.

(* ------------------------------------------------------------------ *)
(** ** What no event changes *)

(** The attributes of a body that only its constructor writes. *)
Definition static (b : Body.t) : pyid * R * R * (R * R * R) * Z * string :=
  (Body.ident b, Body.mass b, Body.radius b,
   (Body.color1 b, Body.color2 b, Body.color3 b), Body.texture b, Body.collisions b).

(** The last sample of the trajectory, if there is one, is the position. *)
Definition at_last_sample (b : Body.t) : Prop :=
  Body.coord b = []
  \/ exists l, Body.coord b = l ++ [(Body.x b, Body.y b, Body.z b)].

Section Invariants.

Variable cfg : Config.

Lemma static_stage2 w : map static (bodies (stage2 cfg w)) = map static (bodies w).
Proof.
  rewrite bodies_stage2, bodies_stage1. unfold phase2_bodies, phase1_bodies.
  rewrite map_map.
  rewrite (map_ext _ static).
  - apply map_imap_inv. intros i b.
    pose proof (compute1_body_only_FV (GRAV_CONS cfg)
                  (Asystem.DELTA_T (planet_system w)) i (bodies w) b) as H.
    unfold only_FV in H. rewrite H. reflexivity.
  - intros b. destruct (compute2_body_moved (Asystem.DELTA_T (planet_system w))
                          (SEC_PER_DAY cfg) b) as [tm ->]. reflexivity.
Qed.

Lemma static_exec e w : map static (bodies (exec cfg e w)) = map static (bodies w).
Proof.
  destruct e; cbn [exec].
  - rewrite bodies_animate. destruct (_ =? _)%Z; [reflexivity|apply static_stage2].
  - now rewrite bodies_display.
  - reflexivity.
Qed.

Lemma at_last_sample_exec e w :
  Forall at_last_sample (bodies w) -> Forall at_last_sample (bodies (exec cfg e w)).
Proof.
  intros H. destruct e; cbn [exec].
  - rewrite bodies_animate. destruct (_ =? _)%Z; [exact H|].
    apply Forall_forall. intros b' Hin.
    apply In_nth_error in Hin. destruct Hin as [i Hi].
    assert (Hlt : (i < List.length (bodies w))%nat).
    { rewrite <- (length_stage2 cfg w). apply nth_error_Some. congruence. }
    destruct (nth_error (bodies w) i) as [b|] eqn:Hb;
      [|apply nth_error_None in Hb; lia].
    destruct (coord_stage2 cfg w i b Hb) as (b2 & Hb2 & Hc).
    assert (b2 = b') by congruence. subst b2.
    right. exists (Body.coord b). exact Hc.
  - now rewrite bodies_display.
  - exact H.
Qed.

(** X19.  No event changes the number of bodies or, of any body, the
    identity, the mass, the radius, the colors, the texture or the
    collision text: after any sequence of steps, display calls and keys
    the system lists the same bodies in the same order. *)
Theorem X19_static_attributes (es : list event) (w : World) :
  map static (bodies (run cfg es w)) = map static (bodies w)
  /\ List.length (bodies (run cfg es w)) = List.length (bodies w).
Proof.
  assert (H : map static (bodies (run cfg es w)) = map static (bodies w)).
  { revert w. induction es as [|e es IH]; intros w; [reflexivity|].
    cbn [run fold_left]. fold (run cfg es (exec cfg e w)).
    now rewrite IH, static_exec. }
  split; [exact H|].
  rewrite <- (length_map static (bodies (run cfg es w))), H. apply length_map.
Qed.

(** X20.  Positions change in [cal_position] only, which records them:
    no event breaks the property that the last sample of each trajectory
    is the current position of its body (or the trajectory is still
    empty).  It holds of new bodies, hence in every state the program
    reaches. *)
Theorem X20_last_sample (es : list event) (w : World) :
  Forall at_last_sample (bodies w) ->
  Forall at_last_sample (bodies (run cfg es w)).
Proof.
  revert w. induction es as [|e es IH]; intros w H; [exact H|].
  cbn [run fold_left]. fold (run cfg es (exec cfg e w)).
  apply IH, at_last_sample_exec, H.
Qed.

End Invariants.

Lemma X20_last_sample_witness :
  Forall at_last_sample (bodies ex_pair)
  /\ Forall at_last_sample (bodies (run cfg_ex [Animate; Key " "%char; Display] ex_pair)).
Proof.
  assert (H : Forall at_last_sample (bodies ex_pair)).
  { repeat constructor; left; reflexivity. }
  split; [exact H|].
  exact (X20_last_sample cfg_ex [Animate; Key " "%char; Display] ex_pair H).
Defined.

(* ------------------------------------------------------------------ *)
(** ** The generated systems

    The state of the random generator is the number of calls of
    [random()] made so far; [random k] is the value the k-th call
    returns, and [uniform(a, b)] is [a + (b - a) * random()]. *)

(** The time-stamp [2452170.375] of a generated body. *)
Definition JD0 : R := 2452170375 / 1000.

(** The central star of [random_system_with_star]. *)
Definition star : Body.t :=
  Body.init (IdInt 0) JD0 0 0 0 0 0 0 (10 ^ 20) 3 253 184 19 0.

Section Generators.

Variable random : nat -> R.
Variable cfg : Config.

Definition uniform (a b : R) : M nat R :=
  fun k => (S k, Ok (a + (b - a) * random k)).

(** The body that one turn of the loop of [random_system] (and of
    [random_system_with_star]) builds; the arguments of [Body] are
    evaluated from left to right. *)
Definition random_body (i : nat) : M nat Body.t :=
  let position := 5 in
  let velocity := 1 in
  mass_radius <- uniform 1 (2 * 10 ^ 12) ;;
  x <- uniform (- position) position ;;
  y <- uniform (- position) position ;;
  z <- uniform (- position) position ;;
  Vx <- uniform (- velocity) velocity ;;
  Vy <- uniform (- velocity) velocity ;;
  Vz <- uniform (- velocity) velocity ;;
  radius <- lift (truediv mass_radius (10 ^ 12)) ;;
  color1 <- uniform 0 255 ;;
  color2 <- uniform 0 255 ;;
  color3 <- uniform 0 255 ;;
  ret (Body.init (IdInt (Z.of_nat i)) JD0 x y z Vx Vy Vz mass_radius radius
         color1 color2 color3 0).

(** [system.system.append(Body(i, ...))] *)
Definition append_random_body (system : Asystem.t) (i : nat) : M nat Asystem.t :=
  b <- random_body i ;;
  ret (Asystem.set_system system (Asystem.system system ++ [b])).

(** [random_system]; [Asystem(0)] is the empty system. *)
Definition random_system (n_bodies : nat) : M nat Asystem.t :=
  let system := Asystem_init cfg [] in
  fold_M (range n_bodies) append_random_body system.

(** [random_system_with_star]; [range(1, n_bodies)] is empty for
    [n_bodies <= 1]. *)
Definition random_system_with_star (n_bodies : nat) : M nat Asystem.t :=
  let system := Asystem_init cfg [] in
  let system := Asystem.set_system system (Asystem.system system ++ [star]) in
  fold_M (seq 1 (n_bodies - 1)) append_random_body system.

(** What is known of the body generated with the number [i]. *)
Definition generated (i : nat) (b : Body.t) : Prop :=
  Body.ident b = IdInt (Z.of_nat i)
  /\ fresh b
  /\ Body.time b = JD0 /\ Body.texture b = 0%Z
  /\ 1 <= Body.mass b < 2 * 10 ^ 12
  /\ Body.radius b = Body.mass b / 10 ^ 12
  /\ Forall (fun p => -5 <= p < 5) [Body.x b; Body.y b; Body.z b]
  /\ Forall (fun v => -1 <= v < 1) [Body.Vx b; Body.Vy b; Body.Vz b]
  /\ Forall (fun c => 0 <= c < 255) [Body.color1 b; Body.color2 b; Body.color3 b].

Hypothesis random_range : forall k, 0 <= random k < 1.

Lemma random_body_run i k :
  exists b, random_body i k = ((10 + k)%nat, Ok b) /\ generated i b.
Proof.
  assert (HT : 0 < 10 ^ 12) by (apply pow_lt; lra).
  eexists. split.
  - unfold random_body, uniform, bind, lift, ret.
    rewrite truediv_ok by lra. reflexivity.
  - unfold generated, fresh. cbn [Body.init Body.ident Body.coord force_of Body.Fx Body.Fy
      Body.Fz Body.time Body.texture Body.mass Body.radius Body.x Body.y Body.z
      Body.Vx Body.Vy Body.Vz Body.color1 Body.color2 Body.color3].
    pose proof (random_range k). pose proof (random_range (S k)).
    pose proof (random_range (S (S k))). pose proof (random_range (S (S (S k)))).
    pose proof (random_range (S (S (S (S k))))).
    pose proof (random_range (S (S (S (S (S k)))))).
    pose proof (random_range (S (S (S (S (S (S k))))))).
    pose proof (random_range (S (S (S (S (S (S (S k)))))))).
    pose proof (random_range (S (S (S (S (S (S (S (S k))))))))).
    pose proof (random_range (S (S (S (S (S (S (S (S (S k)))))))))).
    assert (H1T : 1 <= 10 ^ 12) by (apply pow_R1_Rle; lra).
    set (T := 10 ^ 12) in *. clearbody T.
    assert (Hlo : 0 <= (2 * T - 1) * random k)
      by (apply Rmult_le_pos; lra).
    assert (Hhi : 0 < (2 * T - 1) * (1 - random k))
      by (apply Rmult_lt_0_compat; lra).
    repeat match goal with
           | |- Forall _ (_ :: _) => constructor
           | |- Forall _ [] => constructor
           | |- _ /\ _ => split
           end; try reflexivity; try lra.
Qed.

Lemma random_loop m : forall s system k,
  exists bs,
    fold_M (seq s m) append_random_body system k
    = ((10 * m + k)%nat,
       Ok (Asystem.set_system system (Asystem.system system ++ bs)))
    /\ List.length bs = m
    /\ forall j b, nth_error bs j = Some b -> generated (s + j) b.
Proof.
  induction m as [|m IH]; intros s system k.
  - exists []. split; [|split].
    + cbn. rewrite app_nil_r. now destruct system.
    + reflexivity.
    + intros [|j] b Hb; discriminate.
  - destruct (random_body_run s k) as (b & Hb & Hg).
    destruct (IH (S s) (Asystem.set_system system (Asystem.system system ++ [b]))
                (10 + k)%nat) as (bs & Hrun & Hlen & Hbs).
    exists (b :: bs). split; [|split].
    + cbn [seq fold_M]. rewrite run_bind. unfold append_random_body at 1.
      rewrite run_bind, Hb. unfold ret at 1. rewrite Hrun.
      cbn [Asystem.set_system Asystem.system Asystem.DELTA_T Asystem.collisions
           Asystem.count Asystem.closeness].
      rewrite <- app_assoc. cbn [app].
      f_equal. lia.
    + cbn [List.length]. now rewrite Hlen.
    + intros [|j] b' Hj.
      * injection Hj as <-. now rewrite Nat.add_0_r.
      * rewrite Nat.add_succ_r. exact (Hbs j b' Hj).
Qed.

(** X21.  [random_system(n)] builds a system of exactly [n] new bodies,
    the i-th with the [int] identity [i], a mass in [1, 2e12), the radius
    [mass / 1e12], coordinates in [-5, 5), velocity components in
    [-1, 1), colors in [0, 255) and no texture.  It makes 10 draws per
    body, and the system starts with the normal time step, the step
    counter 0 and no collision or closeness text. *)
Theorem X21_random_system (n_bodies k : nat) :
  exists sys,
    random_system n_bodies k = ((10 * n_bodies + k)%nat, Ok (Asystem_init cfg sys))
    /\ List.length sys = n_bodies
    /\ (forall i b, nth_error sys i = Some b -> generated i b)
    /\ massive sys.
Proof.
  destruct (random_loop n_bodies 0 (Asystem_init cfg []) k) as (bs & Hrun & Hlen & Hbs).
  exists bs. split; [exact Hrun|]. split; [exact Hlen|]. split; [exact Hbs|].
  apply Forall_forall. intros b Hin. apply In_nth_error in Hin. destruct Hin as [i Hi].
  destruct (Hbs i b Hi) as (_ & _ & _ & _ & Hm & _). cbn [Nat.add] in Hm. lra.
Qed.

(** X22.  [random_system_with_star(n)] always puts the star first, a
    body of identity 0 at rest at the origin with mass [1e20] and radius
    3, and appends the generated bodies with the identities 1 to [n - 1]:
    the system has [n] bodies for [n >= 1], and one body, the star, for
    [n = 0] as well. *)
Theorem X22_random_system_with_star (n_bodies k : nat) :
  exists bs,
    random_system_with_star n_bodies k
    = ((10 * (n_bodies - 1) + k)%nat, Ok (Asystem_init cfg (star :: bs)))
    /\ List.length (star :: bs) = Nat.max 1 n_bodies
    /\ (forall j b, nth_error bs j = Some b -> generated (S j) b)
    /\ massive (star :: bs).
Proof.
  destruct (random_loop (n_bodies - 1) 1
              (Asystem.set_system (Asystem_init cfg [])
                 (Asystem.system (Asystem_init cfg []) ++ [star])) k)
    as (bs & Hrun & Hlen & Hbs).
  exists bs. split; [exact Hrun|]. split; [cbn [List.length]; lia|].
  split; [exact Hbs|].
  constructor.
  - unfold star, Body.init. cbn [Body.mass]. apply pow_lt. lra.
  - apply Forall_forall. intros b Hin. apply In_nth_error in Hin. destruct Hin as [i Hi].
    destruct (Hbs i b Hi) as (_ & _ & _ & _ & Hm & _). lra.
Qed.

End Generators.

(** A generator that always answers 1/2. *)
Definition ex_random (k : nat) : R := 1 / 2.

Lemma ex_random_range : forall k, 0 <= ex_random k < 1.
Proof. intros k. unfold ex_random. lra. Qed.

Lemma X21_random_system_witness :
  (forall k, 0 <= ex_random k < 1)
  /\ exists sys,
       random_system ex_random cfg_ex 2 0%nat = (20%nat, Ok (Asystem_init cfg_ex sys))
       /\ List.length sys = 2%nat.
Proof.
  split; [exact ex_random_range|].
  destruct (X21_random_system ex_random cfg_ex ex_random_range 2 0%nat)
    as (sys & Hrun & Hlen & _).
  exists sys. split; [exact Hrun|exact Hlen].
Defined.

Lemma X22_random_system_with_star_witness :
  (forall k, 0 <= ex_random k < 1)
  /\ exists bs,
       random_system_with_star ex_random cfg_ex 0 0%nat
       = (0%nat, Ok (Asystem_init cfg_ex (star :: bs)))
       /\ List.length (star :: bs) = 1%nat.
Proof.
  split; [exact ex_random_range|].
  destruct (X22_random_system_with_star ex_random cfg_ex ex_random_range 0 0%nat)
    as (bs & Hrun & Hlen & _).
  exists bs. split; [exact Hrun|exact Hlen].
Defined.

(* ------------------------------------------------------------------ *)
(** ** class Definition: the keyboard and the trail

    [DefinitionAll.t] holds every attribute of [init] that [keyboard]
    reads or writes; [Definition_.t] above is its part that the engine
    reads. *)

Module DefinitionAll.

Record t : Type := mk {
  eyePhi : R;
  eyeTheta : R;
  eyeRho : R;
  upY : Z;
  look0 : R;
  look1 : R;
  SCALE : R;
  EXPONENT : R;
  bool_T : bool;
  orbit : bool;
  display : bool;
  short_orbit : bool;
  ORBIT_LENGTH : Z;
  NORM_DELTA_T : R;
  BALL_SIZE : R;
  prevMouseX : option Z;
  prevMouseY : option Z
}.

Definition set_eyePhi (s : t) (v : R) : t :=
  mk v (eyeTheta s) (eyeRho s) (upY s) (look0 s) (look1 s) (SCALE s) (EXPONENT s)
     (bool_T s) (orbit s) (display s) (short_orbit s) (ORBIT_LENGTH s)
     (NORM_DELTA_T s) (BALL_SIZE s) (prevMouseX s) (prevMouseY s).
Definition set_eyeTheta (s : t) (v : R) : t :=
  mk (eyePhi s) v (eyeRho s) (upY s) (look0 s) (look1 s) (SCALE s) (EXPONENT s)
     (bool_T s) (orbit s) (display s) (short_orbit s) (ORBIT_LENGTH s)
     (NORM_DELTA_T s) (BALL_SIZE s) (prevMouseX s) (prevMouseY s).
Definition set_eyeRho (s : t) (v : R) : t :=
  mk (eyePhi s) (eyeTheta s) v (upY s) (look0 s) (look1 s) (SCALE s) (EXPONENT s)
     (bool_T s) (orbit s) (display s) (short_orbit s) (ORBIT_LENGTH s)
     (NORM_DELTA_T s) (BALL_SIZE s) (prevMouseX s) (prevMouseY s).
Definition set_upY (s : t) (v : Z) : t :=
  mk (eyePhi s) (eyeTheta s) (eyeRho s) v (look0 s) (look1 s) (SCALE s) (EXPONENT s)
     (bool_T s) (orbit s) (display s) (short_orbit s) (ORBIT_LENGTH s)
     (NORM_DELTA_T s) (BALL_SIZE s) (prevMouseX s) (prevMouseY s).
Definition set_look0 (s : t) (v : R) : t :=
  mk (eyePhi s) (eyeTheta s) (eyeRho s) (upY s) v (look1 s) (SCALE s) (EXPONENT s)
     (bool_T s) (orbit s) (display s) (short_orbit s) (ORBIT_LENGTH s)
     (NORM_DELTA_T s) (BALL_SIZE s) (prevMouseX s) (prevMouseY s).
Definition set_look1 (s : t) (v : R) : t :=
  mk (eyePhi s) (eyeTheta s) (eyeRho s) (upY s) (look0 s) v (SCALE s) (EXPONENT s)
     (bool_T s) (orbit s) (display s) (short_orbit s) (ORBIT_LENGTH s)
     (NORM_DELTA_T s) (BALL_SIZE s) (prevMouseX s) (prevMouseY s).
Definition set_SCALE (s : t) (v : R) : t :=
  mk (eyePhi s) (eyeTheta s) (eyeRho s) (upY s) (look0 s) (look1 s) v (EXPONENT s)
     (bool_T s) (orbit s) (display s) (short_orbit s) (ORBIT_LENGTH s)
     (NORM_DELTA_T s) (BALL_SIZE s) (prevMouseX s) (prevMouseY s).
Definition set_EXPONENT (s : t) (v : R) : t :=
  mk (eyePhi s) (eyeTheta s) (eyeRho s) (upY s) (look0 s) (look1 s) (SCALE s) v
     (bool_T s) (orbit s) (display s) (short_orbit s) (ORBIT_LENGTH s)
     (NORM_DELTA_T s) (BALL_SIZE s) (prevMouseX s) (prevMouseY s).
Definition set_bool_T (s : t) (v : bool) : t :=
  mk (eyePhi s) (eyeTheta s) (eyeRho s) (upY s) (look0 s) (look1 s) (SCALE s) (EXPONENT s)
     v (orbit s) (display s) (short_orbit s) (ORBIT_LENGTH s)
     (NORM_DELTA_T s) (BALL_SIZE s) (prevMouseX s) (prevMouseY s).
Definition set_orbit (s : t) (v : bool) : t :=
  mk (eyePhi s) (eyeTheta s) (eyeRho s) (upY s) (look0 s) (look1 s) (SCALE s) (EXPONENT s)
     (bool_T s) v (display s) (short_orbit s) (ORBIT_LENGTH s)
     (NORM_DELTA_T s) (BALL_SIZE s) (prevMouseX s) (prevMouseY s).
Definition set_display (s : t) (v : bool) : t :=
  mk (eyePhi s) (eyeTheta s) (eyeRho s) (upY s) (look0 s) (look1 s) (SCALE s) (EXPONENT s)
     (bool_T s) (orbit s) v (short_orbit s) (ORBIT_LENGTH s)
     (NORM_DELTA_T s) (BALL_SIZE s) (prevMouseX s) (prevMouseY s).
Definition set_short_orbit (s : t) (v : bool) : t :=
  mk (eyePhi s) (eyeTheta s) (eyeRho s) (upY s) (look0 s) (look1 s) (SCALE s) (EXPONENT s)
     (bool_T s) (orbit s) (display s) v (ORBIT_LENGTH s)
     (NORM_DELTA_T s) (BALL_SIZE s) (prevMouseX s) (prevMouseY s).
Definition set_ORBIT_LENGTH (s : t) (v : Z) : t :=
  mk (eyePhi s) (eyeTheta s) (eyeRho s) (upY s) (look0 s) (look1 s) (SCALE s) (EXPONENT s)
     (bool_T s) (orbit s) (display s) (short_orbit s) v
     (NORM_DELTA_T s) (BALL_SIZE s) (prevMouseX s) (prevMouseY s).
Definition set_NORM_DELTA_T (s : t) (v : R) : t :=
  mk (eyePhi s) (eyeTheta s) (eyeRho s) (upY s) (look0 s) (look1 s) (SCALE s) (EXPONENT s)
     (bool_T s) (orbit s) (display s) (short_orbit s) (ORBIT_LENGTH s)
     v (BALL_SIZE s) (prevMouseX s) (prevMouseY s).
Definition set_BALL_SIZE (s : t) (v : R) : t :=
  mk (eyePhi s) (eyeTheta s) (eyeRho s) (upY s) (look0 s) (look1 s) (SCALE s) (EXPONENT s)
     (bool_T s) (orbit s) (display s) (short_orbit s) (ORBIT_LENGTH s)
     (NORM_DELTA_T s) v (prevMouseX s) (prevMouseY s).
Definition set_prevMouse (s : t) (vx vy : option Z) : t :=
  mk (eyePhi s) (eyeTheta s) (eyeRho s) (upY s) (look0 s) (look1 s) (SCALE s) (EXPONENT s)
     (bool_T s) (orbit s) (display s) (short_orbit s) (ORBIT_LENGTH s)
     (NORM_DELTA_T s) (BALL_SIZE s) vx vy.

(** [theKey == b'c' or theKey == b'C'] *)
Definition either (theKey c C : ascii) : bool :=
  Ascii.eqb theKey c || Ascii.eqb theKey C.

(** The first chain of [if ... elif] of [keyboard], from [b'0'] on. *)
Definition camera_keys (theKey : ascii) (self : t) : t :=
  if Ascii.eqb theKey "0" then set_eyePhi self (2 * PI)
  else if either theKey "o" "O" then set_eyePhi self (eyePhi self + PI / 20)
  else if either theKey "j" "J" then set_eyeTheta self (eyeTheta self - PI / 20)
  else if either theKey "k" "K" then set_eyeTheta self (eyeTheta self + PI / 20)
  else if either theKey "n" "N" then set_eyeRho self (eyeRho self * (11 / 10))
  else if either theKey "m" "M" then set_eyeRho self (eyeRho self / (11 / 10))
  else if either theKey "w" "W"
    then set_look1 self (look1 self + 1 / 100 * SCALE self * eyeRho self)
  else if either theKey "s" "S"
    then set_look1 self (look1 self - 1 / 100 * SCALE self * eyeRho self)
  else if either theKey "a" "A"
    then set_look0 self (look0 self - 1 / 100 * SCALE self * eyeRho self)
  else if either theKey "d" "D"
    then set_look0 self (look0 self + 1 / 100 * SCALE self * eyeRho self)
  else if either theKey "e" "E" then set_SCALE self (SCALE self * (11 / 10))
  else if either theKey "q" "Q" then set_SCALE self (SCALE self * (9 / 10))
  else if Ascii.eqb theKey "," then set_EXPONENT self (EXPONENT self * (101 / 100))
  else if Ascii.eqb theKey "." then set_EXPONENT self (EXPONENT self * (99 / 100))
  else self.

(** The second chain, from [b' '] on. *)
Definition mode_keys (theKey : ascii) (self : t) : t :=
  if Ascii.eqb theKey " " then set_bool_T self (negb (bool_T self))
  else if Ascii.eqb theKey "1" then set_orbit self (negb (orbit self))
  else if Ascii.eqb theKey "2" then set_display self (negb (display self))
  else if Ascii.eqb theKey "3" then set_short_orbit self (negb (short_orbit self))
  else if Ascii.eqb theKey "=" then set_ORBIT_LENGTH self (ORBIT_LENGTH self + 10)%Z
  else if Ascii.eqb theKey "-" then
    let self := set_ORBIT_LENGTH self (ORBIT_LENGTH self - 10)%Z in
    if (ORBIT_LENGTH self <=? 0)%Z
    then set_ORBIT_LENGTH self (ORBIT_LENGTH self + 10)%Z
    else self
  else if Ascii.eqb theKey "[" then set_NORM_DELTA_T self (NORM_DELTA_T self / (11 / 10))
  else if Ascii.eqb theKey "]" then set_NORM_DELTA_T self (NORM_DELTA_T self * (11 / 10))
  else if Ascii.eqb theKey "r" then set_BALL_SIZE self (BALL_SIZE self / (11 / 10))
  else if Ascii.eqb theKey "t" then set_BALL_SIZE self (BALL_SIZE self * (11 / 10))
  else self.

(** [keyboard]; [None] when the key ends the program ([sys.exit()]). *)
Definition keyboard (theKey : ascii) (mouseX mouseY : Z) (self : t) : option t :=
  if either theKey "x" "X" then None
  else
    let self :=
      if either theKey "i" "I" then set_eyePhi self (eyePhi self - PI / 20) else self in
    let self := camera_keys theKey self in
    let self := mode_keys theKey self in
    let self := set_prevMouse self (Some mouseX) (Some mouseY) in
    Some (if Rltb 0 (sin (eyePhi self)) then set_upY self 1 else set_upY self (-1)).

(** The attributes the engine reads. *)
Definition engine (self : t) : Definition_.t :=
  Definition_.mk (bool_T self) (NORM_DELTA_T self).

End DefinitionAll.



(** Case analysis on the key, one literal of the source after the other. *)
Ltac key_cases k :=
  repeat match goal with
         | |- context [Ascii.eqb k ?c] =>
             destruct (Ascii.eqb_spec k c) as [->|?]; [try reflexivity|]
         end.

Lemma engine_camera_keys k s :
  DefinitionAll.engine (DefinitionAll.camera_keys k s) = DefinitionAll.engine s.
Proof.
  unfold DefinitionAll.camera_keys, DefinitionAll.either.
  key_cases k. reflexivity.
Qed.

Lemma orbit_camera_keys k s :
  DefinitionAll.ORBIT_LENGTH (DefinitionAll.camera_keys k s) = DefinitionAll.ORBIT_LENGTH s
  /\ DefinitionAll.short_orbit (DefinitionAll.camera_keys k s) = DefinitionAll.short_orbit s.
Proof.
  unfold DefinitionAll.camera_keys, DefinitionAll.either.
  key_cases k; split; reflexivity.
Qed.

Lemma engine_mode_keys k s :
  DefinitionAll.engine (DefinitionAll.mode_keys k s)
  = Definition_.keyboard k (DefinitionAll.engine s).
Proof.
  unfold DefinitionAll.mode_keys, Definition_.keyboard.
  key_cases k; try reflexivity.
  cbv zeta. now destruct (_ <=? _)%Z.
Qed.

Lemma orbit_length_mode_keys k s :
  (0 < DefinitionAll.ORBIT_LENGTH s)%Z ->
  (0 < DefinitionAll.ORBIT_LENGTH (DefinitionAll.mode_keys k s))%Z.
Proof.
  intros H. unfold DefinitionAll.mode_keys.
  key_cases k; try exact H.
  - cbn. lia.
  - cbn. destruct (Z.leb_spec (DefinitionAll.ORBIT_LENGTH s - 10) 0); cbn; lia.
Qed.


Lemma upY_sign s :
  let r := if Rltb 0 (sin (DefinitionAll.eyePhi s))
           then DefinitionAll.set_upY s 1 else DefinitionAll.set_upY s (-1) in
  DefinitionAll.upY r = (if Rltb 0 (sin (DefinitionAll.eyePhi r)) then 1 else -1)%Z.
Proof.
  cbv zeta. destruct (Rltb 0 (sin (DefinitionAll.eyePhi s))) eqn:E;
    cbn [DefinitionAll.upY DefinitionAll.set_upY DefinitionAll.eyePhi]; now rewrite E.
Qed.

(** X23.  The keys.  [keyboard] ends the program on [x] and [X] only.
    On every other key the pause flag and the normal time step change as
    the engine's view of [init] says (space toggles the pause, the
    brackets scale the step by 1.1, nothing else touches them); [upY] is
    1 or -1 by the sign of [sin(eyePhi)], and -1 after the key [0], which
    sets [eyePhi] to [2 * pi]; a positive [init.ORBIT_LENGTH] stays
    positive, since the key [-] takes its decrement back when the result
    is not positive. *)
Theorem X23_keyboard (theKey : ascii) (mouseX mouseY : Z) (self : DefinitionAll.t) :
  (DefinitionAll.keyboard theKey mouseX mouseY self = None
   <-> theKey = "x"%char \/ theKey = "X"%char)
  /\ forall self',
       DefinitionAll.keyboard theKey mouseX mouseY self = Some self' ->
       DefinitionAll.engine self'
       = Definition_.keyboard theKey (DefinitionAll.engine self)
       /\ DefinitionAll.upY self'
          = (if Rltb 0 (sin (DefinitionAll.eyePhi self')) then 1 else -1)%Z
       /\ (theKey = "0"%char -> DefinitionAll.upY self' = (-1)%Z)
       /\ ((0 < DefinitionAll.ORBIT_LENGTH self)%Z ->
           (0 < DefinitionAll.ORBIT_LENGTH self')%Z)
       /\ DefinitionAll.prevMouseX self' = Some mouseX
       /\ DefinitionAll.prevMouseY self' = Some mouseY.
Proof.
  unfold DefinitionAll.keyboard.
  assert (Hx : DefinitionAll.either theKey "x" "X" = true
               <-> theKey = "x"%char \/ theKey = "X"%char).
  { unfold DefinitionAll.either.
    destruct (Ascii.eqb_spec theKey "x"); destruct (Ascii.eqb_spec theKey "X");
      cbn [orb]; split; auto; try discriminate; intros [|]; contradiction. }
  destruct (DefinitionAll.either theKey "x" "X") eqn:Ex.
  { split; [split; [intros _; now apply Hx|reflexivity]|].
    intros self' H. discriminate H. }
  split; [split; [discriminate|intros Hk; apply Hx in Hk; discriminate Hk]|].
  intros self' H. cbv zeta in H.
  set (s1 := if DefinitionAll.either theKey "i" "I"
             then DefinitionAll.set_eyePhi self (DefinitionAll.eyePhi self - PI / 20)
             else self) in H.
  set (s3 := DefinitionAll.mode_keys theKey (DefinitionAll.camera_keys theKey s1)) in H.
  set (s4 := DefinitionAll.set_prevMouse s3 (Some mouseX) (Some mouseY)) in H.
  injection H as <-.
  assert (H1 : DefinitionAll.engine s1 = DefinitionAll.engine self
               /\ DefinitionAll.ORBIT_LENGTH s1 = DefinitionAll.ORBIT_LENGTH self).
  { unfold s1. destruct (DefinitionAll.either theKey "i" "I"); split; reflexivity. }
  split; [|split; [|split; [|split]]].
  - transitivity (DefinitionAll.engine s3).
    + match goal with |- context [Rltb 0 ?v] => destruct (Rltb 0 v) end; reflexivity.
    + unfold s3. rewrite engine_mode_keys, engine_camera_keys. now rewrite (proj1 H1).
  - exact (upY_sign s4).
  - intros ->.
    match goal with |- context [sin ?v] => replace v with (2 * PI) by reflexivity end.
    rewrite sin_2PI.
    rewrite (proj2 (Rltb_false 0 0)) by lra. reflexivity.
  - intros HL.
    assert (H3 : (0 < DefinitionAll.ORBIT_LENGTH s3)%Z).
    { unfold s3. apply orbit_length_mode_keys.
      now rewrite (proj1 (orbit_camera_keys theKey s1)), (proj2 H1). }
    match goal with |- context [Rltb 0 ?v] => destruct (Rltb 0 v) end; exact H3.
  - match goal with |- context [Rltb 0 ?v] => destruct (Rltb 0 v) end; split; reflexivity.
Qed.


(* ------------------------------------------------------------------ *)
(** ** Angular momentum and the center of mass *)

(** The components of [r x v] of a body. *)
Definition spin_x (b : Body.t) : R := Body.y b * Body.Vz b - Body.z b * Body.Vy b.
Definition spin_y (b : Body.t) : R := Body.z b * Body.Vx b - Body.x b * Body.Vz b.
Definition spin_z (b : Body.t) : R := Body.x b * Body.Vy b - Body.y b * Body.Vx b.

(** The total angular momentum about the origin. *)
Definition angular_momentum (sys : list Body.t) : vec :=
  (Rsum sys (fun b => Body.mass b * spin_x b),
   Rsum sys (fun b => Body.mass b * spin_y b),
   Rsum sys (fun b => Body.mass b * spin_z b)).

(** The components of [r x F] for the pull of [other] on [self]. *)
Definition torque_x (G : R) (self other : Body.t) : R :=
  Body.y self * pull_z G self other - Body.z self * pull_y G self other.
Definition torque_y (G : R) (self other : Body.t) : R :=
  Body.z self * pull_x G self other - Body.x self * pull_z G self other.
Definition torque_z (G : R) (self other : Body.t) : R :=
  Body.x self * pull_y G self other - Body.y self * pull_x G self other.

(** The mass-weighted sum of the positions. *)
Definition mass_moment (sys : list Body.t) : vec :=
  (Rsum sys (fun b => Body.mass b * Body.x b),
   Rsum sys (fun b => Body.mass b * Body.y b),
   Rsum sys (fun b => Body.mass b * Body.z b)).

Definition vscale (c : R) (u : vec) : vec :=
  let '(a, b, d) := u in (c * a, c * b, c * d).

Lemma torque_x_antisym G a b : torque_x G a b = - torque_x G b a.
Proof. unfold torque_x, pull_y, pull_z. rewrite (gd_sym G a b). ring. Qed.

Lemma torque_y_antisym G a b : torque_y G a b = - torque_y G b a.
Proof. unfold torque_y, pull_x, pull_z. rewrite (gd_sym G a b). ring. Qed.

Lemma torque_z_antisym G a b : torque_z G a b = - torque_z G b a.
Proof. unfold torque_z, pull_x, pull_y. rewrite (gd_sym G a b). ring. Qed.

Lemma Rsum_term_lin (p1 p2 : Body.t -> Body.t -> R) (c1 c2 : Body.t -> R) sys i b js :
  c1 b * Rsum js (term p1 sys i b) - c2 b * Rsum js (term p2 sys i b)
  = Rsum js (term (fun a o => c1 a * p1 a o - c2 a * p2 a o) sys i b).
Proof.
  induction js as [|j js IH]; cbn [Rsum]; [ring|].
  rewrite <- IH. unfold term.
  destruct (i =? j)%nat; [ring|]. destruct (nth_error sys j); ring.
Qed.

Lemma phase1_angular_momentum G dt sys :
  pairwise_apart sys -> massive sys ->
  angular_momentum (phase1_bodies G dt sys) = angular_momentum sys.
Proof.
  intros Ha Hm.
  assert (Hfar : forall i b, nth_error sys i = Some b ->
            compute1_body G dt i sys b =
            (accelerated dt (Body.set_F b (net_x G sys i b) (net_y G sys i b)
                               (net_z G sys i b)), Ok tt) /\ Body.mass b <> 0).
  { intros i b Hb.
    assert (0 < Body.mass b)
      by (eapply (proj1 (Forall_forall _ _) Hm), nth_error_In, Hb).
    split; [|lra]. apply compute1_body_far; [|lra].
    now apply pairwise_apart_alone. }
  unfold angular_momentum. f_equal; [f_equal|].
  - apply (phase1_keeps (torque_x G) spin_x); [apply torque_x_antisym|].
    intros i b Hb. destruct (Hfar i b Hb) as [-> Hm0].
    unfold torque_x.
    rewrite <- (Rsum_term_lin (pull_z G) (pull_y G) Body.y Body.z).
    fold (net_z G sys i b). fold (net_y G sys i b).
    unfold spin_x, accelerated. cbn. field. exact Hm0.
  - apply (phase1_keeps (torque_y G) spin_y); [apply torque_y_antisym|].
    intros i b Hb. destruct (Hfar i b Hb) as [-> Hm0].
    unfold torque_y.
    rewrite <- (Rsum_term_lin (pull_x G) (pull_z G) Body.z Body.x).
    fold (net_x G sys i b). fold (net_z G sys i b).
    unfold spin_y, accelerated. cbn. field. exact Hm0.
  - apply (phase1_keeps (torque_z G) spin_z); [apply torque_z_antisym|].
    intros i b Hb. destruct (Hfar i b Hb) as [-> Hm0].
    unfold torque_z.
    rewrite <- (Rsum_term_lin (pull_y G) (pull_x G) Body.x Body.y).
    fold (net_y G sys i b). fold (net_x G sys i b).
    unfold spin_z, accelerated. cbn. field. exact Hm0.
Qed.

Lemma phase2_angular_momentum dt sec sys :
  angular_momentum (phase2_bodies dt sec sys) = angular_momentum sys.
Proof.
  unfold angular_momentum, phase2_bodies. rewrite !Rsum_map.
  f_equal; [f_equal|]; apply Rsum_ext; intros b _;
    destruct (compute2_body_moved dt sec b) as [tm ->];
    unfold spin_x, spin_y, spin_z, moved; cbn; ring.
Qed.

Lemma Rsum_as_map {A} (f : A -> R) (l : list A) : Rsum l f = Rsum (map f l) (fun r => r).
Proof. now rewrite Rsum_map. Qed.

Lemma phase1_mass_moment G dt sys :
  mass_moment (phase1_bodies G dt sys) = mass_moment sys.
Proof.
  unfold mass_moment, phase1_bodies.
  f_equal; [f_equal|];
    match goal with
    | |- Rsum _ ?f = _ =>
        rewrite (Rsum_as_map f), (Rsum_as_map f sys); f_equal;
        apply map_imap_inv; intros i b;
        pose proof (compute1_body_only_FV G dt i sys b) as H;
        unfold only_FV in H; rewrite H; reflexivity
    end.
Qed.

Lemma phase2_mass_moment dt sec sys :
  mass_moment (phase2_bodies dt sec sys)
  = vadd (mass_moment sys) (vscale dt (momentum sys)).
Proof.
  unfold mass_moment, momentum, phase2_bodies, vscale, vadd. rewrite !Rsum_map.
  f_equal; [f_equal|]; rewrite <- Rsum_scal, <- Rsum_plus; apply Rsum_ext; intros b _;
    destruct (compute2_body_moved dt sec b) as [tm ->];
    unfold moved; cbn; ring.
Qed.

Section Rotation.

Variable cfg : Config.

Lemma animate_angular_momentum w :
  pairwise_apart (bodies w) -> massive (bodies w) ->
  angular_momentum (bodies (fst (animate cfg w))) = angular_momentum (bodies w).
Proof.
  intros Ha Hm. rewrite bodies_animate.
  destruct (_ =? _)%Z; [reflexivity|].
  rewrite bodies_stage2, phase2_angular_momentum, bodies_stage1.
  now apply phase1_angular_momentum.
Qed.

(** X25.  The integrator keeps the total angular momentum.  In exact
    arithmetic the angular momentum about the origin of a system with
    positive masses is the same after any sequence of steps, display
    calls and keys, provided that the places of the bodies are pairwise
    distinct at the start of every step: the pulls are central, the
    velocity is advanced before the position, and the position is
    advanced along the new velocity. *)
Theorem X25_angular_momentum (es : list event) (w : World) :
  massive (bodies w) ->
  (forall es1 es2, es = es1 ++ Animate :: es2 ->
     pairwise_apart (bodies (run cfg es1 w))) ->
  angular_momentum (bodies (run cfg es w)) = angular_momentum (bodies w).
Proof.
  revert w. induction es as [|e es IH]; intros w Hm Ha; [reflexivity|].
  cbn [run fold_left]. fold (run cfg es (exec cfg e w)).
  rewrite IH.
  - destruct e; cbn [exec].
    + apply animate_angular_momentum; [|exact Hm]. exact (Ha [] es eq_refl).
    + now rewrite bodies_display.
    + reflexivity.
  - now apply massive_exec.
  - intros es1 es2 E. apply (Ha (e :: es1) es2). now rewrite E.
Qed.

(** X26.  The center of mass.  A step advances the mass-weighted sum of
    the positions by [DELTA_T] times the total momentum the bodies have
    after the step, whatever the state is; from a state with positive
    masses and pairwise distinct places that is the momentum before the
    step, so the center of mass moves uniformly. *)
Theorem X26_center_of_mass (w : World) :
  SAVE_RATE cfg <> 0%Z ->
  let dt := Asystem.DELTA_T (planet_system w) in
  let w' := fst (animate cfg w) in
  mass_moment (bodies w')
  = vadd (mass_moment (bodies w)) (vscale dt (momentum (bodies w')))
  /\ (pairwise_apart (bodies w) -> massive (bodies w) ->
      mass_moment (bodies w')
      = vadd (mass_moment (bodies w)) (vscale dt (momentum (bodies w)))).
Proof.
  intros Hs dt w'.
  assert (H : mass_moment (bodies w')
              = vadd (mass_moment (bodies w)) (vscale dt (momentum (bodies w')))).
  { unfold w'. rewrite bodies_animate.
    destruct (Z.eqb_spec (SAVE_RATE cfg) 0) as [E|_]; [contradiction|].
    rewrite bodies_stage2, phase2_mass_moment, phase2_momentum, bodies_stage1.
    now rewrite phase1_mass_moment. }
  split; [exact H|].
  intros Ha Hm. rewrite H. unfold w'. now rewrite animate_momentum.
Qed.

End Rotation.

Lemma ex_pair_massive : massive (bodies ex_pair).
Proof. repeat constructor; cbn; lra. Qed.

Lemma X25_angular_momentum_witness :
  massive (bodies ex_pair)
  /\ angular_momentum (bodies (run cfg_ex [Animate] ex_pair))
     = angular_momentum (bodies ex_pair).
Proof.
  split; [exact ex_pair_massive|].
  apply (X25_angular_momentum cfg_ex [Animate] ex_pair ex_pair_massive).
  intros [|e [|e' es1]] es2 E; cbn in E; try discriminate.
  exact ex_pair_apart.
Defined.

Lemma X26_center_of_mass_witness :
  pairwise_apart (bodies ex_pair)
  /\ mass_moment (bodies (fst (animate cfg_ex ex_pair)))
     = vadd (mass_moment (bodies ex_pair))
         (vscale (Asystem.DELTA_T (planet_system ex_pair)) (momentum (bodies ex_pair))).
Proof.
  split; [exact ex_pair_apart|].
  exact (proj2 (X26_center_of_mass cfg_ex ex_pair save_rate_ex)
           ex_pair_apart ex_pair_massive).
Defined.

(* ------------------------------------------------------------------ *)
(** ** The clock and the display call *)

(** What a step adds to the time-stamp of every body: nothing when
    [SEC_PER_DAY] is 0 (the workers of the second phase then raise before
    they advance it). *)
Definition tick (cfg : Config) (dt : R) : R :=
  if Req_dec_T (SEC_PER_DAY cfg) 0 then 0 else dt / SEC_PER_DAY cfg.

(** What an event adds to the time-stamps. *)
Definition advance (cfg : Config) (e : event) (w : World) : R :=
  match e with
  | Animate =>
      if (SAVE_RATE cfg =? 0)%Z then 0
      else tick cfg (Asystem.DELTA_T (planet_system w))
  | _ => 0
  end.

(** What a sequence of events adds to the time-stamps. *)
Fixpoint elapsed (cfg : Config) (es : list event) (w : World) : R :=
  match es with
  | [] => 0
  | e :: es' => advance cfg e w + elapsed cfg es' (exec cfg e w)
  end.

(** The time steps in use are not negative. *)
Definition forward (w : World) : Prop :=
  0 <= Asystem.DELTA_T (planet_system w) /\ 0 <= Definition_.NORM_DELTA_T (init w).

Section Clock.

Variable cfg : Config.

Lemma time_stage2 w :
  map Body.time (bodies (stage2 cfg w))
  = map (fun b => Body.time b + tick cfg (Asystem.DELTA_T (planet_system w))) (bodies w).
Proof.
  rewrite bodies_stage2, bodies_stage1. unfold phase2_bodies, phase1_bodies.
  rewrite map_map.
  rewrite (map_ext _ (fun b => Body.time b
                               + tick cfg (Asystem.DELTA_T (planet_system w)))).
  - apply map_imap_inv. intros i b.
    pose proof (compute1_body_only_FV (GRAV_CONS cfg)
                  (Asystem.DELTA_T (planet_system w)) i (bodies w) b) as H.
    unfold only_FV in H. rewrite H. reflexivity.
  - intros b. unfold tick. destruct (Req_dec_T (SEC_PER_DAY cfg) 0) as [E|E].
    + rewrite compute2_body_zero by exact E. cbn. ring.
    + rewrite compute2_body_ok by exact E. reflexivity.
Qed.

Lemma time_exec e w :
  map Body.time (bodies (exec cfg e w))
  = map (fun b => Body.time b + advance cfg e w) (bodies w).
Proof.
  assert (H0 : map Body.time (bodies w) = map (fun b => Body.time b + 0) (bodies w)).
  { apply map_ext. intros b. ring. }
  destruct e; cbn [exec advance].
  - rewrite bodies_animate. destruct (_ =? _)%Z; [exact H0|apply time_stage2].
  - now rewrite bodies_display.
  - exact H0.
Qed.

Lemma dt_stage2 w :
  Asystem.DELTA_T (planet_system (stage2 cfg w)) = Asystem.DELTA_T (planet_system w).
Proof. unfold stage2. rewrite phase2_run. cbn. apply dt_stage1. Qed.

Lemma forward_next_step b w :
  0 <= FINE_DELTA_T cfg -> forward w -> forward (next_step cfg b (scanned w)).
Proof.
  intros HF [Hd Hn]. unfold forward, next_step.
  change (init (scanned w)) with (init w).
  destruct (negb _); [|destruct b]; cbn; split; auto; lra.
Qed.

Lemma forward_exec e w :
  0 <= FINE_DELTA_T cfg -> forward w -> forward (exec cfg e w).
Proof.
  intros HF Hw. destruct e; cbn [exec].
  - destruct (Z.eqb_spec (SAVE_RATE cfg) 0) as [E|E].
    + rewrite animate_save_rate_zero by exact E. exact Hw.
    + assert (H2 : forward (stage2 cfg w)).
      { unfold forward. now rewrite dt_stage2, init_stage2. }
      destruct (bodies w) eqn:Eb.
      * rewrite animate_empty by assumption. exact H2.
      * rewrite animate_run; [|exact E|congruence]. cbn [fst].
        unfold stage4, stage3.
        exact (forward_next_step _ _ HF H2).
  - destruct (bodies w) eqn:Eb.
    + rewrite display_empty by assumption. exact Hw.
    + rewrite display_run by congruence. now apply forward_next_step.
  - destruct Hw as [Hd Hn]. split; [exact Hd|].
    cbn [init set_init]. unfold Definition_.keyboard.
    destruct (Ascii.eqb theKey " "); [exact Hn|].
    destruct (Ascii.eqb theKey "["); cbn [Definition_.NORM_DELTA_T].
    { apply Rmult_le_pos; [exact Hn|]. apply Rlt_le, Rinv_0_lt_compat. lra. }
    destruct (Ascii.eqb theKey "]"); cbn [Definition_.NORM_DELTA_T]; [|exact Hn].
    apply Rmult_le_pos; [exact Hn|lra].
Qed.

Lemma advance_nonneg e w :
  0 <= SEC_PER_DAY cfg -> forward w -> 0 <= advance cfg e w.
Proof.
  intros Hsec [Hd _]. destruct e; cbn [advance]; try lra.
  destruct (_ =? _)%Z; [lra|]. unfold tick.
  destruct (Req_dec_T (SEC_PER_DAY cfg) 0); [lra|].
  apply Rmult_le_pos; [exact Hd|]. apply Rlt_le, Rinv_0_lt_compat. lra.
Qed.

Lemma time_run es : forall w,
  map Body.time (bodies (run cfg es w))
  = map (fun b => Body.time b + elapsed cfg es w) (bodies w).
Proof.
  induction es as [|e es IH]; intros w.
  - cbn [run fold_left elapsed]. apply map_ext. intros b. ring.
  - cbn [run fold_left elapsed]. fold (run cfg es (exec cfg e w)).
    rewrite IH.
    rewrite <- (map_map Body.time (fun r => r + elapsed cfg es (exec cfg e w))).
    rewrite time_exec, map_map. apply map_ext. intros b. ring.
Qed.

Lemma elapsed_nonneg es : forall w,
  0 <= FINE_DELTA_T cfg -> 0 <= SEC_PER_DAY cfg -> forward w ->
  0 <= elapsed cfg es w /\ forward (run cfg es w).
Proof.
  induction es as [|e es IH]; intros w HF Hsec Hw.
  - split; [cbn; lra|exact Hw].
  - cbn [run fold_left elapsed]. fold (run cfg es (exec cfg e w)).
    destruct (IH (exec cfg e w) HF Hsec (forward_exec e w HF Hw)) as [Hle Hfw].
    pose proof (advance_nonneg e w Hsec Hw). split; [lra|exact Hfw].
Qed.

(** X27.  The clock.  A step adds [DELTA_T / SEC_PER_DAY] to the
    time-stamp of every body, [DELTA_T] being the time step at the start
    of the step; a step that cannot run its second phase ([SAVE_RATE] or
    [SEC_PER_DAY] zero), a display call and a key add nothing.  So after
    any sequence of events every time-stamp has advanced by the same
    amount, the sum of the amounts of the steps, and bodies that start
    with one time-stamp share one clock.  When the configured and the
    current time steps and [SEC_PER_DAY] are not negative they stay so,
    and the clock never runs backwards. *)
Theorem X27_clock (es : list event) (w : World) :
  (SAVE_RATE cfg <> 0%Z -> SEC_PER_DAY cfg <> 0 ->
   map Body.time (bodies (exec cfg Animate w))
   = map (fun b => Body.time b
                   + Asystem.DELTA_T (planet_system w) / SEC_PER_DAY cfg) (bodies w))
  /\ (SAVE_RATE cfg = 0%Z \/ SEC_PER_DAY cfg = 0 ->
      map Body.time (bodies (exec cfg Animate w)) = map Body.time (bodies w))
  /\ map Body.time (bodies (exec cfg Display w)) = map Body.time (bodies w)
  /\ (forall k, map Body.time (bodies (exec cfg (Key k) w)) = map Body.time (bodies w))
  /\ map Body.time (bodies (run cfg es w))
     = map (fun b => Body.time b + elapsed cfg es w) (bodies w)
  /\ (forall t, Forall (fun b => Body.time b = t) (bodies w) ->
        Forall (fun b => Body.time b = t + elapsed cfg es w) (bodies (run cfg es w)))
  /\ (0 <= FINE_DELTA_T cfg -> 0 <= SEC_PER_DAY cfg -> forward w ->
      0 <= elapsed cfg es w /\ forward (run cfg es w)).
Proof.
  assert (H0 : forall c, c = 0 ->
             map (fun b => Body.time b + c) (bodies w) = map Body.time (bodies w)).
  { intros c ->. apply map_ext. intros b. ring. }
  split; [|split; [|split; [|split; [|split; [|split]]]]].
  - intros Hs Hsec. rewrite time_exec. cbn [advance]. unfold tick.
    destruct (Z.eqb_spec (SAVE_RATE cfg) 0) as [E|_]; [contradiction|].
    destruct (Req_dec_T (SEC_PER_DAY cfg) 0) as [E|_]; [contradiction|]. reflexivity.
  - intros Hz. rewrite time_exec. apply H0. cbn [advance]. unfold tick.
    destruct (Z.eqb_spec (SAVE_RATE cfg) 0) as [E|Hs]; [reflexivity|].
    destruct (Req_dec_T (SEC_PER_DAY cfg) 0) as [E|Hsec]; [reflexivity|].
    destruct Hz; contradiction.
  - rewrite time_exec. now apply H0.
  - intros k. rewrite time_exec. now apply H0.
  - apply time_run.
  - intros t H.
    rewrite <- Forall_map with (f := Body.time) (P := fun r => r = t + elapsed cfg es w).
    rewrite time_run, Forall_map.
    eapply Forall_impl; [|exact H]. cbn beta. intros b ->. reflexivity.
  - apply elapsed_nonneg.
Qed.

(** X28.  A second display call changes nothing but the output file.
    [display] leaves the same system (collision text, time step, bodies,
    counter) whether it is called once or twice in a row; the second call
    writes one more snapshot exactly when the simulation is not paused
    and some pair is near. *)
Theorem X28_display_twice (w : World) :
  let w1 := exec cfg Display w in
  let w2 := exec cfg Display w1 in
  planet_system w2 = planet_system w1
  /\ init w2 = init w1
  /\ write_file w2
     = (if Definition_.bool_T (init w) && any_near (bodies w)
        then write_file w1 ++ [planet_system w1] else write_file w1).
Proof.
  intros w1 w2. unfold w2, w1. cbn [exec].
  assert (Hcase : bodies w = [] \/ bodies w <> [])
    by (destruct (bodies w); [left|right]; congruence).
  destruct Hcase as [Eb|Hne].
  - rewrite (display_empty cfg w Eb). cbn [fst].
    rewrite (display_empty cfg w Eb). cbn [fst].
    rewrite Eb. unfold any_near. cbn. now rewrite andb_false_r.
  - rewrite (display_run cfg w Hne). cbn [fst].
    set (w' := next_step cfg (any_near (bodies w)) (scanned w)).
    assert (Hb : bodies w' = bodies w).
    { unfold w'. now rewrite bodies_next_step, bodies_scanned. }
    rewrite display_run by (rewrite Hb; exact Hne). cbn [fst]. rewrite Hb.
    assert (Hi : init w' = init w).
    { unfold w', next_step. change (init (scanned w)) with (init w).
      destruct (negb _); [|destruct (any_near (bodies w))]; reflexivity. }
    unfold next_step at 1 2 3. change (init (scanned w')) with (init w'). rewrite Hi.
    unfold w', next_step. change (init (scanned w)) with (init w).
    destruct (Definition_.bool_T (init w)); cbn [negb andb];
      [destruct (any_near (bodies w))|]; repeat split.
Qed.

End Clock.

Lemma X27_clock_witness :
  SEC_PER_DAY cfg_ex <> 0
  /\ map Body.time (bodies (exec cfg_ex Animate ex_pair))
     = map (fun b => Body.time b + 1 / 86400) (bodies ex_pair).
Proof.
  split; [exact sec_per_day_ex|].
  exact (proj1 (X27_clock cfg_ex [] ex_pair) save_rate_ex sec_per_day_ex).
Defined.
